(** * ttl_to_csv: a shallow embedding of [scripts/ttl_to_csv.py]

    The script converts a directory of Turtle files describing SPARQL
    examples into one CSV table.  This development embeds its functions
    ([extract_identifier], [pick_comment], [pick_query], [natural_sort_key],
    [iter_examples], [ExampleRow.as_csv_row], [main]) together with the
    Python and rdflib operations they call, and proves the properties the
    specification states about them.

    How the program is modelled:
    - a [str] is a list of code points; what Python reads from the Unicode
      tables ([isdigit], [int], [lower]) is a parameter, [UnicodeData];
    - a computation that can raise returns a [result]; exceptions are
      values of [PyExc];
    - an rdflib graph is the list of its triples, in the order in which the
      store enumerates them;
    - the file system is a record of the four operations the script calls
      on paths;
    - the output side of the environment, [Host], gives the codec of
      standard output and the errors of the operating system;
    - a run of [main] is the list of the operations it has made on its
      destination (open, write, close), with the value it returns or the
      exception that ends it. *)

From Stdlib Require Import List NArith ZArith Bool Lia String Ascii.
From Stdlib Require Import Permutation Sorted DecimalString DecimalPos.
Import ListNotations.

(** ** Python strings

    A Python [str] is a sequence of Unicode code points. *)

Definition char := N.
Definition str := list char.

Definition lit (s : string) : str :=
  List.map N_of_ascii (list_ascii_of_string s).

Definition str_eq_dec : forall a b : str, {a = b} + {a <> b} :=
  list_eq_dec N.eq_dec.

Definition str_eqb (a b : str) : bool :=
  if str_eq_dec a b then true else false.

(** [a < b] on strings: lexicographic on code points. *)
Fixpoint str_ltb (a b : str) : bool :=
  match a, b with
  | _, [] => false
  | [], _ :: _ => true
  | x :: a', y :: b' =>
      if N.ltb x y then true
      else if N.eqb x y then str_ltb a' b' else false
  end.

(** [sep in text], for a one-character [sep]. *)
Definition contains (sep : char) (text : str) : bool :=
  existsb (N.eqb sep) text.

(** [text.rsplit(sep, 1)[-1]], for a one-character [sep]: what follows the
    last occurrence of [sep], or the whole text when there is none. *)
Fixpoint rsplit_last (sep : char) (text : str) : str :=
  match text with
  | [] => []
  | c :: rest =>
      if contains sep rest then rsplit_last sep rest
      else if N.eqb c sep then rest
      else c :: rest
  end.

(** The characters [str.strip()] removes (CPython's
    [_PyUnicode_IsWhitespace]). *)
Definition cp_isspace (c : char) : bool :=
  ((9 <=? c) && (c <=? 13) || (28 <=? c) && (c <=? 32)
   || (c =? 133) || (c =? 160) || (c =? 5760)
   || (8192 <=? c) && (c <=? 8202)
   || (c =? 8232) || (c =? 8233) || (c =? 8239) || (c =? 8287)
   || (c =? 12288))%N.

Fixpoint lstrip (text : str) : str :=
  match text with
  | [] => []
  | c :: rest => if cp_isspace c then lstrip rest else text
  end.

Definition rstrip (text : str) : str := rev (lstrip (rev text)).

(** [text.strip()] *)
Definition strip (text : str) : str := rstrip (lstrip text).

(** [name.rfind(c)]: the index of the last [c], or [-1]. *)
Fixpoint rfind_from (c : char) (s : str) (i acc : Z) : Z :=
  match s with
  | [] => acc
  | x :: rest => rfind_from c rest (i + 1) (if N.eqb x c then i else acc)
  end.

Definition rfind (c : char) (s : str) : Z := rfind_from c s 0 (-1).

Definition len (s : str) : Z := Z.of_nat (List.length s).

(** The decimal text of an integer: what [str(n)] returns when it returns. *)
Definition str_of_int (n : Z) : str :=
  lit (NilZero.string_of_int (Z.to_int n)).

(** [sys.get_int_max_str_digits()]: the script leaves the default. *)
Definition int_max_str_digits : Z := 4300.

(** The number of decimal digits of an integer, its sign apart. *)
Definition int_digits (n : Z) : Z := len (str_of_int (Z.abs n)).

(** Every character is below U+0080. *)
Definition is_ascii (text : str) : bool :=
  forallb (fun c => (c <? 128)%N) text.

(** The lower-case form of an ASCII letter. *)
Definition ascii_lower_char (c : char) : char :=
  if ((65 <=? c) && (c <=? 90))%N then (c + 32)%N else c.

(** ** The Unicode character database of the Python runtime

    [str.isdigit], [int] and [str.lower] read the runtime's Unicode tables,
    which are not part of this repository and grow with every Unicode
    version.  They are taken as a parameter, with the facts about them that
    every version shares.  [str.lower] is taken whole, since its mapping of
    a character can depend on the characters around it. *)

Class UnicodeData := {
  (** Numeric_Type is Digit or Decimal: what [str.isdigit] tests. *)
  cp_isdigit : char -> bool;
  (** The value of a decimal digit (category Nd): what [int] accepts. *)
  cp_decimal : char -> option Z;
  (** [text.lower()] *)
  lower : str -> str;
  decimal_isdigit :
    forall c d, cp_decimal c = Some d -> cp_isdigit c = true;
  decimal_range :
    forall c d, cp_decimal c = Some d -> (0 <= d <= 9)%Z;
  ascii_isdigit :
    forall c, (c < 128)%N -> cp_isdigit c = ((48 <=? c) && (c <=? 57))%N;
  ascii_decimal :
    forall c, (48 <= c <= 57)%N -> cp_decimal c = Some (Z.of_N c - 48)%Z;
  ascii_lower :
    forall text, is_ascii text = true ->
      lower text = List.map ascii_lower_char text;
  (** U+00B2 SUPERSCRIPT TWO is a digit that is not a decimal digit. *)
  superscript_two_isdigit : cp_isdigit 178%N = true;
  superscript_two_decimal : cp_decimal 178%N = None
}.

(** The tables restricted to the Basic Latin and Latin-1 Supplement blocks
    (code points above U+00FF are left unclassified): an instance on which
    the definitions below can be evaluated. *)
Definition latin1_isdigit (c : char) : bool :=
  ((48 <=? c) && (c <=? 57) || (c =? 178) || (c =? 179) || (c =? 185))%N.

Definition latin1_decimal (c : char) : option Z :=
  if ((48 <=? c) && (c <=? 57))%N then Some (Z.of_N c - 48)%Z else None.

Definition latin1_lower_char (c : char) : char :=
  if ((65 <=? c) && (c <=? 90))%N then (c + 32)%N
  else if ((192 <=? c) && (c <=? 222) && negb (c =? 215))%N then (c + 32)%N
  else c.

Definition latin1_lower (text : str) : str :=
  List.map latin1_lower_char text.

#[refine] Instance latin1 : UnicodeData := {
  cp_isdigit := latin1_isdigit;
  cp_decimal := latin1_decimal;
  lower := latin1_lower
}.
Proof.
  - unfold latin1_decimal, latin1_isdigit. intros c d.
    destruct ((48 <=? c) && (c <=? 57))%N; [reflexivity | discriminate].
  - unfold latin1_decimal. intros c d.
    destruct ((48 <=? c) && (c <=? 57))%N eqn:E; [| discriminate].
    intros [= <-]. apply andb_prop in E. destruct E as [E1 E2].
    apply N.leb_le in E1, E2. lia.
  - unfold latin1_isdigit. intros c Hc.
    replace (c =? 178)%N with false by (symmetry; apply N.eqb_neq; lia).
    replace (c =? 179)%N with false by (symmetry; apply N.eqb_neq; lia).
    replace (c =? 185)%N with false by (symmetry; apply N.eqb_neq; lia).
    now rewrite !orb_false_r.
  - unfold latin1_decimal. intros c [H1 H2].
    apply N.leb_le in H1, H2. now rewrite H1, H2.
  - unfold latin1_lower, is_ascii. intros text H. apply map_ext_in.
    intros c Hc. rewrite forallb_forall in H. specialize (H c Hc).
    apply N.ltb_lt in H. unfold latin1_lower_char, ascii_lower_char.
    destruct ((65 <=? c) && (c <=? 90))%N; [reflexivity|].
    replace (192 <=? c)%N with false by (symmetry; apply N.leb_gt; lia).
    reflexivity.
  - reflexivity.
  - reflexivity.
Defined.

(** ** Exceptions and fallible computations *)

Inductive PyExc :=
| SystemExit (msg : str)
| ValueError (msg : str)
(** the [ValueError] of [int(value)]; the runtime builds its message *)
| InvalidIntLiteral (value : str)
(** the [ValueError] of [int(value)] on a value of more digits than the
    runtime converts: "Exceeds the limit (4300 digits) for integer string
    conversion: value has ... digits" *)
| IntDigitLimit (limit digits : Z)
(** the [ValueError] of [str(n)] on an integer of more digits than the
    runtime converts: "Exceeds the limit (4300 digits) for integer string
    conversion" *)
| StrDigitLimit (limit : Z)
(** [<] between an [int] and a [str] *)
| TypeError
(** whatever [Graph.parse] raises on a file it cannot load *)
| LoaderError (info : str)
(** a character the codec of the stream cannot encode, met in [write] *)
| UnicodeEncodeError (encoding : str) (object : str) (start : Z)
(** what the operating system refuses: opening, writing or closing *)
| OSError (errno : Z) (filename : str).

Inductive result (A : Type) :=
| Ok (a : A)
| Raise (e : PyExc).

Arguments Ok {A} a.
Arguments Raise {A} e.

Definition bind {A B} (c : result A) (k : A -> result B) : result B :=
  match c with
  | Ok a => k a
  | Raise e => Raise e
  end.

Notation "x <- c ;; k" := (bind c (fun x => k))
  (at level 61, c at next level, right associativity).

Fixpoint mapM {A B} (f : A -> result B) (l : list A) : result (list B) :=
  match l with
  | [] => Ok []
  | x :: rest => y <- f x ;; ys <- mapM f rest ;; Ok (y :: ys)
  end.

(** ** [list.sort(key=...)] and [sorted]

    The keys of all elements are computed first; the elements are then put
    in order of their keys, compared with [<] only, elements with equal keys
    keeping their order.  A key function or a comparison that raises makes
    the sort raise. *)

Section Sort.
Variables (A K : Type).
Variable key : A -> result K.
Variable lt : K -> K -> result bool.

Definition decorate (l : list A) : result (list (K * A)) :=
  mapM (fun x => k <- key x ;; Ok (k, x)) l.

Fixpoint insert (x : K * A) (sorted : list (K * A))
  : result (list (K * A)) :=
  match sorted with
  | [] => Ok [x]
  | y :: rest =>
      b <- lt (fst y) (fst x) ;;
      if b then (r <- insert x rest ;; Ok (y :: r))
      else Ok (x :: y :: rest)
  end.

Fixpoint isort (l : list (K * A)) : result (list (K * A)) :=
  match l with
  | [] => Ok []
  | x :: rest => s <- isort rest ;; insert x s
  end.

Definition list_sort (l : list A) : result (list A) :=
  d <- decorate l ;; s <- isort d ;; Ok (List.map snd s).
End Sort.

Arguments decorate {A K} key l.
Arguments insert {A K} lt x sorted.
Arguments isort {A K} lt l.
Arguments list_sort {A K} key lt l.

(** ** rdflib terms and graphs *)

Inductive Node :=
| URIRef (iri : str)
| BNode (label : str)
| Literal (lexical : str) (language : option str) (datatype : option str).

(** [str(node)] *)
Definition node_str (n : Node) : str :=
  match n with
  | URIRef iri => iri
  | BNode label => label
  | Literal lexical _ _ => lexical
  end.

(** [isinstance(node, Literal)] *)
Definition is_Literal (n : Node) : bool :=
  match n with
  | Literal _ _ _ => true
  | _ => false
  end.

Definition Node_eq_dec : forall a b : Node, {a = b} + {a <> b}.
Proof.
  decide equality; try apply str_eq_dec;
    decide equality; apply str_eq_dec.
Defined.

Definition Node_eqb (a b : Node) : bool :=
  if Node_eq_dec a b then true else false.

Definition Triple := (Node * Node * Node)%type.

(** A graph, as the sequence of its triples in the store's enumeration
    order. *)
Definition Graph := list Triple.

(** [graph.objects(subject, predicate)] *)
Definition objects (graph : Graph) (subject predicate : Node) : list Node :=
  List.map (fun t => snd t)
    (List.filter
       (fun t => Node_eqb (fst (fst t)) subject
                 && Node_eqb (snd (fst t)) predicate) graph).

(** [graph.subjects(predicate, object)] *)
Definition subjects (graph : Graph) (predicate object : Node) : list Node :=
  List.map (fun t => fst (fst t))
    (List.filter
       (fun t => Node_eqb (snd (fst t)) predicate
                 && Node_eqb (snd t) object) graph).

Definition SH : str := lit "http://www.w3.org/ns/shacl#".
Definition SPEX : str :=
  lit "https://purl.expasy.org/sparql-examples/ontology#".
Definition RDF_type : Node :=
  URIRef (lit "http://www.w3.org/1999/02/22-rdf-syntax-ns#type").
Definition RDFS_comment : Node :=
  URIRef (lit "http://www.w3.org/2000/01/rdf-schema#comment").
Definition SH_SPARQLExecutable : Node := URIRef (SH ++ lit "SPARQLExecutable").
Definition SH_select : Node := URIRef (SH ++ lit "select").
Definition SH_ask : Node := URIRef (SH ++ lit "ask").
Definition SH_construct : Node := URIRef (SH ++ lit "construct").
Definition SPEX_describe : Node := URIRef (SPEX ++ lit "describe").

(** Order matters: the first predicate that has a value is used as the
    query text. *)
Definition QUERY_PREDICATES : list Node :=
  [SH_select; SH_ask; SH_construct; SPEX_describe].

(** ** pathlib paths and the file system *)

Record Path := {
  path_str : str;   (** [str(path)] *)
  path_name : str   (** [path.name], the last component *)
}.

Definition dot : char := 46%N.

(** [path.suffix] *)
Definition suffix (p : Path) : str :=
  let name := path_name p in
  let i := rfind dot name in
  if ((0 <? i) && (i <? len name - 1))%Z then skipn (Z.to_nat i) name
  else [].

(** [path.stem] *)
Definition stem (p : Path) : str :=
  let name := path_name p in
  let i := rfind dot name in
  if ((0 <? i) && (i <? len name - 1))%Z then firstn (Z.to_nat i) name
  else name.

(** What the program reads from its environment. *)
Record FileSystem := {
  is_dir : Path -> bool;
  iterdir : Path -> list Path;
  is_file : Path -> bool;
  (** [Graph().parse(ttl_file)] *)
  parse : Path -> result Graph
}.

(** ** Python values used as sort keys *)

Inductive PyVal :=
| VInt (n : Z)
| VStr (s : str).

(** [a == b] *)
Definition val_eqb (a b : PyVal) : bool :=
  match a, b with
  | VInt x, VInt y => Z.eqb x y
  | VStr x, VStr y => str_eqb x y
  | _, _ => false
  end.

(** [a < b] *)
Definition val_lt (a b : PyVal) : result bool :=
  match a, b with
  | VInt x, VInt y => Ok (Z.ltb x y)
  | VStr x, VStr y => Ok (str_ltb x y)
  | _, _ => Raise TypeError
  end.

(** [a < b] on pairs [(tier, value)]: the first components that differ
    decide. *)
Definition tuple_lt (a b : Z * PyVal) : result bool :=
  if Z.eqb (fst a) (fst b) then
    if val_eqb (snd a) (snd b) then Ok false else val_lt (snd a) (snd b)
  else Ok (Z.ltb (fst a) (fst b)).

(** ** The script *)

Record ExampleRow := {
  identifier : str;
  backend_id : Z;
  name : str;
  query : str
}.

(** [str(n)] for an [int]: CPython 3.11 refuses an integer of more than
    [sys.get_int_max_str_digits()] digits. *)
Definition py_str_int (n : Z) : result str :=
  if (int_max_str_digits <? int_digits n)%Z then
    Raise (StrDigitLimit int_max_str_digits)
  else Ok (str_of_int n).

Definition as_csv_row (self : ExampleRow) (include_identifier : bool)
  : result (list str) :=
  backend <- py_str_int (backend_id self) ;;
  Ok [ if include_identifier then identifier self else lit "";
       backend;
       name self;
       query self;
       lit "";
       lit "~" ].

Definition hash : char := 35%N.
Definition slash : char := 47%N.

Definition extract_identifier (subject : Node) (ttl_file : Path) : str :=
  let text := strip (node_str subject) in
  let text :=
    fold_left
      (fun text separator =>
         if contains separator text then rsplit_last separator text
         else text)
      [hash; slash] text in
  match text with
  | [] => stem ttl_file
  | _ :: _ => text
  end.

(** [literal.language == tag] *)
Definition language_is (language : option str) (tag : str) : bool :=
  match language with
  | Some l => str_eqb l tag
  | None => false
  end.

(** The loop of [pick_comment], from a given [fallback]. *)
Fixpoint pick_comment_from (fallback : option str) (comments : list Node)
    (ttl_file : Path) : str :=
  match comments with
  | [] =>
      match fallback with
      | Some ((_ :: _) as text) => text
      | _ => stem ttl_file
      end
  | Literal lexical language _ :: rest =>
      if language_is language (lit "en") then lexical
      else
        pick_comment_from
          (match fallback with None => Some lexical | Some _ => fallback end)
          rest ttl_file
  | _ :: rest => pick_comment_from fallback rest ttl_file
  end.

Definition pick_comment (comments : list Node) (ttl_file : Path) : str :=
  pick_comment_from None comments ttl_file.

Definition no_query_message (ttl_file : Path) (subject : Node) : str :=
  lit "No SPARQL query found in " ++ path_str ttl_file
    ++ lit " for subject " ++ node_str subject.

(** The loop of [pick_query], over the predicates still to try. *)
Fixpoint pick_query_from (predicates : list Node) (graph : Graph)
    (subject : Node) (ttl_file : Path) : result str :=
  match predicates with
  | [] => Raise (ValueError (no_query_message ttl_file subject))
  | predicate :: rest =>
      match objects graph subject predicate with
      | literal :: _ => Ok (node_str literal)
      | [] => pick_query_from rest graph subject ttl_file
      end
  end.

Definition pick_query (graph : Graph) (subject : Node) (ttl_file : Path)
  : result str :=
  pick_query_from QUERY_PREDICATES graph subject ttl_file.

Definition example_of (graph : Graph) (ttl_file : Path) (backend : Z)
    (subject : Node) : result ExampleRow :=
  let identifier := extract_identifier subject ttl_file in
  let name := pick_comment (objects graph subject RDFS_comment) ttl_file in
  query <- pick_query graph subject ttl_file ;;
  Ok {| identifier := identifier; backend_id := backend;
        name := name; query := query |}.

(** [list(iter_examples(ttl_file, backend_id))] *)
Definition iter_examples (fs : FileSystem) (ttl_file : Path) (backend : Z)
  : result (list ExampleRow) :=
  graph <- parse fs ttl_file ;;
  mapM (example_of graph ttl_file backend)
    (subjects graph RDF_type SH_SPARQLExecutable).

Section WithUnicode.
Context {U : UnicodeData}.

(** [value.isdigit()] *)
Definition isdigit (value : str) : bool :=
  match value with
  | [] => false
  | _ :: _ => forallb cp_isdigit value
  end.

(** [value.isdecimal()] *)
Definition isdecimal (value : str) : bool :=
  match value with
  | [] => false
  | _ :: _ =>
      forallb (fun c => match cp_decimal c with Some _ => true
                                            | None => false end) value
  end.

(** Decimal digits that [int] converts: no more than the runtime's limit
    of them. *)
Definition reads_as_int (value : str) : bool :=
  isdecimal value && (len value <=? int_max_str_digits)%Z.

(** The number a string of decimal digits denotes, after [acc]. *)
Fixpoint decimal_value (acc : Z) (value : str) : option Z :=
  match value with
  | [] => Some acc
  | c :: rest =>
      match cp_decimal c with
      | Some d => decimal_value (10 * acc + d) rest
      | None => None
      end
  end.

(** The number of decimal digits [value] starts with: the digits [int]
    counts before it converts. *)
Fixpoint leading_decimals (value : str) : Z :=
  match value with
  | [] => 0
  | c :: rest =>
      match cp_decimal c with
      | Some _ => 1 + leading_decimals rest
      | None => 0
      end
  end.

(** [int(value)] on a string that passed [isdigit]: no sign, blank or
    underscore can occur.  CPython 3.11 counts the decimal digits the
    string starts with and refuses more than [sys.get_int_max_str_digits()]
    of them before it looks at what follows them; a string in which
    something else than a decimal digit occurs is an invalid literal. *)
Definition int_of_str (value : str) : result Z :=
  match value with
  | [] => Raise (InvalidIntLiteral value)
  | _ :: _ =>
      if (int_max_str_digits <? leading_decimals value)%Z then
        Raise (IntDigitLimit int_max_str_digits (leading_decimals value))
      else
        match decimal_value 0 value with
        | Some n => Ok n
        | None => Raise (InvalidIntLiteral value)
        end
  end.

Definition natural_sort_key (value : str) : result (Z * PyVal) :=
  if isdigit value then (n <- int_of_str value ;; Ok (0%Z, VInt n))
  else Ok (1%Z, VStr value).
End WithUnicode.

(** ** [csv.writer(destination, quoting=csv.QUOTE_ALL, lineterminator="\n")] *)

Definition dquote : char := 34%N.
Definition comma : char := 44%N.
Definition newline : char := 10%N.

(** A field between quotes, each quote inside it doubled. *)
Definition quote_field (field : str) : str :=
  dquote
    :: flat_map (fun c => if N.eqb c dquote then [dquote; dquote] else [c])
         field
    ++ [dquote].

Fixpoint join (sep : str) (parts : list str) : str :=
  match parts with
  | [] => []
  | [p] => p
  | p :: rest => p ++ sep ++ join sep rest
  end.

(** The text [writer.writerow(fields)] writes. *)
Definition writerow (fields : list str) : str :=
  join [comma] (List.map quote_field fields) ++ [newline].

(** ** Running the program *)

(** The namespace [parse_arguments] returns. *)
Record Args := {
  examples_dir : Path;
  output : option Path;         (** [None]: write to standard output *)
  arg_backend_id : Z;           (** [args.backend_id] *)
  prefix_id_in_title : bool
}.

Inductive Stream :=
| Stdout
| FileStream (path : Path).

(** What a run does to its environment, in order. *)
Inductive Event :=
| Open (path : Path) (mode newline_arg encoding : str)
| Write (destination : Stream) (text : str)
| Close (path : Path).

Record Run := {
  events : list Event;
  outcome : result Z
}.

(** The status the process exits with: [main]'s return value handed to
    [SystemExit], and 1 for a [SystemExit] with a message or an exception
    nobody caught. *)
Definition exit_status (r : Run) : Z :=
  match outcome r with
  | Ok code => code
  | Raise _ => 1%Z
  end.

Definition HEADER : list str :=
  [lit "id"; lit "backend"; lit "name"; lit "query";
   lit "Structure of sortKey [idcode]"; lit "sortKey"].

(** [rows.extend(iter_examples(ttl_file, backend_id))] for each file. *)
Fixpoint extend_rows (fs : FileSystem) (backend : Z) (rows : list ExampleRow)
    (ttl_files : list Path) : result (list ExampleRow) :=
  match ttl_files with
  | [] => Ok rows
  | ttl_file :: rest =>
      new <- iter_examples fs ttl_file backend ;;
      extend_rows fs backend (rows ++ new) rest
  end.

(** [row.name = f"ex:{row.identifier} {row.name}"] *)
Definition prefix_name (row : ExampleRow) : ExampleRow :=
  {| identifier := identifier row;
     backend_id := backend_id row;
     name := lit "ex:" ++ identifier row ++ lit " " ++ name row;
     query := query row |}.

(** ** The output side of the environment *)

(** Bytes, each below 256. *)
Definition bytes := list N.

(** U+D800 to U+DFFF: code points that are no characters. *)
Definition is_surrogate (c : char) : bool :=
  ((55296 <=? c) && (c <=? 57343))%N.

(** The code points the UTF-8 codec encodes: all of a Python string but
    the surrogates. *)
Definition utf8_encodable (c : char) : bool :=
  negb (is_surrogate c) && (c <? 1114112)%N.

(** The bytes of one character in UTF-8. *)
Definition utf8_char (c : char) : bytes :=
  if (c <? 128)%N then [c]
  else if (c <? 2048)%N then
    [N.lor 192 (N.shiftr c 6); N.lor 128 (N.land c 63)]
  else if (c <? 65536)%N then
    [N.lor 224 (N.shiftr c 12);
     N.lor 128 (N.land (N.shiftr c 6) 63);
     N.lor 128 (N.land c 63)]
  else
    [N.lor 240 (N.shiftr c 18);
     N.lor 128 (N.land (N.shiftr c 12) 63);
     N.lor 128 (N.land (N.shiftr c 6) 63);
     N.lor 128 (N.land c 63)].

(** [object.encode("utf-8")] from position [start] on, errors strict. *)
Fixpoint utf8_from (object : str) (start : Z) (text : str) : result bytes :=
  match text with
  | [] => Ok []
  | c :: rest =>
      if utf8_encodable c then
        (encoded <- utf8_from object (start + 1) rest ;;
         Ok (utf8_char c ++ encoded))
      else Raise (UnicodeEncodeError (lit "utf-8") object start)
  end.

Definition utf8_encode (text : str) : result bytes := utf8_from text 0 text.

(** What the program does not decide: the codec of standard output and
    the answers of the operating system.  Both may depend on what was done
    before (an incremental encoder has a state, a disk fills up). *)
Class Host := {
  (** the bytes [sys.stdout] makes of [text], or the error of its codec,
      after the operations [done] *)
  stdout_encode : list Event -> str -> result bytes;
  (** the error the operating system answers the operation with, after the
      operations [done]; [None] when the operation goes through *)
  os_error : list Event -> Event -> option PyExc
}.

Section Perform.
Context {host : Host}.

(** The bytes [stream.write(text)] hands on: a file was opened with
    [encoding="utf-8"], standard output has the codec of the host. *)
Definition encode (done : list Event) (stream : Stream) (text : str)
  : result bytes :=
  match stream with
  | FileStream _ => utf8_encode text
  | Stdout => stdout_encode done text
  end.

(** The exception the operation raises after the operations [done], if
    any: a text that cannot be encoded, or the error of the operating
    system. *)
Definition failure (done : list Event) (op : Event) : option PyExc :=
  match op with
  | Write stream text =>
      match encode done stream text with
      | Raise e => Some e
      | Ok _ => os_error done op
      end
  | _ => os_error done op
  end.

(** The steps taken in order after the operations [done]; the first
    that raises ends the run, and [return 0] is reached when none does. *)
Fixpoint perform (done : list Event) (steps : list (result Event)) : Run :=
  match steps with
  | [] => {| events := done; outcome := Ok 0%Z |}
  | Raise e :: _ => {| events := done; outcome := Raise e |}
  | Ok op :: rest =>
      match failure done op with
      | Some e => {| events := done; outcome := Raise e |}
      | None => perform (done ++ [op]) rest
      end
  end.


End Perform.

Section Main.
Context {U : UnicodeData} {host : Host}.

(** [sorted(path for path in examples_dir.iterdir() if ...)]: the entries
    of one directory differ in their last component only, so they are
    ordered by name. *)
Definition find_ttl_files (fs : FileSystem) (dir : Path)
  : result (list Path) :=
  list_sort (fun path => Ok (path_name path))
    (fun a b => Ok (str_ltb a b))
    (List.filter
       (fun path =>
          is_file fs path && str_eqb (lower (suffix path)) (lit ".ttl"))
       (iterdir fs dir)).

(** [rows.sort(key=lambda row: natural_sort_key(row.identifier))] *)
Definition sort_rows (rows : list ExampleRow) : result (list ExampleRow) :=
  list_sort (fun row => natural_sort_key (identifier row)) tuple_lt rows.

(** [main] up to the point where the destination is opened. *)
Definition main_rows (fs : FileSystem) (args : Args)
  : result (list ExampleRow) :=
  if negb (is_dir fs (examples_dir args)) then
    Raise (SystemExit
             (lit "Directory not found: " ++ path_str (examples_dir args)))
  else
    ttl_files <- find_ttl_files fs (examples_dir args) ;;
    match ttl_files with
    | [] =>
        Raise (SystemExit
                 (lit "No .ttl files found in "
                    ++ path_str (examples_dir args)))
    | _ :: _ =>
        rows <- extend_rows fs (arg_backend_id args) [] ttl_files ;;
        rows <- sort_rows rows ;;
        Ok (if prefix_id_in_title args then List.map prefix_name rows
            else rows)
    end.

(** What [main] sets out to do from the opening of the destination on,
    in order: each step is an operation on the destination, or the
    exception raised while the record to write was being made. *)
Definition write_csv (args : Args) (rows : list ExampleRow)
  : list (result Event) :=
  let destination :=
    match output args with
    | Some path => FileStream path
    | None => Stdout
    end in
  match output args with
  | Some path => [Ok (Open path (lit "w") (lit "") (lit "utf-8"))]
  | None => []
  end
  ++ Ok (Write destination (writerow HEADER))
  :: List.map
       (fun row =>
          fields <- as_csv_row row (negb (prefix_id_in_title args)) ;;
          Ok (Write destination (writerow fields)))
       rows
  ++ match output args with
     | Some path => [Ok (Close path)]
     | None => []
     end.

(** [main]: the rows are collected, then the steps of [write_csv] are
    taken one after the other; the first that fails ends the run. *)
Definition main (fs : FileSystem) (args : Args) : Run :=
  match main_rows fs args with
  | Raise e => {| events := []; outcome := Raise e |}
  | Ok rows => perform [] (write_csv args rows)
  end.
End Main.

(** * Vocabulary of the statements *)

(** A comment literal whose language tag is ["en"]. *)
Definition en_tagged (n : Node) : bool :=
  match n with
  | Literal _ language _ => language_is language (lit "en")
  | _ => false
  end.

(** U+00A0 NO-BREAK SPACE *)
Definition nbsp : char := 160%N.

(** The identifier as the specification words it: from the subject's text
    as it is, what follows the last ["#"] if there is one, then what follows
    the last ["/"] if there is one, and the file's stem if nothing is
    left. *)
Definition identifier_as_claimed (subject : Node) (ttl_file : Path) : str :=
  let text := node_str subject in
  let text := if contains hash text then rsplit_last hash text else text in
  let text := if contains slash text then rsplit_last slash text else text in
  match text with
  | [] => stem ttl_file
  | _ :: _ => text
  end.

(** ** Sorted lists *)

(** [a] may stand before [b] in a list sorted on [key]: [b]'s key is not
    below [a]'s. *)
Definition key_le {A K} (key : A -> result K) (ltb : K -> K -> bool)
    (a b : A) : Prop :=
  exists ka kb, key a = Ok ka /\ key b = Ok kb /\ ltb kb ka = false.

(** The element's key is [k]. *)
Definition has_key {A K} (key : A -> result K) (eqb : K -> K -> bool)
    (k : K) (x : A) : bool :=
  match key x with
  | Ok k' => eqb k' k
  | Raise _ => false
  end.

(** The shape of the keys [natural_sort_key] returns: tier 0 with an
    integer, or tier 1 with a string. *)
Definition key_wf (k : Z * PyVal) : Prop :=
  match k with
  | (0%Z, VInt _) => True
  | (1%Z, VStr _) => True
  | _ => False
  end.

(** [<] on such keys, as a total function. *)
Definition key_ltb (a b : Z * PyVal) : bool :=
  match snd a, snd b with
  | VInt x, VInt y => Z.ltb x y
  | VInt _, VStr _ => true
  | VStr _, VInt _ => false
  | VStr x, VStr y => str_ltb x y
  end.

Definition key_eq_dec : forall a b : Z * PyVal, {a = b} + {a <> b}.
Proof.
  decide equality; [decide equality | apply Z.eq_dec];
    [apply Z.eq_dec | apply str_eq_dec].
Defined.

Definition key_eqb (a b : Z * PyVal) : bool :=
  if key_eq_dec a b then true else false.

Section RowOrder.
Context {U : UnicodeData}.

(** The key the global sort computes for a row. *)
Definition row_key (row : ExampleRow) : result (Z * PyVal) :=
  natural_sort_key (identifier row).

(** [a] may stand before [b] after the global sort: [key(b) < key(a)]
    is [False]. *)
Definition row_le (a b : ExampleRow) : Prop :=
  exists ka kb,
    row_key a = Ok ka /\ row_key b = Ok kb /\ tuple_lt kb ka = Ok false.

(** The row's identifier is all digits. *)
Definition numeric (row : ExampleRow) : bool := isdigit (identifier row).

(** The entry is one that [main] reads: the test of [find_ttl_files]. *)
Definition is_ttl_file (fs : FileSystem) (path : Path) : bool :=
  is_file fs path && str_eqb (lower (suffix path)) (lit ".ttl").

(** The name ends in [".ttl"], whatever the case of the letters. *)
Definition ends_in_ttl (name : str) : Prop :=
  exists base ext, name = base ++ ext /\ lower ext = lit ".ttl".
End RowOrder.

(** ** Runs *)

(** The same arguments, with [--prefix-id-in-title] given or not. *)
Definition with_prefix (flag : bool) (args : Args) : Args :=
  {| examples_dir := examples_dir args; output := output args;
     arg_backend_id := arg_backend_id args; prefix_id_in_title := flag |}.

(** The stream [main] writes to. *)
Definition destination (args : Args) : Stream :=
  match output args with
  | Some path => FileStream path
  | None => Stdout
  end.

(** What [main] does to the output file before and after writing. *)
Definition opening (args : Args) : list Event :=
  match output args with
  | Some path => [Open path (lit "w") (lit "") (lit "utf-8")]
  | None => []
  end.

Definition closing (args : Args) : list Event :=
  match output args with
  | Some path => [Close path]
  | None => []
  end.

(** ** Reading back a CSV record

    A reader for one record in which every field is quoted, fields are
    separated by commas and the record ends with a line feed: the format
    [writerow] is to produce. *)

Inductive ReadState :=
| FieldStart    (** a field must open with a quote *)
| InField       (** inside the quotes *)
| AfterQuote.   (** after a quote inside a field: doubled, or the end *)

Fixpoint read_record (st : ReadState) (cur : str) (fields : list str)
    (text : str) : option (list str) :=
  match text with
  | [] => None
  | c :: rest =>
      match st with
      | FieldStart =>
          if N.eqb c dquote then read_record InField [] fields rest
          else None
      | InField =>
          if N.eqb c dquote then read_record AfterQuote cur fields rest
          else read_record InField (c :: cur) fields rest
      | AfterQuote =>
          if N.eqb c dquote then
            read_record InField (dquote :: cur) fields rest
          else if N.eqb c comma then
            read_record FieldStart [] (rev cur :: fields) rest
          else if N.eqb c newline then
            match rest with
            | [] => Some (rev (rev cur :: fields))
            | _ :: _ => None
            end
          else None
      end
  end.


(** ** Numerals *)

(** The number a decimal numeral denotes, after [acc]. *)
Fixpoint uint_value (acc : Z) (d : Decimal.uint) : Z :=
  match d with
  | Decimal.Nil => acc
  | Decimal.D0 d => uint_value (10 * acc + 0) d
  | Decimal.D1 d => uint_value (10 * acc + 1) d
  | Decimal.D2 d => uint_value (10 * acc + 2) d
  | Decimal.D3 d => uint_value (10 * acc + 3) d
  | Decimal.D4 d => uint_value (10 * acc + 4) d
  | Decimal.D5 d => uint_value (10 * acc + 5) d
  | Decimal.D6 d => uint_value (10 * acc + 6) d
  | Decimal.D7 d => uint_value (10 * acc + 7) d
  | Decimal.D8 d => uint_value (10 * acc + 8) d
  | Decimal.D9 d => uint_value (10 * acc + 9) d
  end.

(** * Sample inputs *)

Definition sample_dir : Path :=
  {| path_str := lit "examples"; path_name := lit "examples" |}.

Definition q7_file : Path :=
  {| path_str := lit "examples/007.ttl"; path_name := lit "007.ttl" |}.

Definition readme_file : Path :=
  {| path_str := lit "examples/README.md"; path_name := lit "README.md" |}.

Definition sample_output : Path :=
  {| path_str := lit "out/examples.csv"; path_name := lit "examples.csv" |}.

Definition sample_args (prefix : bool) : Args :=
  {| examples_dir := sample_dir; output := Some sample_output;
     arg_backend_id := 69; prefix_id_in_title := prefix |}.

Definition sample_subject : Node := URIRef (lit "http://ex.org/q#7").

Definition sample_graph : Graph :=
  [ (sample_subject, RDF_type, SH_SPARQLExecutable);
    (sample_subject, RDFS_comment,
     Literal (lit "List of taxa") (Some (lit "en")) None);
    (sample_subject, SH_select,
     Literal (lit "SELECT ?taxon WHERE { ?taxon a <http://ex.org/Taxon> }")
       None None) ].

(** The row [main] makes of [sample_graph] in [007.ttl]. *)
Definition sample7 : ExampleRow :=
  {| identifier := lit "7"; backend_id := 69;
     name := lit "List of taxa";
     query := lit "SELECT ?taxon WHERE { ?taxon a <http://ex.org/Taxon> }" |}.

(** The same subject, without any query. *)
Definition queryless_graph : Graph :=
  [ (sample_subject, RDF_type, SH_SPARQLExecutable);
    (sample_subject, RDFS_comment,
     Literal (lit "List of taxa") (Some (lit "en")) None) ].

(** The same subject, its only comment and only query empty literals. *)
Definition blank_graph : Graph :=
  [ (sample_subject, RDF_type, SH_SPARQLExecutable);
    (sample_subject, RDFS_comment, Literal (lit "") (Some (lit "en")) None);
    (sample_subject, SH_select, Literal (lit "") None None) ].

(** U+00B2 SUPERSCRIPT TWO, as a one-character string. *)
Definition superscript_two : str := [178%N].

(** An executable subject whose IRI ends in ["#"] and a superscript two. *)
Definition superscript_graph : Graph :=
  [ (URIRef (lit "http://ex.org/q#" ++ superscript_two), RDF_type,
     SH_SPARQLExecutable);
    (URIRef (lit "http://ex.org/q#" ++ superscript_two), SH_select,
     Literal (lit "SELECT * WHERE { ?s ?p ?o }") None None) ].

(** The row [main] makes of [superscript_graph] in [007.ttl]. *)
Definition superscript_row : ExampleRow :=
  {| identifier := superscript_two; backend_id := 69;
     name := lit "007"; query := lit "SELECT * WHERE { ?s ?p ?o }" |}.

(** A directory [examples] holding [README.md] and [007.ttl], the latter
    with the given graph in it. *)
Definition sample_fs (graph : Graph) : FileSystem :=
  {| is_dir := fun p => str_eqb (path_str p) (lit "examples");
     iterdir := fun _ => [readme_file; q7_file];
     is_file := fun _ => true;
     parse := fun _ => Ok graph |}.

(** A directory [examples] holding [README.md] only. *)
Definition no_ttl_fs : FileSystem :=
  {| is_dir := fun p => str_eqb (path_str p) (lit "examples");
     iterdir := fun _ => [readme_file];
     is_file := fun _ => true;
     parse := fun _ => Raise (LoaderError (lit "not a Turtle file")) |}.

Definition sample_row (id : string) : ExampleRow :=
  {| identifier := lit id; backend_id := 69;
     name := lit "Sample"; query := lit "SELECT * WHERE { ?s ?p ?o }" |}.

(** * Vocabulary of the further properties *)

(** One pass of [extract_identifier]'s loop. *)
Definition keep_after (separator : char) (text : str) : str :=
  if contains separator text then rsplit_last separator text else text.

(** The directory of [sample_fs], listed in another order and with a
    [README.md] that is not Turtle. *)
Definition relisted_fs (graph : Graph) : FileSystem :=
  {| is_dir := fun p => str_eqb (path_str p) (lit "examples");
     iterdir := fun _ => [q7_file; readme_file];
     is_file := fun _ => true;
     parse := fun p =>
       if str_eqb (path_name p) (lit "007.ttl") then Ok graph
       else Raise (LoaderError (lit "not a Turtle file")) |}.


Section Converts.
Context {U : UnicodeData}.

End Converts.

(** ** Reading back a CSV file

    The reader of [read_record], for a whole file: a line feed after a
    closing quote ends a record, and the text must end there. *)

Fixpoint read_records (st : ReadState) (cur : str) (fields : list str)
    (records : list (list str)) (text : str) : option (list (list str)) :=
  match text with
  | [] =>
      match st, fields with
      | FieldStart, [] => Some (rev records)
      | _, _ => None
      end
  | c :: rest =>
      match st with
      | FieldStart =>
          if N.eqb c dquote then read_records InField [] fields records rest
          else None
      | InField =>
          if N.eqb c dquote then
            read_records AfterQuote cur fields records rest
          else read_records InField (c :: cur) fields records rest
      | AfterQuote =>
          if N.eqb c dquote then
            read_records InField (dquote :: cur) fields records rest
          else if N.eqb c comma then
            read_records FieldStart [] (rev cur :: fields) records rest
          else if N.eqb c newline then
            read_records FieldStart [] []
              (rev (rev cur :: fields) :: records) rest
          else None
      end
  end.

Definition csv_read (text : str) : option (list (list str)) :=
  read_records FieldStart [] [] [] text.

(** The text a run has written, all [Write] events put end to end. *)
Definition written (events : list Event) : str :=
  flat_map (fun event => match event with
                         | Write _ text => text
                         | _ => []
                         end) events.

Section IdentifierOrder.
Context {U : UnicodeData}.

(** [natural_sort_key(a) < natural_sort_key(b)]: what the global sort
    computes to compare two identifiers. *)
Definition identifier_lt (a b : str) : result bool :=
  ka <- natural_sort_key a ;;
  kb <- natural_sort_key b ;;
  tuple_lt ka kb.
End IdentifierOrder.

(** ** Sample hosts *)


(** A host whose standard output is UTF-8 and whose operating system
    refuses nothing. *)
Definition utf8_host : Host :=
  {| stdout_encode := fun _ text => utf8_encode text;
     os_error := fun _ _ => None |}.



Section Accepted.
Context {host : Host}.

(** None of the operations [ops], made in order after [done], raises. *)
Definition accepted (done ops : list Event) : Prop :=
  forall pre op post,
    ops = pre ++ op :: post -> failure (done ++ pre) op = None.


(** The step raises [e] when it is taken after the operations [done]: the
    record could not be made, or the operation fails. *)
Definition stops (done : list Event) (step : result Event) (e : PyExc)
  : Prop :=
  match step with
  | Raise e' => e' = e
  | Ok op => failure done op = Some e
  end.
End Accepted.

(** The six fields of the record of a row: what [as_csv_row] returns when
    it returns. *)
Definition row_fields (row : ExampleRow) (include_identifier : bool)
  : list str :=
  [ if include_identifier then identifier row else lit "";
    str_of_int (backend_id row);
    name row;
    query row;
    lit "";
    lit "~" ].

(** The operations of a run that writes the header and the [records]. *)
Definition csv_operations (args : Args) (records : list (list str))
  : list Event :=
  opening args
  ++ Write (destination args) (writerow HEADER)
  :: List.map (fun fields => Write (destination args) (writerow fields))
       records
  ++ closing args.


(** The bytes of a text all of whose characters UTF-8 encodes. *)
Definition utf8_bytes (text : str) : bytes := flat_map utf8_char text.

(** A graph whose subject has a comment with an accented letter,
    ["Liste des esp" + U+00E8 + "ces"]. *)
Definition accent_graph : Graph :=
  [ (sample_subject, RDF_type, SH_SPARQLExecutable);
    (sample_subject, RDFS_comment,
     Literal (lit "Liste des esp" ++ [232%N] ++ lit "ces") None None);
    (sample_subject, SH_select,
     Literal (lit "SELECT * WHERE { ?s ?p ?o }") None None) ].

(** A graph whose subject has a comment that holds a lone surrogate,
    U+D800. *)
Definition surrogate_graph : Graph :=
  [ (sample_subject, RDF_type, SH_SPARQLExecutable);
    (sample_subject, RDFS_comment,
     Literal (lit "List of " ++ [55296%N]) None None);
    (sample_subject, SH_select,
     Literal (lit "SELECT * WHERE { ?s ?p ?o }") None None) ].


(** * Properties *)

(** ** Strings *)

Lemma str_eqb_eq (a b : str) : str_eqb a b = true <-> a = b.
Proof.
  unfold str_eqb. destruct (str_eq_dec a b); split; congruence.
Qed.

Lemma str_eqb_refl (a : str) : str_eqb a a = true.
Proof. now apply str_eqb_eq. Qed.

Lemma contains_In (sep : char) (text : str) :
  contains sep text = true <-> In sep text.
Proof.
  unfold contains. rewrite existsb_exists. split.
  - intros (x & Hx & E). apply N.eqb_eq in E. now subst.
  - intros H. exists sep. split; [assumption | apply N.eqb_refl].
Qed.

Lemma contains_app (sep : char) (a b : str) :
  contains sep (a ++ b) = contains sep a || contains sep b.
Proof. unfold contains. apply existsb_app. Qed.

(** [rsplit_last] keeps what follows the last separator. *)
Lemma rsplit_last_spec (sep : char) (text : str) :
  contains sep text = true ->
  exists pre,
    text = pre ++ sep :: rsplit_last sep text
    /\ contains sep (rsplit_last sep text) = false.
Proof.
  induction text as [| c rest IH]; simpl; [discriminate |].
  intros H. destruct (contains sep rest) eqn:E.
  - destruct (IH eq_refl) as (pre & Hpre & Hno).
    exists (c :: pre). split; [now rewrite Hpre at 1 | assumption].
  - rewrite orb_false_r in H. rewrite N.eqb_sym in H. rewrite H.
    apply N.eqb_eq in H. subst c. exists []. now split.
Qed.

Lemma rsplit_last_absent (sep : char) (text : str) :
  contains sep text = false -> rsplit_last sep text = text.
Proof.
  destruct text as [| c rest]; simpl; [reflexivity |].
  intros H. apply orb_false_elim in H. destruct H as [H1 H2].
  rewrite H2. rewrite N.eqb_sym in H1. now rewrite H1.
Qed.

Lemma lstrip_spec (text : str) :
  exists blank,
    text = blank ++ lstrip text
    /\ forallb cp_isspace blank = true
    /\ match lstrip text with
       | [] => True
       | c :: _ => cp_isspace c = false
       end.
Proof.
  induction text as [| c rest (blank & E & Hb & Hh)]; simpl.
  - exists []. now repeat split.
  - destruct (cp_isspace c) eqn:Hc.
    + exists (c :: blank). simpl. rewrite Hc, Hb. repeat split; try assumption.
      now rewrite E at 1.
    + exists []. now repeat split.
Qed.

Lemma lstrip_id (c : char) (rest : str) :
  cp_isspace c = false -> lstrip (c :: rest) = c :: rest.
Proof. intros H. simpl. now rewrite H. Qed.

(** [strip] removes a run of whitespace at each end and nothing else. *)
Lemma strip_spec (text : str) :
  exists before after,
    text = before ++ strip text ++ after
    /\ forallb cp_isspace before = true
    /\ forallb cp_isspace after = true.
Proof.
  unfold strip, rstrip.
  destruct (lstrip_spec text) as (before & E1 & Hb & _).
  destruct (lstrip_spec (rev (lstrip text))) as (after & E2 & Ha & _).
  exists before, (rev after). repeat split.
  - rewrite <- rev_app_distr, <- E2, rev_involutive. exact E1.
  - exact Hb.
  - rewrite forallb_forall in *. intros x Hx. apply Ha. now apply in_rev.
Qed.

(** A text with no whitespace at either end is left as it is. *)
Lemma strip_id (text : str) :
  (forall c rest, text = c :: rest -> cp_isspace c = false) ->
  (forall c pre, text = pre ++ [c] -> cp_isspace c = false) ->
  strip text = text.
Proof.
  intros Hfirst Hlast. unfold strip, rstrip.
  assert (E : lstrip text = text).
  { destruct text as [| c rest]; [reflexivity |].
    apply lstrip_id. now apply (Hfirst c rest). }
  rewrite E.
  destruct (rev text) as [| c rest] eqn:R.
  - simpl. apply (f_equal (@rev _)) in R. rewrite rev_involutive in R.
    now rewrite R.
  - rewrite lstrip_id.
    + rewrite <- R. apply rev_involutive.
    + apply (Hlast c (rev rest)).
      apply (f_equal (@rev _)) in R. rewrite rev_involutive in R.
      exact R.
Qed.

Lemma contains_strip (sep : char) (text : str) :
  contains sep text = false -> contains sep (strip text) = false.
Proof.
  destruct (strip_spec text) as (before & after & E & _ & _).
  intros H. rewrite E in H. rewrite !contains_app in H.
  apply orb_false_elim in H. destruct H as [_ H].
  now apply orb_false_elim in H.
Qed.

(** ** Paths *)

Lemma stem_nonempty (p : Path) : path_name p <> [] -> stem p <> [].
Proof.
  unfold stem. intros Hn.
  destruct ((0 <? rfind dot (path_name p))
            && (rfind dot (path_name p) <? len (path_name p) - 1))%Z eqn:E;
    [| assumption].
  apply andb_prop in E. destruct E as [E _]. apply Z.ltb_lt in E.
  destruct (path_name p) as [| c rest]; [congruence |].
  destruct (Z.to_nat (rfind dot (c :: rest))) as [| n] eqn:T; [lia |].
  simpl. discriminate.
Qed.

Lemma suffix_nonempty_name (p : Path) : suffix p <> [] -> path_name p <> [].
Proof.
  unfold suffix. intros H E. rewrite E in H. simpl in H. now apply H.
Qed.

(** ** Identifier extraction *)

(** C2, as stated, fails: the subject's text is stripped of the whitespace
    at its ends before anything else.  The IRI ["http://ex.org/q#7"]
    followed by a no-break space (U+00A0, a character IRIs may contain)
    gives ["7"], not what follows its last ["#"]; and a text without ["#"]
    and ["/"] that ends with a blank is not returned unchanged. *)
Lemma extract_identifier_strips_text :
  extract_identifier (URIRef (lit "http://ex.org/q#7" ++ [nbsp])) q7_file
  = lit "7"
  /\ identifier_as_claimed (URIRef (lit "http://ex.org/q#7" ++ [nbsp])) q7_file
     = lit "7" ++ [nbsp]
  /\ extract_identifier (URIRef (lit "http://ex.org/q#7" ++ [nbsp])) q7_file
     <> identifier_as_claimed
          (URIRef (lit "http://ex.org/q#7" ++ [nbsp])) q7_file
  /\ contains hash (lit "urn:q7 ") = false
  /\ contains slash (lit "urn:q7 ") = false
  /\ extract_identifier (URIRef (lit "urn:q7 ")) q7_file = lit "urn:q7"
  /\ extract_identifier (URIRef (lit "urn:q7 ")) q7_file <> lit "urn:q7 ".
Proof.
  repeat split; try reflexivity; vm_compute; discriminate.
Qed.

(** C2 (amended): the identifier is computed from the subject's text with
    the whitespace at both ends removed; one pass keeps what follows the
    last ["#"], if there is one, then one pass keeps what follows the last
    ["/"], if there is one; an empty result is replaced by the file's stem.
    ["http://ex.org/q#7"] gives ["7"], ["http://ex.org/a/b"] gives ["b"],
    and a text with neither separator gives its stripped text, which is the
    text itself when it has no whitespace at its ends and is not empty. *)
Theorem extract_identifier_spec (subject : Node) (ttl_file : Path) :
  (exists after_hash after_slash,
      (if contains hash (strip (node_str subject))
       then exists pre,
           strip (node_str subject) = pre ++ hash :: after_hash
           /\ contains hash after_hash = false
       else after_hash = strip (node_str subject))
      /\ (if contains slash after_hash
          then exists pre,
              after_hash = pre ++ slash :: after_slash
              /\ contains slash after_slash = false
          else after_slash = after_hash)
      /\ extract_identifier subject ttl_file
         = match after_slash with
           | [] => stem ttl_file
           | _ :: _ => after_slash
           end)
  /\ extract_identifier (URIRef (lit "http://ex.org/q#7")) ttl_file = lit "7"
  /\ extract_identifier (URIRef (lit "http://ex.org/a/b")) ttl_file = lit "b"
  /\ (contains hash (node_str subject) = false ->
      contains slash (node_str subject) = false ->
      strip (node_str subject) <> [] ->
      extract_identifier subject ttl_file = strip (node_str subject))
  /\ (contains hash (node_str subject) = false ->
      contains slash (node_str subject) = false ->
      (forall c rest, node_str subject = c :: rest -> cp_isspace c = false) ->
      (forall c pre, node_str subject = pre ++ [c] -> cp_isspace c = false) ->
      node_str subject <> [] ->
      extract_identifier subject ttl_file = node_str subject).
Proof.
  assert (Hplain : contains hash (node_str subject) = false ->
                   contains slash (node_str subject) = false ->
                   strip (node_str subject) <> [] ->
                   extract_identifier subject ttl_file
                   = strip (node_str subject)).
  { intros Hh Hs Hne. unfold extract_identifier. simpl.
    rewrite (contains_strip _ _ Hh), (contains_strip _ _ Hs).
    destruct (strip (node_str subject)); congruence. }
  split; [| split; [reflexivity | split; [reflexivity | split]]].
  - unfold extract_identifier. simpl.
    set (text := strip (node_str subject)).
    set (after_hash :=
           if contains hash text then rsplit_last hash text else text).
    exists after_hash,
      (if contains slash after_hash then rsplit_last slash after_hash
       else after_hash).
    repeat split.
    + subst after_hash. destruct (contains hash text) eqn:E;
        [now apply rsplit_last_spec | reflexivity].
    + destruct (contains slash after_hash) eqn:E;
        [now apply rsplit_last_spec | reflexivity].
  - exact Hplain.
  - intros Hh Hs Hfirst Hlast Hne.
    rewrite Hplain; try assumption.
    + now apply strip_id.
    + now rewrite (strip_id _ Hfirst Hlast).
Qed.

Lemma extract_identifier_spec_witness :
  contains hash (node_str (BNode (lit "b12"))) = false
  /\ contains slash (node_str (BNode (lit "b12"))) = false
  /\ strip (node_str (BNode (lit "b12"))) <> []
  /\ extract_identifier (BNode (lit "b12")) q7_file = lit "b12".
Proof.
  split; [reflexivity | split; [reflexivity | split]].
  - vm_compute. discriminate.
  - destruct (extract_identifier_spec (BNode (lit "b12")) q7_file)
      as (_ & _ & _ & H & _).
    apply H; vm_compute; [reflexivity | reflexivity | discriminate].
Defined.

(** ** Name resolution *)

Lemma pick_comment_from_en (fallback : option str) (comments : list Node)
    (ttl_file : Path) (l : Node) :
  find en_tagged comments = Some l ->
  pick_comment_from fallback comments ttl_file = node_str l.
Proof.
  revert fallback.
  induction comments as [| c rest IH]; intros fallback; simpl;
    [discriminate |].
  destruct c as [iri | label | lexical language datatype]; simpl;
    try apply IH.
  destruct (language_is language (lit "en")).
  - now intros [= <-].
  - apply IH.
Qed.

Lemma pick_comment_from_no_en (fallback : option str) (comments : list Node)
    (ttl_file : Path) :
  find en_tagged comments = None ->
  pick_comment_from fallback comments ttl_file
  = match
      match fallback with
      | Some text => Some text
      | None => option_map node_str (find is_Literal comments)
      end
    with
    | Some ((_ :: _) as text) => text
    | _ => stem ttl_file
    end.
Proof.
  revert fallback.
  induction comments as [| c rest IH]; intros fallback; simpl.
  - intros _. now destruct fallback as [[|] |].
  - destruct c as [iri | label | lexical language datatype]; simpl;
      try apply IH.
    destruct (language_is language (lit "en")); [discriminate |].
    intros H. rewrite (IH _ H). now destruct fallback.
Qed.

(** What [pick_comment] returns, by the comments it is given. *)
Lemma pick_comment_find (comments : list Node) (ttl_file : Path) :
  pick_comment comments ttl_file
  = match find en_tagged comments with
    | Some l => node_str l
    | None =>
        match find is_Literal comments with
        | Some l =>
            match node_str l with
            | [] => stem ttl_file
            | _ :: _ => node_str l
            end
        | None => stem ttl_file
        end
    end.
Proof.
  unfold pick_comment. destruct (find en_tagged comments) as [l |] eqn:E.
  - now apply pick_comment_from_en.
  - rewrite (pick_comment_from_no_en _ _ _ E).
    destruct (find is_Literal comments) as [l |]; simpl; [| reflexivity].
    now destruct (node_str l).
Qed.

(** C4, as stated, fails: when no comment is tagged ["en"] and the first
    comment literal has an empty text, the name is the file's stem and not
    that literal's text. *)
Lemma pick_comment_first_literal_empty :
  find en_tagged
    [Literal (lit "") (Some (lit "fr")) None;
     Literal (lit "Liste des taxons") (Some (lit "fr")) None] = None
  /\ find is_Literal
       [Literal (lit "") (Some (lit "fr")) None;
        Literal (lit "Liste des taxons") (Some (lit "fr")) None]
     = Some (Literal (lit "") (Some (lit "fr")) None)
  /\ pick_comment
       [Literal (lit "") (Some (lit "fr")) None;
        Literal (lit "Liste des taxons") (Some (lit "fr")) None] q7_file
     = lit "007"
  /\ pick_comment
       [Literal (lit "") (Some (lit "fr")) None;
        Literal (lit "Liste des taxons") (Some (lit "fr")) None] q7_file
     <> node_str (Literal (lit "") (Some (lit "fr")) None).
Proof. repeat split. vm_compute. discriminate. Qed.

(** C4 (amended): the name is the text of the first comment literal tagged
    ["en"] if there is one (whatever other comments there are); otherwise
    the text of the first comment literal in iteration order when that text
    is not empty; and the file's stem when there is no comment literal or
    the first one has an empty text. *)
Theorem pick_comment_spec (comments : list Node) (ttl_file : Path) :
  pick_comment comments ttl_file
  = match find en_tagged comments with
    | Some l => node_str l
    | None =>
        match find is_Literal comments with
        | Some l =>
            match node_str l with
            | [] => stem ttl_file
            | _ :: _ => node_str l
            end
        | None => stem ttl_file
        end
    end
  /\ (forall before lexical datatype after,
         comments
         = before ++ Literal lexical (Some (lit "en")) datatype :: after ->
         Forall (fun c => en_tagged c = false) before ->
         pick_comment comments ttl_file = lexical)
  /\ (forall l, In l comments -> en_tagged l = true ->
      exists l', In l' comments /\ en_tagged l' = true
                 /\ pick_comment comments ttl_file = node_str l').
Proof.
  split; [apply pick_comment_find | split].
  - intros before lexical datatype after -> Hb.
    rewrite pick_comment_find.
    replace (find en_tagged
               (before ++ Literal lexical (Some (lit "en")) datatype :: after))
      with (Some (Literal lexical (Some (lit "en")) datatype));
      [reflexivity |].
    induction Hb as [| c before Hc Hb IH]; simpl; [reflexivity |].
    now rewrite Hc.
  - intros l Hin Hen. rewrite pick_comment_find.
    destruct (find en_tagged comments) as [l' |] eqn:E.
    + apply find_some in E. exists l'. now repeat split.
    + exfalso. apply (find_none _ _ E) in Hin. congruence.
Qed.

Lemma pick_comment_spec_witness :
  pick_comment
    [URIRef (lit "http://ex.org/doc");
     Literal (lit "Taxa") (Some (lit "de")) None;
     Literal (lit "List of taxa") (Some (lit "en")) None;
     Literal (lit "Taxons") (Some (lit "fr")) None] q7_file
  = lit "List of taxa".
Proof.
  destruct (pick_comment_spec
              [URIRef (lit "http://ex.org/doc");
               Literal (lit "Taxa") (Some (lit "de")) None;
               Literal (lit "List of taxa") (Some (lit "en")) None;
               Literal (lit "Taxons") (Some (lit "fr")) None] q7_file)
    as (_ & H & _).
  apply (H [URIRef (lit "http://ex.org/doc");
            Literal (lit "Taxa") (Some (lit "de")) None]
           (lit "List of taxa") None
           [Literal (lit "Taxons") (Some (lit "fr")) None]).
  - reflexivity.
  - repeat constructor.
Defined.

(** C10: when every comment of a subject is a non-literal node or a literal
    with an empty text and no ["en"] tag, the name is the file's stem (which
    is not empty when the file has a name); a comment tagged ["en"] with an
    empty text, met before any other ["en"] comment, is returned at once,
    so that the name is empty. *)
Theorem pick_comment_empty_text (comments : list Node) (ttl_file : Path) :
  (Forall (fun c => is_Literal c = false
                    \/ (node_str c = [] /\ en_tagged c = false)) comments ->
   pick_comment comments ttl_file = stem ttl_file
   /\ (path_name ttl_file <> [] -> pick_comment comments ttl_file <> []))
  /\ (forall before datatype after,
         comments = before ++ Literal [] (Some (lit "en")) datatype :: after ->
         Forall (fun c => en_tagged c = false) before ->
         pick_comment comments ttl_file = []).
Proof.
  split.
  - intros H.
    assert (E : pick_comment comments ttl_file = stem ttl_file).
    { rewrite pick_comment_find.
      destruct (find en_tagged comments) as [l |] eqn:Een.
      - apply find_some in Een. destruct Een as [Hin Hen].
        rewrite Forall_forall in H. destruct (H l Hin) as [Hl | [_ Hl]].
        + destruct l; simpl in *; congruence.
        + congruence.
      - destruct (find is_Literal comments) as [l |] eqn:El; [| reflexivity].
        apply find_some in El. destruct El as [Hin Hl].
        rewrite Forall_forall in H. destruct (H l Hin) as [Hn | [Hn _]].
        + congruence.
        + now rewrite Hn. }
    split; [exact E |]. intros Hn. rewrite E. now apply stem_nonempty.
  - intros before datatype after -> Hb. unfold pick_comment.
    generalize (@None str).
    induction Hb as [| c before Hc Hb IH]; intros fallback; simpl.
    + reflexivity.
    + destruct c as [iri | label | lexical language datatype']; simpl in *;
        try apply IH.
      rewrite Hc. apply IH.
Qed.

Lemma pick_comment_empty_text_witness :
  pick_comment
    [URIRef (lit "http://ex.org/doc"); Literal [] (Some (lit "fr")) None;
     Literal [] None None] q7_file = lit "007"
  /\ pick_comment
       [Literal (lit "Taxa") (Some (lit "de")) None;
        Literal [] (Some (lit "en")) None;
        Literal (lit "List of taxa") (Some (lit "en")) None] q7_file = [].
Proof.
  split.
  - destruct (pick_comment_empty_text
                [URIRef (lit "http://ex.org/doc");
                 Literal [] (Some (lit "fr")) None; Literal [] None None]
                q7_file) as [H _].
    apply H. repeat constructor; right; split; reflexivity.
  - destruct (pick_comment_empty_text
                [Literal (lit "Taxa") (Some (lit "de")) None;
                 Literal [] (Some (lit "en")) None;
                 Literal (lit "List of taxa") (Some (lit "en")) None]
                q7_file) as [_ H].
    apply (H [Literal (lit "Taxa") (Some (lit "de")) None] None
             [Literal (lit "List of taxa") (Some (lit "en")) None]).
    + reflexivity.
    + repeat constructor.
Defined.

(** ** Fallible computations *)

Lemma mapM_ok {A B} (f : A -> result B) (l : list A) :
  (forall x, In x l -> exists y, f x = Ok y) ->
  exists ys, mapM f l = Ok ys.
Proof.
  induction l as [| x rest IH]; simpl; intros H.
  - now exists [].
  - destruct (H x (or_introl eq_refl)) as [y ->].
    destruct IH as [ys ->]; [intros z Hz; apply H; now right |].
    simpl. now exists (y :: ys).
Qed.

Lemma mapM_Forall2 {A B} (f : A -> result B) (l : list A) (ys : list B) :
  mapM f l = Ok ys -> Forall2 (fun x y => f x = Ok y) l ys.
Proof.
  revert ys. induction l as [| x rest IH]; simpl; intros ys.
  - intros [= <-]. constructor.
  - destruct (f x) as [y |] eqn:E; simpl; [| discriminate].
    destruct (mapM f rest) as [ys' |]; simpl; [| discriminate].
    intros [= <-]. constructor; [assumption | now apply IH].
Qed.

Lemma mapM_raise {A B} (f : A -> result B) (l : list A) (x : A) (e : PyExc) :
  In x l -> f x = Raise e -> exists e', mapM f l = Raise e'.
Proof.
  induction l as [| y rest IH]; simpl; [contradiction |].
  intros [-> | Hin] Hx.
  - rewrite Hx. simpl. now exists e.
  - destruct (f y); simpl; [| eauto].
    destruct (IH Hin Hx) as [e' ->]. simpl. eauto.
Qed.

(** ** The sort *)

Section SortFacts.
Variables (A K : Type).
Variable key : A -> result K.
Variable lt : K -> K -> result bool.

(** The keys the key function produces, and [<] on them. *)
Variable good : K -> Prop.
Variable ltb : K -> K -> bool.
Hypothesis key_good : forall x k, key x = Ok k -> good k.
Hypothesis lt_ltb : forall a b, good a -> good b -> lt a b = Ok (ltb a b).

Let le (a b : K * A) : Prop := ltb (fst b) (fst a) = false.

Lemma decorate_spec (l : list A) (d : list (K * A)) :
  decorate key l = Ok d ->
  List.map snd d = l /\ Forall (fun kx => key (snd kx) = Ok (fst kx)) d.
Proof.
  unfold decorate. intros H. apply mapM_Forall2 in H.
  induction H as [| x kx l d Hx _ [IH1 IH2]]; simpl.
  - split; constructor.
  - destruct (key x) as [k |] eqn:E; simpl in Hx; [| discriminate].
    injection Hx as <-. simpl. split; [now rewrite IH1 |].
    constructor; [exact E | exact IH2].
Qed.

Lemma decorate_ok (l : list A) :
  (forall x, In x l -> exists k, key x = Ok k) ->
  exists d, decorate key l = Ok d.
Proof.
  intros H. apply mapM_ok. intros x Hx.
  destruct (H x Hx) as [k ->]. simpl. eauto.
Qed.

Lemma decorate_raise (l : list A) (x : A) (e : PyExc) :
  In x l -> key x = Raise e -> exists e', decorate key l = Raise e'.
Proof.
  intros Hin Hx. apply (mapM_raise _ l x e Hin). now rewrite Hx.
Qed.

Lemma insert_ok (x : K * A) (s : list (K * A)) :
  good (fst x) -> Forall (fun y => good (fst y)) s ->
  exists r, insert lt x s = Ok r /\ Permutation (x :: s) r.
Proof.
  intros Hx Hs. induction Hs as [| y s Hy Hs (r & E & P)]; simpl.
  - exists [x]. split; [reflexivity | apply Permutation_refl].
  - rewrite (lt_ltb _ _ Hy Hx). simpl. destruct (ltb (fst y) (fst x)).
    + rewrite E. simpl. exists (y :: r). split; [reflexivity |].
      apply Permutation_trans with (y :: x :: s);
        [apply perm_swap | now apply perm_skip].
    + exists (x :: y :: s). split; [reflexivity | apply Permutation_refl].
Qed.

Lemma isort_ok (l : list (K * A)) :
  Forall (fun y => good (fst y)) l ->
  exists s, isort lt l = Ok s /\ Permutation l s.
Proof.
  intros H. induction H as [| x l Hx Hl (s & E & P)]; simpl.
  - exists []. split; [reflexivity | apply perm_nil].
  - rewrite E. simpl.
    destruct (insert_ok x s Hx) as (r & Er & Pr).
    + rewrite Forall_forall in *. intros y Hy. apply Hl.
      apply Permutation_sym in P. now apply (Permutation_in _ P).
    + exists r. split; [assumption |].
      apply Permutation_trans with (x :: s);
        [now apply perm_skip | assumption].
Qed.

(** The sort returns, with the same elements, as soon as every key is
    computed. *)
Lemma list_sort_ok (l : list A) :
  (forall x, In x l -> exists k, key x = Ok k) ->
  exists s, list_sort key lt l = Ok s /\ Permutation l s.
Proof.
  intros H. unfold list_sort.
  destruct (decorate_ok l H) as [d Ed]. rewrite Ed. simpl.
  destruct (decorate_spec _ _ Ed) as [Hl Hk].
  destruct (isort_ok d) as (s & Es & Ps).
  - rewrite Forall_forall in *. intros y Hy.
    apply (key_good (snd y)). now apply Hk.
  - rewrite Es. simpl. exists (List.map snd s). split; [reflexivity |].
    rewrite <- Hl. now apply Permutation_map.
Qed.

(** A key that cannot be computed makes the sort raise. *)
Lemma list_sort_raise (l : list A) (x : A) (e : PyExc) :
  In x l -> key x = Raise e -> exists e', list_sort key lt l = Raise e'.
Proof.
  intros Hin Hx. unfold list_sort.
  destruct (decorate_raise l x e Hin Hx) as [e' ->]. simpl. eauto.
Qed.

(** *** Order *)

Hypothesis ltb_asym :
  forall a b, good a -> good b -> ltb a b = true -> ltb b a = false.
Hypothesis le_trans :
  forall a b c, good a -> good b -> good c ->
    ltb b a = false -> ltb c b = false -> ltb c a = false.

Lemma insert_sorted (x : K * A) (s r : list (K * A)) :
  good (fst x) -> Forall (fun y => good (fst y)) s ->
  StronglySorted le s -> insert lt x s = Ok r -> StronglySorted le r.
Proof.
  intros Hx Hs Hsorted. revert r.
  induction Hsorted as [| y s Hsorted IH Hy]; simpl; intros r.
  - intros [= <-]. repeat constructor.
  - inversion Hs as [| ? ? Gy Gs]; subst.
    rewrite (lt_ltb _ _ Gy Hx). simpl.
    destruct (ltb (fst y) (fst x)) eqn:E.
    + destruct (insert lt x s) as [r' |] eqn:Er; simpl; [| discriminate].
      intros [= <-]. constructor; [now apply IH |].
      destruct (insert_ok x s Hx Gs) as (r'' & Er' & P).
      rewrite Er in Er'. injection Er' as <-.
      rewrite Forall_forall in *. intros z Hz.
      apply Permutation_sym in P.
      destruct (Permutation_in _ P Hz) as [<- | Hz'].
      * unfold le. apply ltb_asym; auto.
      * now apply Hy.
    + intros [= <-]. constructor; [now constructor |].
      constructor; [exact E |].
      rewrite Forall_forall in *. intros z Hz. unfold le in *.
      apply (le_trans (fst x) (fst y) (fst z)); auto.
Qed.

Lemma isort_sorted (l s : list (K * A)) :
  Forall (fun y => good (fst y)) l ->
  isort lt l = Ok s -> StronglySorted le s.
Proof.
  intros H. revert s. induction H as [| x l Hx Hl IH]; simpl; intros s.
  - intros [= <-]. constructor.
  - destruct (isort_ok _ Hl) as (s' & Es & Ps). rewrite Es. simpl.
    apply insert_sorted; [assumption | | now apply IH].
    rewrite Forall_forall in *. intros y Hy. apply Hl.
    apply Permutation_sym in Ps. now apply (Permutation_in _ Ps).
Qed.

(** *** Stability *)

Lemma insert_stable (p : K * A -> bool) (x : K * A) (s r : list (K * A)) :
  (forall a b, good (fst a) -> good (fst b) ->
               p a = true -> p b = true -> ltb (fst b) (fst a) = false) ->
  good (fst x) -> Forall (fun y => good (fst y)) s ->
  insert lt x s = Ok r -> filter p r = filter p (x :: s).
Proof.
  intros Hp Hx Hs. revert r.
  induction Hs as [| y s Gy Gs IH]; simpl; intros r.
  - now intros [= <-].
  - rewrite (lt_ltb _ _ Gy Hx). simpl.
    destruct (ltb (fst y) (fst x)) eqn:E; [| now intros [= <-]].
    destruct (insert lt x s) as [r' |]; simpl; [| discriminate].
    intros [= <-]. simpl. rewrite (IH r' eq_refl). simpl.
    destruct (p x) eqn:Px; [| reflexivity].
    destruct (p y) eqn:Py; [| reflexivity].
    rewrite (Hp x y Hx Gy Px Py) in E. discriminate.
Qed.

Lemma isort_stable (p : K * A -> bool) (l s : list (K * A)) :
  (forall a b, good (fst a) -> good (fst b) ->
               p a = true -> p b = true -> ltb (fst b) (fst a) = false) ->
  Forall (fun y => good (fst y)) l ->
  isort lt l = Ok s -> filter p s = filter p l.
Proof.
  intros Hp H. revert s. induction H as [| x l Hx Hl IH]; simpl; intros s.
  - now intros [= <-].
  - destruct (isort_ok _ Hl) as (s' & Es & Ps). rewrite Es. simpl.
    intros Hi. rewrite (insert_stable p x s' s Hp Hx).
    + simpl. now rewrite (IH s' Es).
    + rewrite Forall_forall in *. intros y Hy. apply Hl.
      apply Permutation_sym in Ps. now apply (Permutation_in _ Ps).
    + exact Hi.
Qed.

Variable eqb : K -> K -> bool.
Hypothesis eqb_eq : forall a b, eqb a b = true -> a = b.
Hypothesis ltb_irrefl : forall a, good a -> ltb a a = false.

(** What [list_sort] returns: the same elements, in the order of their
    keys, those of equal keys in their former order. *)
Lemma list_sort_spec (l : list A) :
  (forall x, In x l -> exists k, key x = Ok k) ->
  exists s,
    list_sort key lt l = Ok s
    /\ Permutation l s
    /\ StronglySorted (key_le key ltb) s
    /\ forall k, filter (has_key key eqb k) s = filter (has_key key eqb k) l.
Proof.
  intros H. destruct (list_sort_ok l H) as (s & Es & Ps).
  exists s. split; [exact Es | split; [exact Ps |]].
  unfold list_sort in Es.
  destruct (decorate key l) as [d |] eqn:Ed; simpl in Es; [| discriminate].
  destruct (decorate_spec _ _ Ed) as [Hl Hk].
  assert (Gd : Forall (fun y => good (fst y)) d).
  { rewrite Forall_forall in *. intros y Hy.
    apply (key_good (snd y)). now apply Hk. }
  destruct (isort lt d) as [sd |] eqn:Esd; simpl in Es; [| discriminate].
  injection Es as <-.
  destruct (isort_ok _ Gd) as (sd' & Esd' & Pd).
  rewrite Esd in Esd'. injection Esd' as <-.
  assert (Hks : Forall (fun kx => key (snd kx) = Ok (fst kx)) sd).
  { rewrite Forall_forall in *. intros y Hy. apply Hk.
    apply Permutation_sym in Pd. now apply (Permutation_in _ Pd). }
  split.
  - pose proof (isort_sorted _ _ Gd Esd) as Hsorted.
    clear - Hsorted Hks.
    induction Hsorted as [| y sd Hsorted IH Hy]; simpl; constructor.
    + apply IH. now inversion Hks.
    + inversion Hks as [| ? ? Ky Ksd]; subst.
      rewrite Forall_forall in *. intros b Hb.
      apply in_map_iff in Hb. destruct Hb as (z & <- & Hz).
      exists (fst y), (fst z). repeat split; auto. now apply Hy.
  - intros k. rewrite <- Hl.
    assert (Hmap : forall m, Forall (fun kx => key (snd kx) = Ok (fst kx)) m ->
              filter (has_key key eqb k) (List.map snd m)
              = List.map snd (filter (fun kx => eqb (fst kx) k) m)).
    { induction 1 as [| y m Ky Km IHm]; simpl; [reflexivity |].
      unfold has_key at 1. rewrite Ky.
      destruct (eqb (fst y) k); simpl; now rewrite IHm. }
    rewrite (Hmap sd Hks), (Hmap d Hk). f_equal.
    apply isort_stable; try assumption.
    intros a b Ga Gb Ha Hb. apply eqb_eq in Ha, Hb. rewrite Ha, Hb.
    apply ltb_irrefl. now rewrite <- Ha.
Qed.

(** *** The result does not depend on how the sort proceeds *)

Hypothesis eqb_refl : forall a, eqb a a = true.
Hypothesis ltb_antisym :
  forall a b, good a -> good b -> ltb a b = false -> ltb b a = false -> a = b.

Lemma has_key_own (x : A) (k : K) : key x = Ok k -> has_key key eqb k x = true.
Proof. intros H. unfold has_key. rewrite H. apply eqb_refl. Qed.

(** Two lists in key order with the same elements for each key, in the
    same order for each key, are the same list. *)
Lemma stable_sorted_unique (s1 s2 : list A) :
    Forall (fun x => exists k, key x = Ok k) s1 ->
    Forall (fun x => exists k, key x = Ok k) s2 ->
    StronglySorted (key_le key ltb) s1 ->
    StronglySorted (key_le key ltb) s2 ->
    (forall k, filter (has_key key eqb k) s1 = filter (has_key key eqb k) s2) ->
    s1 = s2.
Proof.
  intros K1. revert s2.
  induction K1 as [| x s1 [kx Hx] K1 IH]; intros s2 K2 S1 S2 F.
  - destruct K2 as [| y s2 [ky Hy] _]; [reflexivity |].
    specialize (F ky). cbn [filter] in F.
    rewrite (has_key_own y ky Hy) in F. discriminate.
  - pose proof (F kx) as Fx. cbn [filter] in Fx.
    rewrite (has_key_own x kx Hx) in Fx.
    destruct K2 as [| y s2 [ky Hy] K2].
    { discriminate. }
    inversion S1 as [| ? ? S1' L1]; subst.
    inversion S2 as [| ? ? S2' L2]; subst.
    assert (Hk : kx = ky).
    { apply ltb_antisym; try (eapply key_good; eassumption).
      - assert (Hin : In x (y :: s2)).
        { apply (filter_In (has_key key eqb kx) x (y :: s2)).
          rewrite <- Fx. now left. }
        destruct Hin as [<- | Hin].
        + assert (kx = ky) by congruence. subst. now apply ltb_irrefl,
            (key_good y).
        + rewrite Forall_forall in L2.
          destruct (L2 x Hin) as (ka & kb & Ea & Eb & Hle).
          congruence.
      - assert (Hin : In y (x :: s1)).
        { apply (filter_In (has_key key eqb ky) y (x :: s1)).
          rewrite (F ky). cbn [filter]. rewrite (has_key_own y ky Hy).
          now left. }
        destruct Hin as [<- | Hin].
        + assert (kx = ky) by congruence. subst. now apply ltb_irrefl,
            (key_good x).
        + rewrite Forall_forall in L1.
          destruct (L1 y Hin) as (ka & kb & Ea & Eb & Hle).
          congruence. }
    subst ky. cbn [filter] in Fx. rewrite (has_key_own y kx Hy) in Fx.
    injection Fx as <- Fx. f_equal. apply IH; try assumption.
    intros k. specialize (F k). cbn [filter] in F.
    destruct (has_key key eqb k x); [now injection F | exact F].
Qed.
End SortFacts.

(** ** The order of strings and of sort keys *)

Lemma str_ltb_irrefl (a : str) : str_ltb a a = false.
Proof.
  induction a as [| x a IH]; simpl; [reflexivity |].
  now rewrite N.ltb_irrefl, N.eqb_refl.
Qed.

Lemma str_ltb_asym (a b : str) : str_ltb a b = true -> str_ltb b a = false.
Proof.
  revert b. induction a as [| x a IH]; intros [| y b]; simpl; try easy.
  destruct (N.ltb_spec x y), (N.ltb_spec y x), (N.eqb_spec x y),
    (N.eqb_spec y x); try easy; try lia.
  apply IH.
Qed.

Lemma str_le_trans (a b c : str) :
  str_ltb b a = false -> str_ltb c b = false -> str_ltb c a = false.
Proof.
  revert b c.
  induction a as [| x a IH]; intros [| y b] [| z c]; simpl; try easy.
  destruct (N.ltb_spec y x), (N.ltb_spec z y), (N.ltb_spec z x),
    (N.eqb_spec y x), (N.eqb_spec z y), (N.eqb_spec z x);
    try easy; try lia.
  apply IH.
Qed.

Lemma tuple_lt_wf (a b : Z * PyVal) :
  key_wf a -> key_wf b -> tuple_lt a b = Ok (key_ltb a b).
Proof.
  destruct a as [[| [| |] |] [x | x]], b as [[| [| |] |] [y | y]];
    simpl; try easy; intros _ _; unfold tuple_lt, key_ltb; simpl.
  - destruct (Z.eqb_spec x y); [| reflexivity].
    subst. now rewrite Z.ltb_irrefl.
  - destruct (str_eqb x y) eqn:E; [| reflexivity].
    apply str_eqb_eq in E. subst. now rewrite str_ltb_irrefl.
Qed.

Lemma key_ltb_irrefl (a : Z * PyVal) : key_wf a -> key_ltb a a = false.
Proof.
  intros _. destruct a as [t [x | x]]; unfold key_ltb; simpl.
  - apply Z.ltb_irrefl.
  - apply str_ltb_irrefl.
Qed.

Lemma key_ltb_asym (a b : Z * PyVal) :
  key_wf a -> key_wf b -> key_ltb a b = true -> key_ltb b a = false.
Proof.
  intros _ _. destruct a as [t [x | x]], b as [t' [y | y]];
    unfold key_ltb; simpl; try easy.
  - intros H. apply Z.ltb_lt in H. apply Z.ltb_ge. lia.
  - apply str_ltb_asym.
Qed.

Lemma key_le_trans (a b c : Z * PyVal) :
  key_wf a -> key_wf b -> key_wf c ->
  key_ltb b a = false -> key_ltb c b = false -> key_ltb c a = false.
Proof.
  intros _ _ _.
  destruct a as [t [x | x]], b as [t' [y | y]], c as [t'' [z | z]];
    unfold key_ltb; simpl; try easy.
  - intros H1 H2. apply Z.ltb_ge in H1, H2. apply Z.ltb_ge. lia.
  - apply str_le_trans.
Qed.

Lemma key_eqb_eq (a b : Z * PyVal) : key_eqb a b = true -> a = b.
Proof. unfold key_eqb. now destruct (key_eq_dec a b). Qed.

Lemma key_eqb_refl (a : Z * PyVal) : key_eqb a a = true.
Proof. unfold key_eqb. now destruct (key_eq_dec a a). Qed.

Lemma str_ltb_antisym (a b : str) :
  str_ltb a b = false -> str_ltb b a = false -> a = b.
Proof.
  revert b. induction a as [| x a IH]; intros [| y b]; simpl; try easy.
  destruct (N.ltb_spec x y), (N.ltb_spec y x), (N.eqb_spec x y),
    (N.eqb_spec y x); try easy; try lia.
  intros H1 H2. subst. f_equal. now apply IH.
Qed.

Lemma key_ltb_antisym (a b : Z * PyVal) :
  key_wf a -> key_wf b ->
  key_ltb a b = false -> key_ltb b a = false -> a = b.
Proof.
  destruct a as [[| [| |] |] [x | x]], b as [[| [| |] |] [y | y]];
    simpl; try easy; intros _ _; unfold key_ltb; simpl; try easy.
  - intros H1 H2. apply Z.ltb_ge in H1, H2. do 2 f_equal. lia.
  - intros H1 H2. do 2 f_equal. now apply str_ltb_antisym.
Qed.

Section KeyFacts.
Context {U : UnicodeData}.

Lemma isdecimal_isdigit (value : str) :
  isdecimal value = true -> isdigit value = true.
Proof.
  unfold isdecimal, isdigit. destruct value as [| c rest]; [easy |].
  rewrite !forallb_forall. intros H x Hx. specialize (H x Hx).
  destruct (cp_decimal x) as [d |] eqn:E; [| discriminate].
  now apply (decimal_isdigit x d).
Qed.

Lemma decimal_value_some (value : str) (acc : Z) :
  forallb (fun c => match cp_decimal c with Some _ => true
                                        | None => false end) value = true ->
  exists n, decimal_value acc value = Some n.
Proof.
  revert acc. induction value as [| c rest IH]; simpl; intros acc H.
  - now exists acc.
  - apply andb_prop in H. destruct H as [Hc Hrest].
    destruct (cp_decimal c); [now apply IH | discriminate].
Qed.

Lemma natural_sort_key_wf (value : str) (k : Z * PyVal) :
  natural_sort_key value = Ok k -> key_wf k.
Proof.
  unfold natural_sort_key. destruct (isdigit value).
  - destruct (int_of_str value); simpl; [| discriminate].
    now intros [= <-].
  - now intros [= <-].
Qed.

Lemma leading_decimals_bounds (value : str) :
  (0 <= leading_decimals value <= len value)%Z.
Proof.
  unfold len. induction value as [| c rest IH]; cbn [leading_decimals];
    [simpl; lia |].
  cbn [List.length]. destruct (cp_decimal c); lia.
Qed.

Lemma leading_decimals_all (value : str) :
  forallb (fun c => match cp_decimal c with Some _ => true
                                        | None => false end) value = true ->
  leading_decimals value = len value.
Proof.
  unfold len. induction value as [| c rest IH];
    cbn [leading_decimals forallb List.length]; [reflexivity |].
  intros H. apply andb_prop in H. destruct H as [Hc Hrest].
  destruct (cp_decimal c); [| discriminate]. rewrite (IH Hrest). lia.
Qed.

Lemma decimal_value_all (value : str) (acc n : Z) :
  decimal_value acc value = Some n ->
  forallb (fun c => match cp_decimal c with Some _ => true
                                        | None => false end) value = true.
Proof.
  revert acc. induction value as [| c rest IH]; intros acc;
    cbn [decimal_value forallb]; [reflexivity |].
  destruct (cp_decimal c); [| discriminate]. cbn [andb]. apply IH.
Qed.

Lemma reads_as_int_inv (value : str) :
  reads_as_int value = true ->
  isdecimal value = true /\ (len value <= int_max_str_digits)%Z.
Proof.
  unfold reads_as_int. intros H. apply andb_prop in H.
  destruct H as [Hd Hl]. apply Z.leb_le in Hl. now split.
Qed.

(** A string of decimal digits, few enough for [int], gets tier 0 and the
    number it denotes. *)
Lemma natural_sort_key_decimal (value : str) :
  reads_as_int value = true ->
  exists n, decimal_value 0 value = Some n
            /\ natural_sort_key value = Ok (0%Z, VInt n).
Proof.
  intros H. apply reads_as_int_inv in H. destruct H as [H Hl].
  unfold natural_sort_key.
  rewrite (isdecimal_isdigit _ H). unfold int_of_str.
  unfold isdecimal in H. destruct value as [| c rest]; [discriminate |].
  rewrite (leading_decimals_all _ H).
  replace (int_max_str_digits <? len (c :: rest))%Z with false
    by (symmetry; apply Z.ltb_ge; exact Hl).
  destruct (decimal_value_some _ 0 H) as [n E]. rewrite E.
  now exists n.
Qed.

(** A string of more decimal digits than [int] converts gets no key. *)
Lemma natural_sort_key_long (value : str) :
  isdecimal value = true -> (int_max_str_digits < len value)%Z ->
  natural_sort_key value
  = Raise (IntDigitLimit int_max_str_digits (len value)).
Proof.
  intros H Hl. unfold natural_sort_key.
  rewrite (isdecimal_isdigit _ H). unfold int_of_str.
  unfold isdecimal in H. destruct value as [| c rest]; [discriminate |].
  rewrite (leading_decimals_all _ H).
  replace (int_max_str_digits <? len (c :: rest))%Z with true
    by (symmetry; apply Z.ltb_lt; exact Hl).
  reflexivity.
Qed.

(** A string that is not all digits gets tier 1 and itself. *)
Lemma natural_sort_key_text (value : str) :
  isdigit value = false -> natural_sort_key value = Ok (1%Z, VStr value).
Proof. intros H. unfold natural_sort_key. now rewrite H. Qed.

(** The key is computed for every string but those made of digits that
    [int] does not convert: digits that are not all decimal digits, or too
    many of them. *)
Lemma natural_sort_key_defined (value : str) :
  (exists k, natural_sort_key value = Ok k)
  <-> (isdigit value = true -> reads_as_int value = true).
Proof.
  split.
  - intros [k Hk] D. unfold natural_sort_key in Hk. rewrite D in Hk.
    unfold int_of_str in Hk. destruct value as [| c rest]; [discriminate |].
    destruct (int_max_str_digits <? leading_decimals (c :: rest))%Z eqn:L;
      [discriminate |].
    destruct (decimal_value 0 (c :: rest)) as [n |] eqn:V; [| discriminate].
    apply decimal_value_all in V. apply Z.ltb_ge in L.
    rewrite (leading_decimals_all _ V) in L.
    unfold reads_as_int, isdecimal. rewrite V. cbn [andb].
    now apply Z.leb_le.
  - intros H. destruct (isdigit value) eqn:D.
    + destruct (natural_sort_key_decimal value (H eq_refl)) as (n & _ & Hk).
      eauto.
    + rewrite (natural_sort_key_text value D). eauto.
Qed.

Lemma superscript_two_key_raises :
  natural_sort_key superscript_two
  = Raise (InvalidIntLiteral superscript_two).
Proof.
  unfold natural_sort_key, isdigit, int_of_str, superscript_two.
  cbn [forallb decimal_value leading_decimals].
  now rewrite superscript_two_isdigit, superscript_two_decimal.
Qed.

(** Keys that were computed can always be compared: [<] never meets an
    [int] and a [str]. *)
Lemma tuple_lt_never_raises (a b : str) (ka kb : Z * PyVal) :
  natural_sort_key a = Ok ka -> natural_sort_key b = Ok kb ->
  exists r, tuple_lt ka kb = Ok r.
Proof.
  intros Ha Hb. exists (key_ltb ka kb).
  apply tuple_lt_wf; eapply natural_sort_key_wf; eassumption.
Qed.
End KeyFacts.

(** ** ASCII strings: every Unicode table treats them alike *)

Section Ascii.
Context {U : UnicodeData}.

Lemma ascii_cp_decimal (c : char) :
  (c < 128)%N ->
  cp_decimal c
  = if ((48 <=? c) && (c <=? 57))%N then Some (Z.of_N c - 48)%Z else None.
Proof.
  intros Hc. destruct ((48 <=? c) && (c <=? 57))%N eqn:E.
  - apply andb_prop in E. destruct E as [E1 E2].
    apply N.leb_le in E1, E2. now apply ascii_decimal.
  - destruct (cp_decimal c) as [d |] eqn:D; [| reflexivity].
    apply decimal_isdigit in D. rewrite (ascii_isdigit c Hc) in D.
    congruence.
Qed.

Lemma ascii_isdigit_latin1 (value : str) :
  is_ascii value = true ->
  @isdigit U value = @isdigit latin1 value.
Proof.
  unfold isdigit. destruct value as [| c rest]; [reflexivity |].
  generalize (c :: rest). clear c rest.
  induction l as [| c rest IH]; simpl; [reflexivity |].
  intros H. apply andb_prop in H. destruct H as [Hc Hrest].
  apply N.ltb_lt in Hc. rewrite (IH Hrest). f_equal.
  change (latin1_isdigit c) with (@cp_isdigit latin1 c).
  now rewrite (@ascii_isdigit U c Hc), (@ascii_isdigit latin1 c Hc).
Qed.

Lemma ascii_decimal_value_latin1 (value : str) (acc : Z) :
  is_ascii value = true ->
  @decimal_value U acc value = @decimal_value latin1 acc value.
Proof.
  revert acc. induction value as [| c rest IH]; simpl; [reflexivity |].
  intros acc H. apply andb_prop in H. destruct H as [Hc Hrest].
  apply N.ltb_lt in Hc.
  rewrite (ascii_cp_decimal c Hc). unfold latin1_decimal.
  destruct ((48 <=? c) && (c <=? 57))%N; [now apply IH | reflexivity].
Qed.

Lemma ascii_leading_decimals_latin1 (value : str) :
  is_ascii value = true ->
  @leading_decimals U value = @leading_decimals latin1 value.
Proof.
  induction value as [| c rest IH]; simpl; [reflexivity |].
  intros H. apply andb_prop in H. destruct H as [Hc Hrest].
  apply N.ltb_lt in Hc.
  rewrite (ascii_cp_decimal c Hc). unfold latin1_decimal.
  destruct ((48 <=? c) && (c <=? 57))%N; [now rewrite IH | reflexivity].
Qed.

Lemma ascii_natural_sort_key_latin1 (value : str) :
  is_ascii value = true ->
  @natural_sort_key U value = @natural_sort_key latin1 value.
Proof.
  intros H. unfold natural_sort_key, int_of_str.
  rewrite (ascii_isdigit_latin1 _ H).
  destruct value as [| c rest]; [reflexivity |].
  now rewrite (ascii_decimal_value_latin1 _ 0 H),
    (ascii_leading_decimals_latin1 _ H).
Qed.

Lemma ascii_lower_latin1 (text : str) :
  is_ascii text = true -> @lower U text = @lower latin1 text.
Proof.
  intros H. now rewrite (@ascii_lower U text H), (@ascii_lower latin1 text H).
Qed.
End Ascii.

Lemma mapM_ext {A B} (f g : A -> result B) (l : list A) :
  (forall x, In x l -> f x = g x) -> mapM f l = mapM g l.
Proof.
  induction l as [| x rest IH]; simpl; intros H; [reflexivity |].
  rewrite (H x (or_introl eq_refl)), IH; [reflexivity |].
  intros y Hy. apply H. now right.
Qed.

Lemma list_sort_ext {A K} (key key' : A -> result K)
    (lt : K -> K -> result bool) (l : list A) :
  (forall x, In x l -> key x = key' x) ->
  list_sort key lt l = list_sort key' lt l.
Proof.
  intros H. unfold list_sort, decorate.
  rewrite (mapM_ext _ (fun x => k <- key' x ;; Ok (k, x))); [reflexivity |].
  intros x Hx. now rewrite (H x Hx).
Qed.

(** ** The global sort *)

Lemma StronglySorted_impl {A} (R R' : A -> A -> Prop) (l : list A) :
  (forall a b, R a b -> R' a b) -> StronglySorted R l -> StronglySorted R' l.
Proof.
  intros H. induction 1 as [| x l Hl IH Hx]; constructor; [assumption |].
  rewrite Forall_forall in *. auto.
Qed.

Section GlobalSort.
Context {U : UnicodeData}.

Lemma key_le_row_le (a b : ExampleRow) :
  key_le row_key key_ltb a b -> row_le a b.
Proof.
  intros (ka & kb & Ha & Hb & H). exists ka, kb. repeat split; auto.
  rewrite tuple_lt_wf; [now rewrite H | |];
    eapply natural_sort_key_wf; eassumption.
Qed.

Lemma row_le_key_le (a b : ExampleRow) :
    row_le a b -> key_le row_key key_ltb a b.
Proof.
  intros (ka & kb & Ha & Hb & H). exists ka, kb. repeat split; auto.
  rewrite tuple_lt_wf in H; [now injection H | |];
    eapply natural_sort_key_wf; eassumption.
Qed.

Lemma row_le_numeric (a b : ExampleRow) :
  row_le a b -> numeric a = false -> numeric b = false.
Proof.
  intros (ka & kb & Ha & Hb & H) Na.
  unfold row_key, natural_sort_key, numeric in *. rewrite Na in Ha.
  injection Ha as <-.
  destruct (isdigit (identifier b)); [| reflexivity].
  destruct (int_of_str (identifier b)); simpl in Hb; [| discriminate].
  injection Hb as <-. discriminate.
Qed.

(** In a list in key order, the rows whose identifier is all digits come
    first. *)
Lemma sorted_numeric_first (rows : list ExampleRow) :
  StronglySorted row_le rows ->
  rows = filter numeric rows ++ filter (fun r => negb (numeric r)) rows.
Proof.
  induction 1 as [| a rows Hs IH Ha]; simpl; [reflexivity |].
  destruct (numeric a) eqn:Na; simpl.
  - now rewrite <- IH.
  - assert (E : forall l, Forall (row_le a) l ->
                  filter numeric l = []
                  /\ filter (fun r => negb (numeric r)) l = l).
    { induction 1 as [| b l Hb Hl [IH1 IH2]]; simpl; [now split |].
      rewrite (row_le_numeric _ _ Hb Na). simpl. now rewrite IH2. }
    destruct (E rows Ha) as [-> ->]. reflexivity.
Qed.

Lemma sort_rows_spec (rows : list ExampleRow) :
  (forall row, In row rows -> exists k, row_key row = Ok k) ->
  exists sorted,
    sort_rows rows = Ok sorted
    /\ Permutation rows sorted
    /\ StronglySorted row_le sorted
    /\ (forall k, filter (has_key row_key key_eqb k) sorted
                  = filter (has_key row_key key_eqb k) rows).
Proof.
  intros H.
  destruct (list_sort_spec ExampleRow (Z * PyVal) row_key tuple_lt
              key_wf key_ltb
              (fun x k => natural_sort_key_wf (identifier x) k)
              tuple_lt_wf key_ltb_asym key_le_trans
              key_eqb key_eqb_eq key_ltb_irrefl rows H)
    as (sorted & E & P & S & St).
  exists sorted. repeat split; try assumption.
  apply (StronglySorted_impl _ _ _ key_le_row_le S).
Qed.

Lemma sort_rows_ascii (rows : list ExampleRow) :
  forallb (fun row => is_ascii (identifier row)) rows = true ->
  sort_rows rows = @sort_rows latin1 rows.
Proof.
  intros H. unfold sort_rows. apply list_sort_ext.
  intros row Hrow. apply ascii_natural_sort_key_latin1.
  rewrite forallb_forall in H. now apply H.
Qed.

(** The rows whose key is computed: the identifier is made of decimal
    digits, few enough for [int], or it is not made of digits. *)
Lemma row_key_defined (rows : list ExampleRow) :
    (forall row, In row rows ->
       reads_as_int (identifier row) = true
       \/ isdigit (identifier row) = false) ->
    forall row, In row rows -> exists k, row_key row = Ok k.
Proof.
  intros H row Hrow. apply natural_sort_key_defined.
  destruct (H row Hrow) as [Hd | Hd]; [auto | congruence].
Qed.

(** The global sort on identifiers whose key is computed: it returns the
    rows in the order of the two-tier keys, rows of equal keys in their
    former order, and no other list is so; a string of decimal digits, few
    enough for [int], has
    key (0, the number it denotes), a string that is not all digits has key
    (1, itself), every key of tier 0 is below every key of tier 1, so the
    all-digit rows come first; and the identifiers 10, 2, a, 1 come out as
    1, 2, 10, a. *)
Lemma sort_rows_natural_order (rows : list ExampleRow) :
    (forall value, reads_as_int value = true ->
       exists n, decimal_value 0 value = Some n
                 /\ natural_sort_key value = Ok (0%Z, VInt n))
    /\ (forall value, isdigit value = false ->
          natural_sort_key value = Ok (1%Z, VStr value))
    /\ (forall n s, tuple_lt (0%Z, VInt n) (1%Z, VStr s) = Ok true
                    /\ tuple_lt (1%Z, VStr s) (0%Z, VInt n) = Ok false)
    /\ ((forall row, In row rows ->
           reads_as_int (identifier row) = true
           \/ isdigit (identifier row) = false) ->
        exists sorted,
          sort_rows rows = Ok sorted
          /\ Permutation rows sorted
          /\ StronglySorted row_le sorted
          /\ (forall k, filter (has_key row_key key_eqb k) sorted
                        = filter (has_key row_key key_eqb k) rows)
          /\ sorted = filter numeric sorted
                        ++ filter (fun r => negb (numeric r)) sorted
          /\ (forall other,
                 Permutation rows other ->
                 StronglySorted row_le other ->
                 (forall k, filter (has_key row_key key_eqb k) other
                            = filter (has_key row_key key_eqb k) rows) ->
                 other = sorted))
    /\ sort_rows (List.map sample_row ["10"; "2"; "a"; "1"]%string)
       = Ok (List.map sample_row ["1"; "2"; "10"; "a"]%string).
Proof.
  split; [exact natural_sort_key_decimal |].
  split; [exact natural_sort_key_text |].
  split; [intros n s; split; reflexivity |].
  split.
  - intros H. pose proof (row_key_defined rows H) as Hk.
    destruct (sort_rows_spec rows Hk) as (sorted & E & P & S & St).
    exists sorted. repeat split; try assumption.
    + now apply sorted_numeric_first.
    + intros other Po So Sto.
      apply (stable_sorted_unique ExampleRow (Z * PyVal) row_key key_wf key_ltb
               (fun x k => natural_sort_key_wf (identifier x) k)
               key_eqb key_ltb_irrefl key_eqb_refl key_ltb_antisym).
      * rewrite Forall_forall. intros row Hrow. apply Hk.
        apply Permutation_sym in Po. now apply (Permutation_in _ Po).
      * rewrite Forall_forall. intros row Hrow. apply Hk.
        apply Permutation_sym in P. now apply (Permutation_in _ P).
      * apply (StronglySorted_impl _ _ _ row_le_key_le So).
      * apply (StronglySorted_impl _ _ _ row_le_key_le S).
      * intros k. now rewrite Sto, St.
  - rewrite sort_rows_ascii; reflexivity.
Qed.

(** Rows of equal keys keep their order: 7 stays before 007. *)
Example sort_rows_stable_sample :
  sort_rows (List.map sample_row ["b"; "7"; "007"; "a"; "12"]%string)
  = Ok (List.map sample_row ["7"; "007"; "12"; "a"; "b"]%string).
Proof. rewrite sort_rows_ascii; reflexivity. Qed.

(** A row whose identifier is made of digits that are not all decimal
    digits makes the global sort raise. *)
Lemma sort_rows_raise (rows : list ExampleRow) (row : ExampleRow) :
    In row rows ->
    isdigit (identifier row) = true -> isdecimal (identifier row) = false ->
    exists e, sort_rows rows = Raise e.
Proof.
  intros Hin Hd Hn.
  destruct (row_key row) as [k |] eqn:E.
  - assert (H : exists k, natural_sort_key (identifier row) = Ok k) by eauto.
    apply natural_sort_key_defined in H; [| assumption].
    apply reads_as_int_inv in H. destruct H as [H _]. congruence.
  - apply (list_sort_raise ExampleRow (Z * PyVal) row_key tuple_lt rows row e
             Hin E).
Qed.

(** C3 fails on the code: the global sort does not order a list in which
    an identifier is made of digits that are not decimal digits, such as the
    superscript two; whatever rows stand before and after such a row, no key
    is computed for it and the sort raises.  Between 10, 2 and a, 1 the
    error is the [ValueError] of [int]. *)
Theorem sort_rows_superscript (before after : list ExampleRow) :
    (exists e, sort_rows (before ++ superscript_row :: after) = Raise e)
    /\ sort_rows
         (List.map sample_row ["10"; "2"]%string
            ++ superscript_row :: List.map sample_row ["a"; "1"]%string)
       = Raise (InvalidIntLiteral superscript_two).
Proof.
  split.
  - apply (sort_rows_raise _ superscript_row).
    + apply in_or_app. right. now left.
    + unfold isdigit, superscript_row, superscript_two.
      cbn [identifier forallb]. now rewrite superscript_two_isdigit.
    + unfold isdecimal, superscript_row, superscript_two.
      cbn [identifier forallb]. now rewrite superscript_two_decimal.
  - unfold sort_rows, list_sort, decorate. cbn [List.map app mapM].
    change (identifier (sample_row "10")) with (lit "10").
    change (identifier (sample_row "2")) with (lit "2").
    change (identifier superscript_row) with superscript_two.
    rewrite (ascii_natural_sort_key_latin1 (lit "10")) by reflexivity.
    rewrite (ascii_natural_sort_key_latin1 (lit "2")) by reflexivity.
    rewrite superscript_two_key_raises. reflexivity.
Qed.
End GlobalSort.

(** ** Query resolution *)

Lemma mapM_first_raise {A B} (f : A -> result B) (l : list A) (x : A)
    (e : PyExc) :
  In x l -> f x = Raise e ->
  exists x' e', In x' l /\ f x' = Raise e' /\ mapM f l = Raise e'.
Proof.
  induction l as [| y rest IH]; simpl; [contradiction |].
  intros Hin Hx. destruct (f y) as [b |] eqn:Ey; simpl.
  - destruct Hin as [-> | Hin]; [congruence |].
    destruct (IH Hin Hx) as (x' & e' & Hin' & Hx' & E).
    exists x', e'. rewrite E. simpl. auto.
  - exists y, e0. auto.
Qed.

Lemma pick_query_cases (graph : Graph) (subject : Node) (ttl_file : Path) :
  pick_query graph subject ttl_file
  = match objects graph subject SH_select with
    | literal :: _ => Ok (node_str literal)
    | [] =>
    match objects graph subject SH_ask with
    | literal :: _ => Ok (node_str literal)
    | [] =>
    match objects graph subject SH_construct with
    | literal :: _ => Ok (node_str literal)
    | [] =>
    match objects graph subject SPEX_describe with
    | literal :: _ => Ok (node_str literal)
    | [] =>
        Raise (ValueError
                 (lit "No SPARQL query found in " ++ path_str ttl_file
                    ++ lit " for subject " ++ node_str subject))
    end end end end.
Proof. reflexivity. Qed.

(** No query predicate has a value for the subject. *)
Lemma pick_query_raise (graph : Graph) (subject : Node) (ttl_file : Path)
    (e : PyExc) :
  pick_query graph subject ttl_file = Raise e ->
  e = ValueError (no_query_message ttl_file subject)
  /\ Forall (fun predicate => objects graph subject predicate = [])
       QUERY_PREDICATES.
Proof.
  rewrite pick_query_cases.
  destruct (objects graph subject SH_select) eqn:E1; [| discriminate].
  destruct (objects graph subject SH_ask) eqn:E2; [| discriminate].
  destruct (objects graph subject SH_construct) eqn:E3; [| discriminate].
  destruct (objects graph subject SPEX_describe) eqn:E4; [| discriminate].
  intros [= <-]. split; [reflexivity | now repeat constructor].
Qed.

Lemma pick_query_none (graph : Graph) (subject : Node) (ttl_file : Path) :
  Forall (fun predicate => objects graph subject predicate = [])
    QUERY_PREDICATES ->
  pick_query graph subject ttl_file
  = Raise (ValueError (no_query_message ttl_file subject)).
Proof.
  intros H. rewrite pick_query_cases.
  inversion H as [| ? ? E1 H1]; subst. inversion H1 as [| ? ? E2 H2]; subst.
  inversion H2 as [| ? ? E3 H3]; subst. inversion H3 as [| ? ? E4 _]; subst.
  now rewrite E1, E2, E3, E4.
Qed.

Lemma example_of_raise (graph : Graph) (ttl_file : Path) (backend : Z)
    (subject : Node) (e : PyExc) :
  example_of graph ttl_file backend subject = Raise e ->
  e = ValueError (no_query_message ttl_file subject)
  /\ Forall (fun predicate => objects graph subject predicate = [])
       QUERY_PREDICATES.
Proof.
  unfold example_of.
  destruct (pick_query graph subject ttl_file) eqn:E; simpl; [discriminate |].
  intros [= <-]. now apply pick_query_raise.
Qed.

(** A file with an executable subject that has no query makes
    [iter_examples] raise the error of the first such subject. *)
Lemma iter_examples_queryless (fs : FileSystem) (ttl_file : Path)
    (backend : Z) (graph : Graph) (subject : Node) :
  parse fs ttl_file = Ok graph ->
  In subject (subjects graph RDF_type SH_SPARQLExecutable) ->
  Forall (fun predicate => objects graph subject predicate = [])
    QUERY_PREDICATES ->
  exists subject',
    In subject' (subjects graph RDF_type SH_SPARQLExecutable)
    /\ Forall (fun predicate => objects graph subject' predicate = [])
         QUERY_PREDICATES
    /\ iter_examples fs ttl_file backend
       = Raise (ValueError (no_query_message ttl_file subject')).
Proof.
  intros Hp Hin Hq. unfold iter_examples. rewrite Hp. simpl.
  destruct (mapM_first_raise (example_of graph ttl_file backend) _ subject
              (ValueError (no_query_message ttl_file subject)) Hin)
    as (s' & e' & Hin' & He' & E).
  - unfold example_of. now rewrite (pick_query_none _ _ _ Hq).
  - apply example_of_raise in He'. destruct He' as [-> Hq'].
    exists s'. auto.
Qed.

Lemma extend_rows_raise (fs : FileSystem) (backend : Z)
    (ttl_files : list Path) (ttl_file : Path) (e : PyExc) :
  In ttl_file ttl_files ->
  iter_examples fs ttl_file backend = Raise e ->
  forall rows, exists e', extend_rows fs backend rows ttl_files = Raise e'.
Proof.
  induction ttl_files as [| f rest IH]; simpl; [contradiction |].
  intros Hin He rows.
  destruct (iter_examples fs f backend) as [new |] eqn:Ef; simpl; [| eauto].
  destruct Hin as [-> | Hin]; [congruence |]. now apply IH.
Qed.

(** ** The driver *)

Section Driver.
Context {U : UnicodeData} {host : Host}.

Lemma find_ttl_files_ok (fs : FileSystem) (dir : Path) :
  exists ttl_files,
    find_ttl_files fs dir = Ok ttl_files
    /\ Permutation (filter (is_ttl_file fs) (iterdir fs dir)) ttl_files.
Proof.
  unfold find_ttl_files.
  apply (list_sort_ok Path str (fun path => Ok (path_name path))
           (fun a b => Ok (str_ltb a b)) (fun _ => True) str_ltb).
  - trivial.
  - reflexivity.
  - intros x _. eauto.
Qed.

Lemma main_rows_not_dir (fs : FileSystem) (args : Args) :
  is_dir fs (examples_dir args) = false ->
  main_rows fs args
  = Raise (SystemExit
             (lit "Directory not found: " ++ path_str (examples_dir args))).
Proof. intros H. unfold main_rows. now rewrite H. Qed.

Lemma main_rows_no_files (fs : FileSystem) (args : Args) :
  is_dir fs (examples_dir args) = true ->
  filter (is_ttl_file fs) (iterdir fs (examples_dir args)) = [] ->
  main_rows fs args
  = Raise (SystemExit
             (lit "No .ttl files found in " ++ path_str (examples_dir args))).
Proof.
  intros Hd Hf. unfold main_rows. rewrite Hd. simpl.
  destruct (find_ttl_files_ok fs (examples_dir args)) as (files & E & P).
  rewrite E. simpl. rewrite Hf in P. apply Permutation_nil in P.
  now rewrite P.
Qed.

Lemma main_rows_file_raise (fs : FileSystem) (args : Args) (ttl_file : Path)
    (e : PyExc) :
  is_dir fs (examples_dir args) = true ->
  In ttl_file (iterdir fs (examples_dir args)) ->
  is_ttl_file fs ttl_file = true ->
  iter_examples fs ttl_file (arg_backend_id args) = Raise e ->
  exists e', main_rows fs args = Raise e'.
Proof.
  intros Hd Hin Ht He. unfold main_rows. rewrite Hd. simpl.
  destruct (find_ttl_files_ok fs (examples_dir args)) as (files & E & P).
  rewrite E. simpl.
  assert (Hf : In ttl_file files).
  { apply (Permutation_in _ P). apply filter_In. now split. }
  destruct files as [| f rest]; [contradiction |].
  destruct (extend_rows_raise fs (arg_backend_id args) (f :: rest)
              ttl_file e Hf He []) as [e' ->].
  simpl. eauto.
Qed.

Lemma main_raise (fs : FileSystem) (args : Args) (e : PyExc) :
  main_rows fs args = Raise e ->
  main fs args = {| events := []; outcome := Raise e |}.
Proof. intros H. unfold main. now rewrite H. Qed.
End Driver.

(** C1: query resolution tries [sh:select], [sh:ask], [sh:construct] and
    [spex:describe] in this order and returns the text of the first value
    of the first of them that has one; when none has a value it raises an
    error whose message names the file and the subject, and the error is
    not caught: [iter_examples] raises instead of leaving the subject out,
    and the run ends with a failure status, nothing written. *)
Theorem pick_query_priority {U : UnicodeData} {host : Host}
    (fs : FileSystem)
    (args : Args) (ttl_file : Path) (graph : Graph) (subject : Node) :
  pick_query graph subject ttl_file
  = match objects graph subject SH_select with
    | literal :: _ => Ok (node_str literal)
    | [] =>
    match objects graph subject SH_ask with
    | literal :: _ => Ok (node_str literal)
    | [] =>
    match objects graph subject SH_construct with
    | literal :: _ => Ok (node_str literal)
    | [] =>
    match objects graph subject SPEX_describe with
    | literal :: _ => Ok (node_str literal)
    | [] =>
        Raise (ValueError
                 (lit "No SPARQL query found in " ++ path_str ttl_file
                    ++ lit " for subject " ++ node_str subject))
    end end end end
  /\ (parse fs ttl_file = Ok graph ->
      In subject (subjects graph RDF_type SH_SPARQLExecutable) ->
      Forall (fun predicate => objects graph subject predicate = [])
        QUERY_PREDICATES ->
      (exists subject',
          In subject' (subjects graph RDF_type SH_SPARQLExecutable)
          /\ Forall (fun predicate => objects graph subject' predicate = [])
               QUERY_PREDICATES
          /\ iter_examples fs ttl_file (arg_backend_id args)
             = Raise (ValueError
                        (lit "No SPARQL query found in " ++ path_str ttl_file
                           ++ lit " for subject " ++ node_str subject')))
      /\ (is_dir fs (examples_dir args) = true ->
          In ttl_file (iterdir fs (examples_dir args)) ->
          is_ttl_file fs ttl_file = true ->
          exists e,
            main fs args = {| events := []; outcome := Raise e |}
            /\ exit_status (main fs args) = 1%Z)).
Proof.
  split; [apply pick_query_cases |].
  intros Hp Hin Hq.
  destruct (iter_examples_queryless fs ttl_file (arg_backend_id args)
              graph subject Hp Hin Hq) as (s' & Hin' & Hq' & E).
  split; [exists s'; auto |].
  intros Hd Hf Ht.
  destruct (main_rows_file_raise fs args ttl_file _ Hd Hf Ht E) as [e He].
  exists e. rewrite (main_raise fs args e He). split; reflexivity.
Qed.

Lemma pick_query_priority_witness :
  parse (sample_fs queryless_graph) q7_file = Ok queryless_graph
  /\ In sample_subject
       (subjects queryless_graph RDF_type SH_SPARQLExecutable)
  /\ Forall
       (fun predicate => objects queryless_graph sample_subject predicate = [])
       QUERY_PREDICATES
  /\ is_dir (sample_fs queryless_graph) (examples_dir (sample_args false))
     = true
  /\ In q7_file
       (iterdir (sample_fs queryless_graph) (examples_dir (sample_args false)))
  /\ @is_ttl_file latin1 (sample_fs queryless_graph) q7_file = true
  /\ exists e,
      @main latin1 utf8_host (sample_fs queryless_graph) (sample_args false)
      = {| events := []; outcome := Raise e |}.
Proof.
  assert (Hq : Forall (fun predicate =>
                         objects queryless_graph sample_subject predicate = [])
                 QUERY_PREDICATES) by (repeat constructor).
  assert (Hin : In sample_subject
                  (subjects queryless_graph RDF_type SH_SPARQLExecutable))
    by (vm_compute; auto).
  assert (Hf : In q7_file
                 (iterdir (sample_fs queryless_graph)
                    (examples_dir (sample_args false))))
    by (simpl; auto).
  repeat (split; [first [reflexivity | assumption] |]).
  destruct (@pick_query_priority latin1 utf8_host (sample_fs queryless_graph)
              (sample_args false) q7_file queryless_graph sample_subject)
    as [_ H].
  destruct (H eq_refl Hin Hq) as [_ Hm].
  destruct (Hm eq_refl Hf eq_refl) as (e & E & _).
  now exists e.
Defined.

(** ** Input that cannot be used *)

Section NoInput.
Context {U : UnicodeData} {host : Host}.

Lemma lower_nil_inv (text : str) : lower text = lit ".ttl" -> text <> [].
Proof.
  intros H ->. rewrite ascii_lower in H by reflexivity. discriminate.
Qed.

(** The entries [main] reads have a name that ends in [".ttl"]. *)
Lemma is_ttl_file_ends_in_ttl (fs : FileSystem) (path : Path) :
  is_ttl_file fs path = true ->
  is_file fs path = true /\ ends_in_ttl (path_name path).
Proof.
  unfold is_ttl_file. intros H. apply andb_prop in H. destruct H as [Hf Hs].
  split; [assumption |]. apply str_eqb_eq in Hs.
  pose proof (lower_nil_inv _ Hs) as Hne. unfold suffix in *.
  destruct ((0 <? rfind dot (path_name path))
            && (rfind dot (path_name path) <? len (path_name path) - 1))%Z;
    [| congruence].
  exists (firstn (Z.to_nat (rfind dot (path_name path))) (path_name path)),
    (skipn (Z.to_nat (rfind dot (path_name path))) (path_name path)).
  split; [symmetry; apply firstn_skipn | assumption].
Qed.

(** C7: when the input directory is not there, or holds no file whose name
    ends in [".ttl"] in any case of the letters, the run ends with
    [SystemExit] and a message naming the directory, hence with a status
    other than 0, and it has opened and written nothing. *)
Theorem main_without_input (fs : FileSystem) (args : Args) :
  is_dir fs (examples_dir args) = false
  \/ (forall path, In path (iterdir fs (examples_dir args)) ->
      is_file fs path = true -> ~ ends_in_ttl (path_name path)) ->
  exists msg,
    main fs args = {| events := []; outcome := Raise (SystemExit msg) |}
    /\ exit_status (main fs args) <> 0%Z
    /\ (msg = lit "Directory not found: " ++ path_str (examples_dir args)
        \/ msg = lit "No .ttl files found in "
                   ++ path_str (examples_dir args)).
Proof.
  intros H.
  assert (E : exists msg,
             main_rows fs args = Raise (SystemExit msg)
             /\ (msg = lit "Directory not found: "
                         ++ path_str (examples_dir args)
                 \/ msg = lit "No .ttl files found in "
                            ++ path_str (examples_dir args))).
  { destruct (is_dir fs (examples_dir args)) eqn:Hd.
    - destruct H as [H | H]; [discriminate |].
      eexists. split; [apply main_rows_no_files; [assumption |] | now right].
      destruct (filter (is_ttl_file fs) (iterdir fs (examples_dir args)))
        as [| path rest] eqn:F; [reflexivity |].
      assert (Hin : In path (filter (is_ttl_file fs)
                               (iterdir fs (examples_dir args))))
        by (rewrite F; now left).
      apply filter_In in Hin. destruct Hin as [Hin Ht].
      apply is_ttl_file_ends_in_ttl in Ht. destruct Ht as [Hf He].
      now destruct (H path Hin Hf).
    - eexists. split; [now apply main_rows_not_dir | now left]. }
  destruct E as (msg & E & Hmsg). exists msg.
  rewrite (main_raise fs args _ E). repeat split; [discriminate | exact Hmsg].
Qed.
End NoInput.

Lemma readme_not_ttl : ~ @ends_in_ttl latin1 (path_name readme_file).
Proof.
  intros (base & ext & E & L). revert E. unfold readme_file, path_name.
  vm_compute (lit "README.md"). intros E.
  repeat (destruct base as [| ? base]; simpl in E;
          [subst ext; vm_compute in L; discriminate | injection E as <- E]).
  destruct base; simpl in E; [subst ext |]; discriminate.
Qed.

Lemma main_without_input_witness :
  (is_dir no_ttl_fs (examples_dir (sample_args false)) = false
   \/ (forall path,
         In path (iterdir no_ttl_fs (examples_dir (sample_args false))) ->
         is_file no_ttl_fs path = true ->
         ~ @ends_in_ttl latin1 (path_name path)))
  /\ exists msg,
      @main latin1 utf8_host no_ttl_fs (sample_args false)
      = {| events := []; outcome := Raise (SystemExit msg) |}.
Proof.
  assert (H : is_dir no_ttl_fs (examples_dir (sample_args false)) = false
              \/ (forall path,
                    In path (iterdir no_ttl_fs
                               (examples_dir (sample_args false))) ->
                    is_file no_ttl_fs path = true ->
                    ~ @ends_in_ttl latin1 (path_name path))).
  { right. simpl. intros path [<- | []] _. exact readme_not_ttl. }
  split; [exact H |].
  destruct (@main_without_input latin1 utf8_host no_ttl_fs (sample_args false) H)
    as (msg & E & _).
  now exists msg.
Defined.

(** ** The CSV text *)

Lemma read_open (fields : list str) (rest : str) :
  read_record FieldStart [] fields (dquote :: rest)
  = read_record InField [] fields rest.
Proof. reflexivity. Qed.










(** ** Integers as text *)

Section IntText.
Context {U : UnicodeData} {host : Host}.

Lemma decimal_value_uint (d : Decimal.uint) (acc : Z) :
  decimal_value acc (lit (NilEmpty.string_of_uint d))
  = Some (uint_value acc d).
Proof.
  revert acc. unfold lit.
  induction d; intros acc; cbn [NilEmpty.string_of_uint list_ascii_of_string
                                  List.map decimal_value uint_value];
    [reflexivity | ..];
    (rewrite ascii_decimal by (vm_compute; split; discriminate));
    apply IHd.
Qed.

Lemma isdecimal_uint (d : Decimal.uint) :
  forallb (fun c => match cp_decimal c with Some _ => true | None => false end)
    (lit (NilEmpty.string_of_uint d)) = true.
Proof.
  unfold lit.
  induction d; cbn [NilEmpty.string_of_uint list_ascii_of_string
                      List.map forallb];
    [reflexivity | ..];
    (rewrite ascii_decimal by (vm_compute; split; discriminate));
    exact IHd.
Qed.
End IntText.

Lemma uint_value_acc (d : Decimal.uint) (acc : positive) :
  uint_value (Zpos acc) d = Zpos (Pos.of_uint_acc d acc).
Proof.
  revert acc.
  induction d; intros acc; cbn [uint_value Pos.of_uint_acc];
    [reflexivity | ..]; rewrite <- IHd; f_equal; lia.
Qed.

Lemma uint_value_of_uint (d : Decimal.uint) :
  uint_value 0 d = Z.of_N (Pos.of_uint d).
Proof.
  induction d; cbn [uint_value Pos.of_uint]; [reflexivity | exact IHd | ..];
    match goal with
    | |- _ = Z.of_N (N.pos (Pos.of_uint_acc _ ?k)) =>
        exact (uint_value_acc d k)
    end.
Qed.

Section IntTextFacts.
Context {U : UnicodeData} {host : Host}.

Lemma isdecimal_numeral (d : Decimal.uint) :
  d <> Decimal.Nil -> isdecimal (lit (NilEmpty.string_of_uint d)) = true.
Proof.
  destruct d; [congruence | ..]; intros _;
    match goal with
    | |- isdecimal (lit (NilEmpty.string_of_uint ?x)) = true =>
        exact (isdecimal_uint x)
    end.
Qed.

(** [str(n)] of a natural number is its decimal numeral. *)
Lemma str_of_int_decimal (n : Z) :
  (0 <= n)%Z ->
  isdecimal (str_of_int n) = true
  /\ decimal_value 0 (str_of_int n) = Some n.
Proof.
  intros Hn. unfold str_of_int. destruct n as [| p | p]; [| | lia].
  - change (Z.to_int 0) with (Decimal.Pos (Decimal.D0 Decimal.Nil)).
    cbn [NilZero.string_of_int NilZero.string_of_uint].
    split; [now apply isdecimal_numeral |].
    apply (decimal_value_uint (Decimal.D0 Decimal.Nil) 0).
  - change (Z.to_int (Z.pos p)) with (Decimal.Pos (Pos.to_uint p)).
    cbn [NilZero.string_of_int].
    pose proof (DecimalPos.Unsigned.of_to p) as Hp.
    assert (Hd : Pos.to_uint p <> Decimal.Nil).
    { intros E. rewrite E in Hp. discriminate. }
    replace (NilZero.string_of_uint (Pos.to_uint p))
      with (NilEmpty.string_of_uint (Pos.to_uint p))
      by (unfold NilZero.string_of_uint; now destruct (Pos.to_uint p)).
    split; [now apply isdecimal_numeral |].
    now rewrite decimal_value_uint, uint_value_of_uint, Hp.
Qed.

Lemma str_of_int_negative (p : positive) :
  str_of_int (Z.neg p) = lit "-" ++ str_of_int (Z.pos p).
Proof.
  unfold str_of_int.
  change (Z.to_int (Z.neg p)) with (Decimal.Neg (Pos.to_uint p)).
  change (Z.to_int (Z.pos p)) with (Decimal.Pos (Pos.to_uint p)).
  reflexivity.
Qed.
End IntTextFacts.

(** ** Fields without quotes *)



(** ** The rows of a file *)

Lemma extract_identifier_nonempty (subject : Node) (ttl_file : Path) :
  path_name ttl_file <> [] -> extract_identifier subject ttl_file <> [].
Proof.
  intros Hn. unfold extract_identifier.
  match goal with |- match ?t with _ => _ end <> _ => destruct t end;
    [now apply stem_nonempty | discriminate].
Qed.

Lemma pick_comment_nil_inv (comments : list Node) (ttl_file : Path) :
  path_name ttl_file <> [] ->
  pick_comment comments ttl_file = [] ->
  exists l, find en_tagged comments = Some l /\ node_str l = [].
Proof.
  intros Hn. rewrite pick_comment_find.
  pose proof (stem_nonempty ttl_file Hn) as Hs.
  destruct (find en_tagged comments) as [l |]; [eauto |].
  destruct (find is_Literal comments) as [l |]; [| congruence].
  destruct (node_str l); congruence.
Qed.

Lemma pick_query_ok (graph : Graph) (subject : Node) (ttl_file : Path)
    (text : str) :
  pick_query graph subject ttl_file = Ok text ->
  exists before predicate after literal others,
    QUERY_PREDICATES = before ++ predicate :: after
    /\ Forall (fun p => objects graph subject p = []) before
    /\ objects graph subject predicate = literal :: others
    /\ text = node_str literal.
Proof.
  rewrite pick_query_cases. unfold QUERY_PREDICATES.
  destruct (objects graph subject SH_select) as [| l1 o1] eqn:E1.
  2:{ intros [= <-].
      exists [], SH_select, [SH_ask; SH_construct; SPEX_describe], l1, o1.
      now repeat split. }
  destruct (objects graph subject SH_ask) as [| l2 o2] eqn:E2.
  2:{ intros [= <-].
      exists [SH_select], SH_ask, [SH_construct; SPEX_describe], l2, o2.
      repeat split; auto. }
  destruct (objects graph subject SH_construct) as [| l3 o3] eqn:E3.
  2:{ intros [= <-].
      exists [SH_select; SH_ask], SH_construct, [SPEX_describe], l3, o3.
      repeat split; auto. }
  destruct (objects graph subject SPEX_describe) as [| l4 o4] eqn:E4;
    [discriminate |].
  intros [= <-]. exists [SH_select; SH_ask; SH_construct], SPEX_describe, [],
    l4, o4. repeat split; auto.
Qed.

(** C8, as stated, fails: a subject whose comment tagged ["en"] and whose
    query literal are empty gives a row with an empty name and an empty
    query. *)
Lemma iter_examples_blank_row :
  iter_examples (sample_fs blank_graph) q7_file 69
  = Ok [{| identifier := lit "7"; backend_id := 69;
           name := []; query := [] |}].
Proof. vm_compute. reflexivity. Qed.

(** C8 (amended): [iter_examples] returns one row for each executable
    subject, in order, or raises; in every row the identifier is not empty
    (the file having a name), the name is empty only when the subject's
    first comment tagged ["en"] has an empty text, and the query is the text
    of the first value of the first query predicate that has one (an empty
    text included); a subject with no value for any of the four predicates
    makes [iter_examples] raise: it is never left out. *)
Theorem iter_examples_rows (fs : FileSystem) (ttl_file : Path) (backend : Z)
    (graph : Graph) :
  path_name ttl_file <> [] ->
  parse fs ttl_file = Ok graph ->
  (forall rows,
      iter_examples fs ttl_file backend = Ok rows ->
      Forall2
        (fun subject row =>
           identifier row <> []
           /\ (name row = [] ->
               exists l,
                 find en_tagged (objects graph subject RDFS_comment) = Some l
                 /\ node_str l = [])
           /\ (exists before predicate after literal others,
                  QUERY_PREDICATES = before ++ predicate :: after
                  /\ Forall (fun p => objects graph subject p = []) before
                  /\ objects graph subject predicate = literal :: others
                  /\ query row = node_str literal)
           /\ backend_id row = backend)
        (subjects graph RDF_type SH_SPARQLExecutable) rows)
  /\ (forall subject,
         In subject (subjects graph RDF_type SH_SPARQLExecutable) ->
         Forall (fun predicate => objects graph subject predicate = [])
           QUERY_PREDICATES ->
         exists e, iter_examples fs ttl_file backend = Raise e).
Proof.
  intros Hn Hp. split.
  - intros rows. unfold iter_examples. rewrite Hp. cbn [bind].
    intros H. apply mapM_Forall2 in H.
    induction H as [| subject row subjects rows Hrow _ IH]; constructor;
      [| exact IH].
    unfold example_of in Hrow.
    destruct (pick_query graph subject ttl_file) as [text |] eqn:Eq;
      cbn [bind] in Hrow; [| discriminate].
    injection Hrow as <-. cbn [identifier name query backend_id].
    split; [now apply extract_identifier_nonempty |].
    split; [now apply pick_comment_nil_inv |].
    split; [now apply (pick_query_ok _ _ _ _ Eq) | reflexivity].
  - intros subject Hin Hq.
    destruct (iter_examples_queryless fs ttl_file backend graph subject
                Hp Hin Hq) as (s' & _ & _ & E).
    eauto.
Qed.

Lemma iter_examples_rows_witness :
  path_name q7_file <> []
  /\ parse (sample_fs sample_graph) q7_file = Ok sample_graph
  /\ iter_examples (sample_fs sample_graph) q7_file 69 = Ok [sample7]
  /\ Forall2 (fun _ row => identifier row <> [])
       (subjects sample_graph RDF_type SH_SPARQLExecutable) [sample7].
Proof.
  assert (Hn : path_name q7_file <> []) by (vm_compute; discriminate).
  assert (E : iter_examples (sample_fs sample_graph) q7_file 69
              = Ok [sample7]) by (vm_compute; reflexivity).
  repeat (split; [first [assumption | reflexivity] |]).
  destruct (iter_examples_rows (sample_fs sample_graph) q7_file 69
              sample_graph Hn eq_refl) as [H _].
  specialize (H [sample7] E). revert H. apply Forall2_impl.
  intros subject row (Hid & _). exact Hid.
Defined.

(** ** Where the sort key is not defined *)

Section KeyTotality.
Context {U : UnicodeData} {host : Host}.

Lemma find_ttl_files_sample (graph : Graph) :
  find_ttl_files (sample_fs graph) sample_dir = Ok [q7_file].
Proof.
  unfold find_ttl_files. cbn [iterdir sample_fs filter is_file andb].
  rewrite (ascii_lower_latin1 (suffix readme_file)) by reflexivity.
  rewrite (ascii_lower_latin1 (suffix q7_file)) by reflexivity.
  reflexivity.
Qed.

(** C9 fails on the code: the superscript two is a digit for [isdigit] and
    not one for [int], so the key of an identifier made of it is not
    computed; a subject whose IRI ends in ["#"] and that character has it as
    identifier, and the run over a file holding such a subject ends in the
    [ValueError] of [int], nothing written. *)
Theorem natural_sort_key_superscript :
  isdigit superscript_two = true
  /\ natural_sort_key superscript_two
     = Raise (InvalidIntLiteral superscript_two)
  /\ extract_identifier
       (URIRef (lit "http://ex.org/q#" ++ superscript_two)) q7_file
     = superscript_two
  /\ sort_rows [superscript_row] = Raise (InvalidIntLiteral superscript_two)
  /\ main (sample_fs superscript_graph) (sample_args false)
     = {| events := [];
          outcome := Raise (InvalidIntLiteral superscript_two) |}.
Proof.
  assert (Hs : sort_rows [superscript_row]
               = Raise (InvalidIntLiteral superscript_two)).
  { unfold sort_rows, list_sort, decorate. cbn [mapM].
    change (identifier superscript_row) with superscript_two.
    now rewrite superscript_two_key_raises. }
  split; [| split; [| split; [| split]]].
  - unfold isdigit, superscript_two. cbn [forallb].
    now rewrite superscript_two_isdigit.
  - apply superscript_two_key_raises.
  - reflexivity.
  - exact Hs.
  - apply main_raise. unfold main_rows.
    change (is_dir (sample_fs superscript_graph)
              (examples_dir (sample_args false))) with true.
    cbn [negb]. change (examples_dir (sample_args false)) with sample_dir.
    rewrite find_ttl_files_sample. cbn [bind].
    replace (extend_rows (sample_fs superscript_graph)
               (arg_backend_id (sample_args false)) [] [q7_file])
      with (Ok [superscript_row]) by (vm_compute; reflexivity).
    cbn [bind]. now rewrite Hs.
Qed.
End KeyTotality.


(** * Further properties of the script *)

(** ** What an identifier can be *)

Lemma keep_after_suffix (sep : char) (text : str) :
  exists pre,
    text = pre ++ keep_after sep text
    /\ contains sep (keep_after sep text) = false.
Proof.
  unfold keep_after. destruct (contains sep text) eqn:E.
  - destruct (rsplit_last_spec sep text E) as (pre & Hpre & Hno).
    exists (pre ++ [sep]). split; [| exact Hno].
    rewrite <- app_assoc. exact Hpre.
  - exists []. now split.
Qed.

Lemma extract_identifier_keep_after (subject : Node) (ttl_file : Path) :
  extract_identifier subject ttl_file
  = match keep_after slash (keep_after hash (strip (node_str subject))) with
    | [] => stem ttl_file
    | _ :: _ => keep_after slash (keep_after hash (strip (node_str subject)))
    end.
Proof. reflexivity. Qed.

(** X1: the identifier is the file's stem, or else a non-empty end segment
    of the subject's stripped text in which neither ["#"] nor ["/"]
    occurs. *)
Theorem extract_identifier_segment (subject : Node) (ttl_file : Path) :
  extract_identifier subject ttl_file = stem ttl_file
  \/ (extract_identifier subject ttl_file <> []
      /\ (exists pre,
             strip (node_str subject)
             = pre ++ extract_identifier subject ttl_file)
      /\ contains hash (extract_identifier subject ttl_file) = false
      /\ contains slash (extract_identifier subject ttl_file) = false).
Proof.
  rewrite extract_identifier_keep_after.
  destruct (keep_after_suffix hash (strip (node_str subject)))
    as (pre1 & E1 & H1).
  destruct (keep_after_suffix slash
              (keep_after hash (strip (node_str subject))))
    as (pre2 & E2 & H2).
  rewrite E2, contains_app in H1. apply orb_false_elim in H1.
  destruct H1 as [_ H1]. rewrite E2, app_assoc in E1.
  destruct (keep_after slash (keep_after hash (strip (node_str subject))))
    as [| c rest]; [now left |].
  right. split; [discriminate |]. split; [| split]; eauto.
Qed.

(** ** Names and queries against the order of the graph *)

Lemma find_hd_filter {A} (f : A -> bool) (l : list A) :
  find f l = hd_error (filter f l).
Proof.
  induction l as [| x l IH]; simpl; [reflexivity |].
  now destruct (f x).
Qed.

Lemma filter_perm {A} (f : A -> bool) (l l' : list A) :
  Permutation l l' -> Permutation (filter f l) (filter f l').
Proof.
  induction 1 as [| x l l' _ IH | x y l | l l' l'' _ IH1 _ IH2]; simpl.
  - constructor.
  - destruct (f x); [now constructor | assumption].
  - destruct (f x), (f y); try apply Permutation_refl. apply perm_swap.
  - now apply Permutation_trans with (filter f l').
Qed.

Lemma short_perm {A} (l l' : list A) :
  Permutation l l' -> List.length l <= 1 -> l' = l.
Proof.
  intros P H. destruct l as [| x [| y l]]; simpl in H; [| | lia].
  - now apply Permutation_nil.
  - now apply Permutation_length_1_inv.
Qed.

Lemma objects_perm (graph graph' : Graph) (subject predicate : Node) :
  Permutation graph graph' ->
  Permutation (objects graph subject predicate)
    (objects graph' subject predicate).
Proof.
  intros P. unfold objects. now apply Permutation_map, filter_perm.
Qed.

(** X2: the name is the file's stem or the text of one of the comments
    given that is a literal. *)
Theorem pick_comment_source (comments : list Node) (ttl_file : Path) :
  pick_comment comments ttl_file = stem ttl_file
  \/ exists l,
      In l comments /\ is_Literal l = true
      /\ pick_comment comments ttl_file = node_str l.
Proof.
  rewrite pick_comment_find.
  destruct (find en_tagged comments) as [l |] eqn:E.
  - right. apply find_some in E. destruct E as [Hin Hen]. exists l.
    repeat split; [assumption |].
    destruct l; simpl in *; congruence.
  - destruct (find is_Literal comments) as [l |] eqn:L; [| now left].
    destruct (node_str l) eqn:T; [now left |].
    right. apply find_some in L. destruct L as [Hin Hl]. exists l.
    now rewrite T.
Qed.

(** X3: when a subject has exactly one comment tagged ["en"], or none and
    at most one comment literal, its name does not depend on the order in
    which the graph yields the comments. *)
Theorem pick_comment_order_free (comments comments' : list Node)
    (ttl_file : Path) :
  Permutation comments comments' ->
  List.length (filter en_tagged comments) = 1
  \/ (filter en_tagged comments = []
      /\ List.length (filter is_Literal comments) <= 1) ->
  pick_comment comments' ttl_file = pick_comment comments ttl_file.
Proof.
  intros P H. rewrite !pick_comment_find, !find_hd_filter.
  destruct H as [H | [H1 H2]].
  - rewrite (short_perm _ _ (filter_perm en_tagged _ _ P)) by lia.
    destruct (filter en_tagged comments) as [| l rest]; [discriminate |].
    reflexivity.
  - rewrite (short_perm _ _ (filter_perm en_tagged _ _ P))
      by (rewrite H1; simpl; lia).
    rewrite (short_perm _ _ (filter_perm is_Literal _ _ P)) by assumption.
    reflexivity.
Qed.

Lemma pick_comment_order_free_witness :
  Permutation
    [Literal (lit "Taxa") (Some (lit "de")) None;
     Literal (lit "List of taxa") (Some (lit "en")) None]
    [Literal (lit "List of taxa") (Some (lit "en")) None;
     Literal (lit "Taxa") (Some (lit "de")) None]
  /\ pick_comment
       [Literal (lit "List of taxa") (Some (lit "en")) None;
        Literal (lit "Taxa") (Some (lit "de")) None] q7_file
     = pick_comment
         [Literal (lit "Taxa") (Some (lit "de")) None;
          Literal (lit "List of taxa") (Some (lit "en")) None] q7_file.
Proof.
  split; [apply perm_swap |].
  apply pick_comment_order_free; [apply perm_swap | left; reflexivity].
Defined.

(** X4: when a subject has at most one value for each query predicate, its
    query does not depend on the order in which the graph yields its
    triples. *)
Theorem pick_query_order_free (graph graph' : Graph) (subject : Node)
    (ttl_file : Path) :
  Permutation graph graph' ->
  Forall (fun predicate => List.length (objects graph subject predicate) <= 1)
    QUERY_PREDICATES ->
  pick_query graph' subject ttl_file = pick_query graph subject ttl_file.
Proof.
  intros P H. rewrite !pick_query_cases.
  inversion H as [| ? ? H1 T1]; subst. inversion T1 as [| ? ? H2 T2]; subst.
  inversion T2 as [| ? ? H3 T3]; subst. inversion T3 as [| ? ? H4 _]; subst.
  rewrite (short_perm _ _ (objects_perm _ _ subject SH_select P) H1).
  rewrite (short_perm _ _ (objects_perm _ _ subject SH_ask P) H2).
  rewrite (short_perm _ _ (objects_perm _ _ subject SH_construct P) H3).
  rewrite (short_perm _ _ (objects_perm _ _ subject SPEX_describe P) H4).
  reflexivity.
Qed.

Lemma pick_query_order_free_witness :
  Permutation sample_graph (rev sample_graph)
  /\ Forall
       (fun predicate => List.length (objects sample_graph sample_subject predicate)
                         <= 1)
       QUERY_PREDICATES
  /\ pick_query (rev sample_graph) sample_subject q7_file
     = pick_query sample_graph sample_subject q7_file.
Proof.
  assert (H : Forall
                (fun predicate =>
                   List.length (objects sample_graph sample_subject predicate) <= 1)
                QUERY_PREDICATES)
    by (repeat constructor).
  split; [apply Permutation_rev | split; [exact H |]].
  apply pick_query_order_free; [apply Permutation_rev | exact H].
Defined.

(** ** When a file gives rows *)

Lemma pick_query_ok_iff (graph : Graph) (subject : Node) (ttl_file : Path) :
  (exists text, pick_query graph subject ttl_file = Ok text)
  <-> Exists (fun predicate => objects graph subject predicate <> [])
        QUERY_PREDICATES.
Proof.
  split.
  - intros [text H]. apply pick_query_ok in H.
    destruct H as (before & p & after & l & others & E & _ & Hp & _).
    rewrite E. apply Exists_app. right. left. rewrite Hp. discriminate.
  - intros H.
    destruct (pick_query graph subject ttl_file) as [text | e] eqn:E;
      [eauto |].
    apply pick_query_raise in E. destruct E as [_ E].
    apply Exists_exists in H. destruct H as (p & Hin & Hp).
    rewrite Forall_forall in E. now destruct (Hp (E p Hin)).
Qed.

Lemma mapM_ok_iff {A B} (f : A -> result B) (l : list A) :
  (exists ys, mapM f l = Ok ys) <-> Forall (fun x => exists y, f x = Ok y) l.
Proof.
  split.
  - intros [ys H]. apply mapM_Forall2 in H.
    induction H; constructor; eauto.
  - intros H. apply mapM_ok. now apply Forall_forall.
Qed.

(** X5: a file that does not load makes [iter_examples] raise what the
    loader raised; a file that loads gives rows exactly when every
    executable subject of its graph has a value for at least one of the four
    query predicates, and then one row for each such subject. *)
Theorem iter_examples_outcome (fs : FileSystem) (ttl_file : Path)
    (backend : Z) :
  match parse fs ttl_file with
  | Raise e => iter_examples fs ttl_file backend = Raise e
  | Ok graph =>
      ((exists rows, iter_examples fs ttl_file backend = Ok rows)
       <-> Forall
             (fun subject =>
                Exists (fun predicate => objects graph subject predicate <> [])
                  QUERY_PREDICATES)
             (subjects graph RDF_type SH_SPARQLExecutable))
      /\ (forall rows,
             iter_examples fs ttl_file backend = Ok rows ->
             List.length rows
             = List.length (subjects graph RDF_type SH_SPARQLExecutable)
             /\ List.map identifier rows
                = List.map (fun subject => extract_identifier subject ttl_file)
                    (subjects graph RDF_type SH_SPARQLExecutable))
  end.
Proof.
  unfold iter_examples. destruct (parse fs ttl_file) as [graph | e];
    cbn [bind]; [| reflexivity].
  split.
  - rewrite mapM_ok_iff. split; apply Forall_impl; intros subject.
    + intros [row H]. apply pick_query_ok_iff with (ttl_file := ttl_file).
      unfold example_of in H.
      destruct (pick_query graph subject ttl_file) as [text |]; eauto.
      discriminate.
    + intros H. apply pick_query_ok_iff with (ttl_file := ttl_file) in H.
      destruct H as [text H]. unfold example_of. rewrite H. cbn [bind].
      eauto.
  - intros rows H. apply mapM_Forall2 in H.
    induction H as [| subject row subjects rows Hrow _ [IH1 IH2]];
      [now split |].
    cbn [List.length List.map]. rewrite IH1, IH2. split; [reflexivity |].
    f_equal. unfold example_of in Hrow.
    destruct (pick_query graph subject ttl_file); cbn [bind] in Hrow;
      [| discriminate].
    now injection Hrow as <-.
Qed.

(** ** What [main] collects *)

Lemma extend_rows_concat (fs : FileSystem) (backend : Z)
    (ttl_files : list Path) (rows : list ExampleRow) :
  extend_rows fs backend rows ttl_files
  = (per_file <- mapM (fun f => iter_examples fs f backend) ttl_files ;;
     Ok (rows ++ List.concat per_file)).
Proof.
  revert rows. induction ttl_files as [| f rest IH]; intros rows; simpl.
  - now rewrite app_nil_r.
  - destruct (iter_examples fs f backend) as [new |]; cbn [bind];
      [| reflexivity].
    rewrite IH.
    destruct (mapM (fun f => iter_examples fs f backend) rest);
      cbn [bind List.concat]; [| reflexivity].
    now rewrite app_assoc.
Qed.

Section Collect.
Context {U : UnicodeData} {host : Host}.

Lemma sort_rows_inv (rows sorted : list ExampleRow) :
  sort_rows rows = Ok sorted ->
  (forall row, In row rows -> exists k, row_key row = Ok k)
  /\ Permutation rows sorted
  /\ StronglySorted row_le sorted
  /\ (forall k, filter (has_key row_key key_eqb k) sorted
                = filter (has_key row_key key_eqb k) rows).
Proof.
  intros H.
  assert (Hk : forall row, In row rows -> exists k, row_key row = Ok k).
  { unfold sort_rows, list_sort in H.
    destruct (decorate (fun row => natural_sort_key (identifier row)) rows)
      as [d |] eqn:D; cbn [bind] in H; [| discriminate].
    apply decorate_spec in D. destruct D as [<- D].
    intros row Hrow. apply in_map_iff in Hrow.
    destruct Hrow as (kx & <- & Hin). rewrite Forall_forall in D.
    exists (fst kx). now apply D. }
  split; [exact Hk |].
  destruct (sort_rows_spec rows Hk) as (sorted' & E & P & S & St).
  rewrite H in E. injection E as <-. now repeat split.
Qed.

Lemma main_rows_inv (fs : FileSystem) (args : Args) (rows : list ExampleRow) :
  main_rows fs args = Ok rows ->
  exists ttl_files per_file sorted,
    is_dir fs (examples_dir args) = true
    /\ find_ttl_files fs (examples_dir args) = Ok ttl_files
    /\ ttl_files <> []
    /\ mapM (fun f => iter_examples fs f (arg_backend_id args)) ttl_files
       = Ok per_file
    /\ sort_rows (List.concat per_file) = Ok sorted
    /\ rows = (if prefix_id_in_title args then List.map prefix_name sorted
               else sorted).
Proof.
  unfold main_rows.
  destruct (is_dir fs (examples_dir args)); cbn [negb]; [| discriminate].
  destruct (find_ttl_files fs (examples_dir args)) as [files |];
    cbn [bind]; [| discriminate].
  destruct files as [| f rest]; [discriminate |].
  rewrite extend_rows_concat.
  destruct (mapM (fun f => iter_examples fs f (arg_backend_id args))
              (f :: rest)) as [per_file |] eqn:M; cbn [bind];
    [| discriminate].
  cbn [app].
  destruct (sort_rows (List.concat per_file)) as [sorted |] eqn:S; cbn [bind];
    [| discriminate].
  intros [= <-]. exists (f :: rest), per_file, sorted.
  split; [reflexivity | split; [reflexivity | split; [discriminate |]]].
  split; [exact M | split; [exact S | reflexivity]].
Qed.


(** The files [main] reads: the entries that pass its test, by name. *)
Lemma find_ttl_files_sorted (fs : FileSystem) (dir : Path) :
  exists ttl_files,
    find_ttl_files fs dir = Ok ttl_files
    /\ Permutation (filter (is_ttl_file fs) (iterdir fs dir)) ttl_files
    /\ StronglySorted
         (fun a b => str_ltb (path_name b) (path_name a) = false) ttl_files.
Proof.
  destruct (list_sort_spec Path str (fun path => Ok (path_name path))
              (fun a b => Ok (str_ltb a b)) (fun _ => True) str_ltb
              (fun _ _ _ => I) (fun _ _ _ _ => eq_refl)
              (fun a b _ _ => str_ltb_asym a b)
              (fun a b c _ _ _ => str_le_trans a b c)
              str_eqb (fun a b H => proj1 (str_eqb_eq a b) H)
              (fun a _ => str_ltb_irrefl a)
              (filter (is_ttl_file fs) (iterdir fs dir)))
    as (files & E & P & S & _).
  - intros x _. eauto.
  - exists files. split; [exact E | split; [exact P |]].
    revert S. apply StronglySorted_impl.
    intros a b (ka & kb & [= <-] & [= <-] & H). exact H.
Qed.
End Collect.

Lemma Forall2_In_r {A B} (R : A -> B -> Prop) (l : list A) (l' : list B)
    (y : B) :
  Forall2 R l l' -> In y l' -> exists x, In x l /\ R x y.
Proof.
  induction 1 as [| a b l l' Hab _ IH]; simpl; [contradiction |].
  intros [<- | Hin]; [eauto |].
  destruct (IH Hin) as (x & Hx & Hr). eauto.
Qed.

Lemma iter_examples_row (fs : FileSystem) (ttl_file : Path) (backend : Z)
    (rows : list ExampleRow) (row : ExampleRow) :
  iter_examples fs ttl_file backend = Ok rows -> In row rows ->
  backend_id row = backend
  /\ (path_name ttl_file <> [] -> identifier row <> []).
Proof.
  unfold iter_examples. destruct (parse fs ttl_file) as [graph |];
    cbn [bind]; [| discriminate].
  intros H Hin. apply mapM_Forall2 in H.
  destruct (Forall2_In_r _ _ _ _ H Hin) as (subject & _ & Hrow).
  unfold example_of in Hrow.
  destruct (pick_query graph subject ttl_file); cbn [bind] in Hrow;
    [| discriminate].
  injection Hrow as <-. cbn [backend_id identifier].
  split; [reflexivity |]. intros Hn. now apply extract_identifier_nonempty.
Qed.

Lemma iter_examples_graph (fs : FileSystem) (ttl_file : Path) (backend : Z)
    (rows : list ExampleRow) :
  iter_examples fs ttl_file backend = Ok rows ->
  exists graph,
    parse fs ttl_file = Ok graph
    /\ List.length rows
       = List.length (subjects graph RDF_type SH_SPARQLExecutable).
Proof.
  unfold iter_examples. destruct (parse fs ttl_file) as [graph |];
    cbn [bind]; [| discriminate].
  intros H. exists graph. split; [reflexivity |].
  apply mapM_Forall2 in H. induction H; simpl; congruence.
Qed.

Lemma length_concat_sum {A} (ls : list (list A)) :
  List.length (List.concat ls) = list_sum (List.map (@List.length A) ls).
Proof.
  induction ls as [| l ls IH]; simpl; [reflexivity |].
  now rewrite length_app, IH.
Qed.

Section Rows.
Context {U : UnicodeData} {host : Host}.

Lemma is_ttl_file_name (fs : FileSystem) (path : Path) :
  is_ttl_file fs path = true -> path_name path <> [].
Proof.
  unfold is_ttl_file. intros H. apply andb_prop in H. destruct H as [_ H].
  apply str_eqb_eq in H. apply suffix_nonempty_name.
  now apply lower_nil_inv.
Qed.


(** X7: the number of rows [main] writes is the number of executable
    subjects in the graphs of the files it reads: no subject is dropped,
    none gives two rows. *)
Theorem main_row_count (fs : FileSystem) (args : Args)
    (rows : list ExampleRow) :
  main_rows fs args = Ok rows ->
  exists ttl_files graphs,
    find_ttl_files fs (examples_dir args) = Ok ttl_files
    /\ Forall2 (fun f graph => parse fs f = Ok graph) ttl_files graphs
    /\ List.length rows
       = list_sum
           (List.map
              (fun graph =>
                 List.length (subjects graph RDF_type SH_SPARQLExecutable))
              graphs).
Proof.
  intros H. destruct (main_rows_inv fs args rows H)
    as (files & per_file & sorted & _ & Hf & _ & Hm & Hs & ->).
  destruct (sort_rows_inv _ _ Hs) as (_ & Ps & _).
  apply mapM_Forall2 in Hm.
  assert (G : exists graphs,
             Forall2 (fun f graph => parse fs f = Ok graph) files graphs
             /\ List.map (@List.length ExampleRow) per_file
                = List.map
                    (fun graph =>
                       List.length
                         (subjects graph RDF_type SH_SPARQLExecutable))
                    graphs).
  { clear - Hm. induction Hm as [| f rows_f files per_file Hf _ IH].
    - exists []. split; constructor.
    - destruct IH as (graphs & F & E).
      destruct (iter_examples_graph _ _ _ _ Hf) as (graph & Hp & Hl).
      exists (graph :: graphs). split; [now constructor |].
      simpl. now rewrite Hl, E. }
  destruct G as (graphs & F & E). exists files, graphs.
  split; [exact Hf | split; [exact F |]].
  rewrite <- E, <- length_concat_sum.
  rewrite (Permutation_length Ps).
  destruct (prefix_id_in_title args); [apply length_map | reflexivity].
Qed.
End Rows.


Lemma main_row_count_witness :
  @main_rows latin1 (sample_fs sample_graph) (sample_args true)
  = Ok [prefix_name sample7]
  /\ exists ttl_files graphs,
      @find_ttl_files latin1 (sample_fs sample_graph)
        (examples_dir (sample_args true)) = Ok ttl_files
      /\ Forall2 (fun f graph => parse (sample_fs sample_graph) f = Ok graph)
           ttl_files graphs
      /\ List.length [prefix_name sample7]
         = list_sum
             (List.map
                (fun graph =>
                   List.length (subjects graph RDF_type SH_SPARQLExecutable))
                graphs).
Proof.
  assert (H : @main_rows latin1 (sample_fs sample_graph) (sample_args true)
              = Ok [prefix_name sample7]) by (vm_compute; reflexivity).
  split; [exact H |].
  exact (@main_row_count latin1 (sample_fs sample_graph) (sample_args true)
           [prefix_name sample7] H).
Defined.

Section RowInvariants.
Context {U : UnicodeData} {host : Host}.

(** Where a row of the sorted list comes from. *)
Lemma collected_row_source (fs : FileSystem) (args : Args)
    (ttl_files : list Path) (per_file : list (list ExampleRow))
    (sorted : list ExampleRow) (row : ExampleRow) :
  find_ttl_files fs (examples_dir args) = Ok ttl_files ->
  mapM (fun f => iter_examples fs f (arg_backend_id args)) ttl_files
  = Ok per_file ->
  sort_rows (List.concat per_file) = Ok sorted ->
  In row sorted ->
  exists ttl_file rows_f,
    In ttl_file (iterdir fs (examples_dir args))
    /\ is_ttl_file fs ttl_file = true
    /\ iter_examples fs ttl_file (arg_backend_id args) = Ok rows_f
    /\ In row rows_f.
Proof.
  intros Hf Hm Hs Hin.
  destruct (sort_rows_inv _ _ Hs) as (_ & Ps & _).
  apply (Permutation_in _ (Permutation_sym Ps)) in Hin.
  apply in_concat in Hin. destruct Hin as (rows_f & Hl & Hrow).
  apply mapM_Forall2 in Hm.
  destruct (Forall2_In_r _ _ _ _ Hm Hl) as (f & Hfin & Hit).
  destruct (find_ttl_files_sorted fs (examples_dir args))
    as (files' & Hf' & P & _).
  rewrite Hf in Hf'. injection Hf' as <-.
  apply (Permutation_in _ (Permutation_sym P)) in Hfin.
  apply filter_In in Hfin. destruct Hfin as [Hdir Httl].
  exists f, rows_f. now repeat split.
Qed.

Lemma StronglySorted_prefix_name (rows : list ExampleRow) :
  StronglySorted row_le rows ->
  StronglySorted row_le (List.map prefix_name rows).
Proof.
  induction 1 as [| a l _ IH Hall]; simpl; constructor; [exact IH |].
  rewrite Forall_map. revert Hall. apply Forall_impl.
  intros b H. exact H.
Qed.

(** X8: every row [main] writes carries the backend identifier of the
    command line and an identifier that is not empty, and the rows are in
    the order of their sort keys, with [--prefix-id-in-title] and
    without. *)
Theorem main_rows_invariants (fs : FileSystem) (args : Args)
    (rows : list ExampleRow) :
  main_rows fs args = Ok rows ->
  Forall (fun row => backend_id row = arg_backend_id args
                     /\ identifier row <> []) rows
  /\ StronglySorted row_le rows.
Proof.
  intros H. destruct (main_rows_inv fs args rows H)
    as (files & per_file & sorted & _ & Hf & _ & Hm & Hs & ->).
  assert (F : Forall (fun row => backend_id row = arg_backend_id args
                                 /\ identifier row <> []) sorted).
  { apply Forall_forall. intros row Hin.
    destruct (collected_row_source fs args files per_file sorted row
                Hf Hm Hs Hin) as (f & rows_f & _ & Httl & Hit & Hrow).
    destruct (iter_examples_row _ _ _ _ _ Hit Hrow) as [Hb Hi].
    split; [exact Hb |]. apply Hi. now apply (is_ttl_file_name fs). }
  destruct (sort_rows_inv _ _ Hs) as (_ & _ & Ss & _).
  destruct (prefix_id_in_title args).
  - split; [| now apply StronglySorted_prefix_name].
    rewrite Forall_map. revert F. apply Forall_impl.
    intros row Hrow. exact Hrow.
  - now split.
Qed.
End RowInvariants.

Lemma main_rows_invariants_witness :
  @main_rows latin1 (sample_fs sample_graph) (sample_args true)
  = Ok [prefix_name sample7]
  /\ Forall (fun row => backend_id row = 69%Z /\ identifier row <> [])
       [prefix_name sample7]
  /\ StronglySorted (@row_le latin1) [prefix_name sample7].
Proof.
  assert (H : @main_rows latin1 (sample_fs sample_graph) (sample_args true)
              = Ok [prefix_name sample7]) by (vm_compute; reflexivity).
  split; [exact H |].
  exact (@main_rows_invariants latin1 (sample_fs sample_graph)
           (sample_args true) [prefix_name sample7] H).
Defined.

(** ** Operations that may fail *)

Section PerformFacts.
Context {host : Host}.

Lemma accepted_nil (done : list Event) : accepted done [].
Proof. intros pre op post E. now destruct pre. Qed.

Lemma accepted_cons (done : list Event) (op : Event) (ops : list Event) :
  accepted done (op :: ops)
  <-> failure done op = None /\ accepted (done ++ [op]) ops.
Proof.
  split.
  - intros A. split.
    + specialize (A [] op ops eq_refl). now rewrite app_nil_r in A.
    + intros pre op' post E. rewrite <- app_assoc. cbn [app].
      apply (A (op :: pre) op' post). now rewrite E.
  - intros [F A] pre op' post E. destruct pre as [| x pre].
    + cbn [app] in E. injection E as <- <-. now rewrite app_nil_r.
    + cbn [app] in E. injection E as <- E.
      specialize (A pre op' post E). rewrite <- app_assoc in A. exact A.
Qed.


(** When nothing fails, every operation is made and [main] returns 0. *)
Lemma perform_accepted (done ops : list Event) :
  accepted done ops ->
  perform done (List.map Ok ops)
  = {| events := done ++ ops; outcome := Ok 0%Z |}.
Proof.
  revert done. induction ops as [| op ops IH]; intros done A;
    cbn [perform List.map].
  - now rewrite app_nil_r.
  - apply accepted_cons in A. destruct A as [F A]. rewrite F, (IH _ A).
    now rewrite <- app_assoc.
Qed.

(** A run stops at the first step that fails, with its error. *)
Lemma perform_cases (done : list Event) (steps : list (result Event)) :
  (exists ops,
      steps = List.map Ok ops
      /\ accepted done ops
      /\ perform done steps
         = {| events := done ++ ops; outcome := Ok 0%Z |})
  \/ (exists pre step post e,
         steps = List.map Ok pre ++ step :: post
         /\ accepted done pre
         /\ stops (done ++ pre) step e
         /\ perform done steps
            = {| events := done ++ pre; outcome := Raise e |}).
Proof.
  revert done. induction steps as [| step steps IH]; intros done.
  - left. exists []. rewrite app_nil_r.
    split; [reflexivity | split; [apply accepted_nil | reflexivity]].
  - destruct step as [op | e].
    + cbn [perform]. destruct (failure done op) as [e |] eqn:F.
      * right. exists [], (Ok op), steps, e. rewrite app_nil_r.
        split; [reflexivity | split; [apply accepted_nil | now split]].
      * destruct (IH (done ++ [op]))
          as [(ops & E & A & P) | (pre & x & post & e & E & A & Fx & P)].
        -- left. exists (op :: ops). split; [now rewrite E |].
           split; [apply accepted_cons; now split |].
           rewrite P. now rewrite <- app_assoc.
        -- right. exists (op :: pre), x, post, e.
           split; [now rewrite E |].
           split; [apply accepted_cons; now split |].
           rewrite <- app_assoc in Fx, P. now split.
    + right. exists [], (Raise e), steps, e. rewrite app_nil_r.
      split; [reflexivity | split; [apply accepted_nil | now split]].
Qed.

Lemma perform_ok_inv (done : list Event) (steps : list (result Event))
    (code : Z) :
  outcome (perform done steps) = Ok code ->
  code = 0%Z
  /\ exists ops,
      steps = List.map Ok ops
      /\ accepted done ops
      /\ events (perform done steps) = done ++ ops.
Proof.
  destruct (perform_cases done steps)
    as [(ops & E & A & P) | (pre & step & post & e & _ & _ & _ & P)];
    rewrite P; cbn [outcome events]; [| discriminate].
  intros [= <-]. split; [reflexivity |]. now exists ops.
Qed.

(** What was done is always an initial part of what was to be done. *)
Lemma perform_prefix (done : list Event) (steps : list (result Event)) :
  exists made rest,
    steps = List.map Ok made ++ rest
    /\ accepted done made
    /\ events (perform done steps) = done ++ made
    /\ (rest = [] <-> outcome (perform done steps) = Ok 0%Z).
Proof.
  destruct (perform_cases done steps)
    as [(ops & E & A & P) | (pre & step & post & e & E & A & _ & P)];
    rewrite P; cbn [events outcome].
  - exists ops, []. rewrite app_nil_r. repeat split; auto.
  - exists pre, (step :: post). repeat split; auto; discriminate.
Qed.

Lemma map_Ok_inj {A} (l l' : list A) :
  List.map (@Ok A) l = List.map (@Ok A) l' -> l = l'.
Proof.
  revert l'. induction l as [| x l IH]; intros [| y l'] E;
    try discriminate; [reflexivity |].
  cbn [List.map] in E. injection E as <- E. f_equal. now apply IH.
Qed.
End PerformFacts.

(** ** UTF-8 *)

Lemma utf8_from_ok (object : str) (start : Z) (text : str) :
  forallb utf8_encodable text = true ->
  utf8_from object start text = Ok (utf8_bytes text).
Proof.
  revert start. induction text as [| c rest IH]; intros start;
    cbn [forallb utf8_from]; [reflexivity |].
  intros H. apply andb_prop in H. destruct H as [Hc Hrest].
  rewrite Hc, (IH _ Hrest). reflexivity.
Qed.

Lemma utf8_from_ok_inv (object : str) (start : Z) (text : str)
    (encoded : bytes) :
  utf8_from object start text = Ok encoded ->
  forallb utf8_encodable text = true /\ encoded = utf8_bytes text.
Proof.
  revert start encoded. induction text as [| c rest IH];
    intros start encoded; cbn [forallb utf8_from].
  - intros [= <-]. now split.
  - destruct (utf8_encodable c); [| discriminate].
    destruct (utf8_from object (start + 1) rest) as [bs |] eqn:E;
      cbn [bind]; [| discriminate].
    intros [= <-]. destruct (IH _ _ E) as [Hrest ->]. now split.
Qed.

Lemma utf8_encode_ok_iff (text : str) :
  utf8_encode text = Ok (utf8_bytes text)
  <-> forallb utf8_encodable text = true.
Proof.
  split.
  - intros H. now apply utf8_from_ok_inv in H.
  - apply utf8_from_ok.
Qed.


(** The text up to the first character UTF-8 does not encode is what the
    error reports. *)
Lemma utf8_from_raise_inv (object : str) (start : Z) (text : str)
    (e : PyExc) :
  utf8_from object start text = Raise e ->
  exists pre c post,
    text = pre ++ c :: post
    /\ forallb utf8_encodable pre = true
    /\ utf8_encodable c = false
    /\ e = UnicodeEncodeError (lit "utf-8") object (start + len pre).
Proof.
  revert start. induction text as [| c rest IH]; intros start;
    cbn [utf8_from]; [discriminate |].
  destruct (utf8_encodable c) eqn:Hc.
  - destruct (utf8_from object (start + 1) rest) as [bs |] eqn:E;
      cbn [bind]; [discriminate |].
    intros [= <-]. destruct (IH _ E) as (pre & x & post & -> & Hp & Hx & ->).
    exists (c :: pre), x, post. cbn [forallb]. rewrite Hc, Hp.
    repeat split; try assumption. f_equal. unfold len.
    cbn [List.length]. lia.
  - intros [= <-]. exists [], c, rest. repeat split; try assumption.
    f_equal. unfold len. simpl. lia.
Qed.

(** ** Records *)

Lemma py_str_int_ok (n : Z) :
  (int_digits n <= int_max_str_digits)%Z -> py_str_int n = Ok (str_of_int n).
Proof.
  intros H. unfold py_str_int.
  replace (int_max_str_digits <? int_digits n)%Z with false
    by (symmetry; now apply Z.ltb_ge).
  reflexivity.
Qed.

Lemma py_str_int_inv (n : Z) (text : str) :
  py_str_int n = Ok text ->
  text = str_of_int n /\ (int_digits n <= int_max_str_digits)%Z.
Proof.
  unfold py_str_int.
  destruct (int_max_str_digits <? int_digits n)%Z eqn:L; [discriminate |].
  intros [= <-]. split; [reflexivity | now apply Z.ltb_ge].
Qed.

Lemma py_str_int_raise (n : Z) (e : PyExc) :
  py_str_int n = Raise e ->
  e = StrDigitLimit int_max_str_digits
  /\ (int_max_str_digits < int_digits n)%Z.
Proof.
  unfold py_str_int.
  destruct (int_max_str_digits <? int_digits n)%Z eqn:L; [| discriminate].
  intros [= <-]. split; [reflexivity | now apply Z.ltb_lt].
Qed.

(** [as_csv_row] returns the six fields of the row, or raises the error
    of [str] on a backend id of too many digits. *)
Lemma as_csv_row_cases (row : ExampleRow) (include_identifier : bool) :
  (as_csv_row row include_identifier
   = Ok (row_fields row include_identifier)
   /\ (int_digits (backend_id row) <= int_max_str_digits)%Z)
  \/ (as_csv_row row include_identifier
      = Raise (StrDigitLimit int_max_str_digits)
      /\ (int_max_str_digits < int_digits (backend_id row))%Z).
Proof.
  unfold as_csv_row, py_str_int, row_fields.
  destruct (int_max_str_digits <? int_digits (backend_id row))%Z eqn:L;
    cbn [bind].
  - right. split; [reflexivity | now apply Z.ltb_lt].
  - left. split; [reflexivity | now apply Z.ltb_ge].
Qed.

(** A list of steps of which each, when it is an operation, is the one of
    [ideal] at its place: the operations made are an initial part of
    [ideal]. *)
Lemma made_prefix (steps : list (result Event)) (ideal made : list Event)
    (rest : list (result Event)) :
  Forall2 (fun step op => forall op', step = Ok op' -> op' = op) steps ideal ->
  steps = List.map Ok made ++ rest ->
  exists rest', ideal = made ++ rest'.
Proof.
  intros F. revert made. induction F as [| step op steps ideal R _ IH];
    intros made E.
  - destruct made; [now exists [] | discriminate].
  - destruct made as [| m made]; [now eexists |].
    cbn [List.map app] in E. injection E as -> E.
    destruct (IH made E) as [rest' ->]. rewrite (R m eq_refl).
    now exists rest'.
Qed.

(** ** The output of a run *)

Section Output.
Context {U : UnicodeData} {host : Host}.

Lemma main_ok (fs : FileSystem) (args : Args) (rows : list ExampleRow) :
  main_rows fs args = Ok rows ->
  main fs args = perform [] (write_csv args rows).
Proof. intros H. unfold main. now rewrite H. Qed.

(** Every row of a run carries the backend id of the command line. *)
Lemma main_rows_backend (fs : FileSystem) (args : Args)
    (rows : list ExampleRow) :
  main_rows fs args = Ok rows ->
  Forall (fun row => backend_id row = arg_backend_id args) rows.
Proof.
  intros H. destruct (main_rows_inv fs args rows H)
    as (files & per_file & sorted & _ & Hf & _ & Hm & Hs & ->).
  assert (F : Forall (fun row => backend_id row = arg_backend_id args)
                sorted).
  { apply Forall_forall. intros row Hin.
    destruct (collected_row_source fs args files per_file sorted row
                Hf Hm Hs Hin) as (f & rows_f & _ & _ & Hit & Hrow).
    now destruct (iter_examples_row _ _ _ _ _ Hit Hrow). }
  destruct (prefix_id_in_title args); [| exact F].
  rewrite Forall_map. revert F. apply Forall_impl. intros row Hrow.
  exact Hrow.
Qed.

Lemma write_csv_steps (args : Args) (rows : list ExampleRow) :
  write_csv args rows
  = List.map Ok (opening args)
    ++ Ok (Write (destination args) (writerow HEADER))
    :: List.map
         (fun row =>
            fields <- as_csv_row row (negb (prefix_id_in_title args)) ;;
            Ok (Write (destination args) (writerow fields)))
         rows
    ++ List.map Ok (closing args).
Proof.
  unfold write_csv, opening, closing, destination.
  now destruct (output args).
Qed.

(** Each step of [write_csv], when it is an operation, is the operation
    that writes the fields of the row. *)
Lemma write_csv_ideal (args : Args) (rows : list ExampleRow) :
  Forall2 (fun step op => forall op', step = Ok op' -> op' = op)
    (write_csv args rows)
    (csv_operations args
       (List.map (fun row => row_fields row (negb (prefix_id_in_title args)))
          rows)).
Proof.
  rewrite write_csv_steps. unfold csv_operations.
  apply Forall2_app.
  { induction (opening args) as [| op ops IH]; constructor; [| exact IH].
    now intros op' [= <-]. }
  constructor; [now intros op' [= <-] |].
  apply Forall2_app.
  - induction rows as [| row rows IH]; constructor; [| exact IH].
    intros op' E.
    destruct (as_csv_row_cases row (negb (prefix_id_in_title args)))
      as [[C _] | [C _]]; rewrite C in E; cbn [bind] in E; [| discriminate].
    now injection E as <-.
  - induction (closing args) as [| op ops IH]; constructor; [| exact IH].
    now intros op' [= <-].
Qed.

(** When the backend ids convert, no step fails before its operation. *)
Lemma write_csv_operations (args : Args) (rows : list ExampleRow) :
  Forall (fun row => (int_digits (backend_id row) <= int_max_str_digits)%Z)
    rows ->
  write_csv args rows
  = List.map Ok
      (csv_operations args
         (List.map
            (fun row => row_fields row (negb (prefix_id_in_title args)))
            rows)).
Proof.
  intros F. rewrite write_csv_steps. unfold csv_operations.
  rewrite map_app. cbn [List.map]. rewrite map_app. f_equal. f_equal.
  f_equal. rewrite !map_map. apply map_ext_in. intros row Hrow.
  rewrite Forall_forall in F.
  destruct (as_csv_row_cases row (negb (prefix_id_in_title args)))
    as [[-> _] | [_ L]]; [reflexivity |].
  specialize (F row Hrow). lia.
Qed.

(** The steps are all operations exactly when the backend ids convert,
    and they are then the operations that write the fields of the rows. *)
Lemma write_csv_all_ok (args : Args) (rows : list ExampleRow)
    (ops : list Event) :
  write_csv args rows = List.map Ok ops
  <-> Forall
        (fun row => (int_digits (backend_id row) <= int_max_str_digits)%Z)
        rows
      /\ ops
         = csv_operations args
             (List.map
                (fun row => row_fields row (negb (prefix_id_in_title args)))
                rows).
Proof.
  split.
  - intros E.
    assert (F : Forall
                  (fun row =>
                     (int_digits (backend_id row) <= int_max_str_digits)%Z)
                  rows).
    { apply Forall_forall. intros row Hrow.
      assert (Hin : In (fields <- as_csv_row row
                                    (negb (prefix_id_in_title args)) ;;
                        Ok (Write (destination args) (writerow fields)))
                      (List.map Ok ops)).
      { rewrite <- E, write_csv_steps. apply in_or_app. right. right.
        apply in_or_app. left.
        apply (in_map (fun row =>
                         fields <- as_csv_row row
                                     (negb (prefix_id_in_title args)) ;;
                         Ok (Write (destination args) (writerow fields)))).
        exact Hrow. }
      apply in_map_iff in Hin. destruct Hin as (op & Hop & _).
      destruct (as_csv_row_cases row (negb (prefix_id_in_title args)))
        as [[_ L] | [C _]]; [exact L |].
      rewrite C in Hop. discriminate. }
    split; [exact F |].
    rewrite (write_csv_operations args rows F) in E.
    now apply map_Ok_inj in E.
  - intros [F ->]. now apply write_csv_operations.
Qed.


End Output.



(** ** The prefix flag *)

Section Prefix.
Context {U : UnicodeData} {host : Host}.

Lemma main_rows_with_prefix (fs : FileSystem) (args : Args) (flag : bool) :
  main_rows fs (with_prefix flag args)
  = (rows <- main_rows fs (with_prefix false args) ;;
     Ok (if flag then List.map prefix_name rows else rows)).
Proof.
  unfold main_rows. cbn [with_prefix examples_dir arg_backend_id
                           prefix_id_in_title].
  destruct (is_dir fs (examples_dir args)); [| reflexivity]. cbn [negb].
  destruct (find_ttl_files fs (examples_dir args)) as [files |];
    [| reflexivity].
  cbn [bind]. destruct files as [| f rest]; [reflexivity |].
  destruct (extend_rows fs (arg_backend_id args) [] (f :: rest));
    [| reflexivity].
  cbn [bind]. now destruct (sort_rows a).
Qed.

Lemma with_prefix_same (args : Args) :
  with_prefix (prefix_id_in_title args) args = args.
Proof. now destruct args. Qed.

(** C6: with [--prefix-id-in-title] the rows are those of the run without
    the flag, in the same order (the sort has read the identifiers before
    any name is rewritten, and the rewriting leaves identifiers alone),
    each with the name ["ex:" + identifier + " " + name]; and every data
    record is written with an empty first field: the steps of the run are
    those below, taken up to the first that fails, and all of them are
    operations that are made when the backend id has no more digits than
    [str] converts and none of the operations fails. *)
Theorem prefix_id_in_title_rewrites (fs : FileSystem) (args : Args) :
  prefix_id_in_title args = true ->
  main_rows fs args
  = (rows <- main_rows fs (with_prefix false args) ;;
     Ok (List.map prefix_name rows))
  /\ (forall row,
         name (prefix_name row)
         = lit "ex:" ++ identifier row ++ lit " " ++ name row
         /\ identifier (prefix_name row) = identifier row
         /\ backend_id (prefix_name row) = backend_id row
         /\ query (prefix_name row) = query row)
  /\ (forall plain,
         main_rows fs (with_prefix false args) = Ok plain ->
         List.map identifier (List.map prefix_name plain)
         = List.map identifier plain
         /\ main fs args
            = perform []
                (List.map Ok (opening args)
                 ++ Ok (Write (destination args) (writerow HEADER))
                 :: List.map
                      (fun row =>
                         backend <- py_str_int (backend_id row) ;;
                         Ok (Write (destination args)
                               (writerow
                                  [lit ""; backend;
                                   lit "ex:" ++ identifier row ++ lit " "
                                     ++ name row;
                                   query row; lit ""; lit "~"])))
                      plain
                 ++ List.map Ok (closing args))
         /\ ((int_digits (arg_backend_id args) <= int_max_str_digits)%Z ->
             accepted []
               (opening args
                ++ Write (destination args) (writerow HEADER)
                :: List.map
                     (fun row =>
                        Write (destination args)
                          (writerow
                             [lit ""; str_of_int (backend_id row);
                              lit "ex:" ++ identifier row ++ lit " "
                                ++ name row;
                              query row; lit ""; lit "~"]))
                     plain
                ++ closing args) ->
             main fs args
             = {| events :=
                    opening args
                    ++ Write (destination args) (writerow HEADER)
                    :: List.map
                         (fun row =>
                            Write (destination args)
                              (writerow
                                 [lit ""; str_of_int (backend_id row);
                                  lit "ex:" ++ identifier row ++ lit " "
                                    ++ name row;
                                  query row; lit ""; lit "~"]))
                         plain
                    ++ closing args;
                  outcome := Ok 0%Z |})).
Proof.
  intros Hflag.
  assert (E : main_rows fs args
              = (rows <- main_rows fs (with_prefix false args) ;;
                 Ok (List.map prefix_name rows))).
  { rewrite <- (with_prefix_same args) at 1. rewrite Hflag.
    apply main_rows_with_prefix. }
  split; [exact E | split].
  - intros row. now repeat split.
  - intros plain Hplain. split.
    + rewrite map_map. now apply map_ext.
    + rewrite Hplain in E. cbn [bind] in E.
      assert (M : main fs args
                  = perform []
                      (List.map Ok (opening args)
                       ++ Ok (Write (destination args) (writerow HEADER))
                       :: List.map
                            (fun row =>
                               backend <- py_str_int (backend_id row) ;;
                               Ok (Write (destination args)
                                     (writerow
                                        [lit ""; backend;
                                         lit "ex:" ++ identifier row
                                           ++ lit " " ++ name row;
                                         query row; lit ""; lit "~"])))
                            plain
                       ++ List.map Ok (closing args))).
      { rewrite (main_ok fs args _ E), write_csv_steps, Hflag. cbn [negb].
        rewrite map_map. f_equal. f_equal. f_equal. f_equal.
        apply map_ext. intros row. unfold as_csv_row.
        cbn [prefix_name backend_id identifier name query].
        now destruct (py_str_int (backend_id row)). }
      split; [exact M |].
      intros L A.
      pose proof (main_rows_backend fs args _ E) as B.
      rewrite Forall_map in B.
      rewrite M.
      assert (S : List.map
                    (fun row =>
                       backend <- py_str_int (backend_id row) ;;
                       Ok (Write (destination args)
                             (writerow
                                [lit ""; backend;
                                 lit "ex:" ++ identifier row
                                   ++ lit " " ++ name row;
                                 query row; lit ""; lit "~"])))
                    plain
                  = List.map Ok
                      (List.map
                         (fun row =>
                            Write (destination args)
                              (writerow
                                 [lit ""; str_of_int (backend_id row);
                                  lit "ex:" ++ identifier row ++ lit " "
                                    ++ name row;
                                  query row; lit ""; lit "~"]))
                         plain)).
      { rewrite map_map. apply map_ext_in. intros row Hrow.
        rewrite Forall_forall in B. specialize (B row Hrow).
        cbn [prefix_name backend_id] in B.
        rewrite py_str_int_ok by (rewrite B; exact L). reflexivity. }
      rewrite S. etransitivity; [| apply (perform_accepted _ _ A)].
      f_equal. rewrite map_app. cbn [List.map]. now rewrite map_app.
Qed.
End Prefix.

Lemma prefix_id_in_title_rewrites_witness :
  prefix_id_in_title (sample_args true) = true
  /\ @main_rows latin1 (sample_fs sample_graph) (sample_args true)
     = Ok [prefix_name sample7]
  /\ name (prefix_name sample7) = lit "ex:7 List of taxa".
Proof.
  split; [reflexivity |].
  destruct (@prefix_id_in_title_rewrites latin1 utf8_host (sample_fs sample_graph)
              (sample_args true) eq_refl) as (E & _ & _).
  split; [rewrite E; vm_compute; reflexivity | reflexivity].
Defined.

(** ** What a run depends on *)

Lemma unique_key_filter {A} (f : A -> str) (l : list A) (k : str) :
  NoDup (List.map f l) ->
  List.length (filter (has_key (fun x => Ok (f x)) str_eqb k) l) <= 1.
Proof.
  induction l as [| x l IH]; simpl; [lia |].
  intros H. inversion H as [| ? ? Hx Hl]; subst.
  unfold has_key at 1. destruct (str_eqb (f x) k) eqn:E; [| now apply IH].
  apply str_eqb_eq in E.
  destruct (filter (has_key (fun x => Ok (f x)) str_eqb k) l) as [| y r] eqn:F;
    [simpl; lia |].
  exfalso. apply Hx.
  assert (Hy : In y (filter (has_key (fun x => Ok (f x)) str_eqb k) l))
    by (rewrite F; now left).
  apply filter_In in Hy. destruct Hy as [Hin Hk].
  unfold has_key in Hk. apply str_eqb_eq in Hk.
  rewrite E, <- Hk. now apply in_map.
Qed.

(** Sorting entries of distinct names gives the same list for every order
    they are listed in. *)
Lemma sort_by_name_perm (l l' : list Path) :
  Permutation l l' -> NoDup (List.map path_name l) ->
  list_sort (fun path => Ok (path_name path)) (fun a b => Ok (str_ltb a b)) l
  = list_sort (fun path => Ok (path_name path)) (fun a b => Ok (str_ltb a b))
      l'.
Proof.
  intros P N.
  pose proof (list_sort_spec Path str (fun path => Ok (path_name path))
                (fun a b => Ok (str_ltb a b)) (fun _ => True) str_ltb
                (fun _ _ _ => I) (fun _ _ _ _ => eq_refl)
                (fun a b _ _ => str_ltb_asym a b)
                (fun a b c _ _ _ => str_le_trans a b c)
                str_eqb (fun a b H => proj1 (str_eqb_eq a b) H)
                (fun a _ => str_ltb_irrefl a)) as Spec.
  destruct (Spec l) as (s & E & Ps & S & F); [intros x _; eauto |].
  destruct (Spec l') as (s' & E' & Ps' & S' & F'); [intros x _; eauto |].
  rewrite E, E'. f_equal.
  apply (stable_sorted_unique Path str (fun path => Ok (path_name path))
           (fun _ => True) str_ltb (fun _ _ _ => I) str_eqb
           (fun a _ => str_ltb_irrefl a)
           (fun a => proj2 (str_eqb_eq a a) eq_refl)
           (fun a b _ _ => str_ltb_antisym a b));
    try assumption.
  - apply Forall_forall. intros x _. eauto.
  - apply Forall_forall. intros x _. eauto.
  - intros k. rewrite F, F'. symmetry. apply short_perm.
    + now apply filter_perm.
    + now apply unique_key_filter.
Qed.

Lemma NoDup_map_filter {A B} (f : A -> B) (p : A -> bool) (l : list A) :
  NoDup (List.map f l) -> NoDup (List.map f (filter p l)).
Proof.
  induction l as [| x l IH]; simpl; [intros _; constructor |].
  intros H. inversion H as [| ? ? Hx Hl]; subst.
  destruct (p x); simpl; [| now apply IH].
  constructor; [| now apply IH].
  intros Hin. apply Hx. apply in_map_iff in Hin.
  destruct Hin as (y & E & Hy). apply filter_In in Hy.
  rewrite <- E. now apply in_map.
Qed.

Section Dependence.
Context {U : UnicodeData} {host : Host}.

Lemma find_ttl_files_In (fs : FileSystem) (dir : Path)
    (ttl_files : list Path) (path : Path) :
  find_ttl_files fs dir = Ok ttl_files -> In path ttl_files ->
  In path (iterdir fs dir) /\ is_ttl_file fs path = true.
Proof.
  intros Hf Hin.
  destruct (find_ttl_files_sorted fs dir) as (files' & Hf' & P & _).
  rewrite Hf in Hf'. injection Hf' as <-.
  apply (Permutation_in _ (Permutation_sym P)) in Hin.
  now apply filter_In in Hin.
Qed.

(** X9: a run depends on the directory through the set of its entries
    and the content of its [.ttl] files only: the order in which the
    directory lists its entries does not matter, and no other entry is
    parsed. *)
Theorem main_depends_on_ttl_files (fs fs' : FileSystem) (args : Args) :
  is_dir fs (examples_dir args) = is_dir fs' (examples_dir args) ->
  Permutation (iterdir fs (examples_dir args))
    (iterdir fs' (examples_dir args)) ->
  NoDup (List.map path_name (iterdir fs (examples_dir args))) ->
  (forall path, In path (iterdir fs (examples_dir args)) ->
                is_file fs path = is_file fs' path) ->
  (forall path, In path (iterdir fs (examples_dir args)) ->
                is_ttl_file fs path = true ->
                parse fs path = parse fs' path) ->
  main fs args = main fs' args.
Proof.
  intros Hd P N Hfile Hparse.
  assert (Hfind : find_ttl_files fs (examples_dir args)
                  = find_ttl_files fs' (examples_dir args)).
  { unfold find_ttl_files.
    rewrite (filter_ext_in
               (fun path =>
                  is_file fs' path
                  && str_eqb (lower (suffix path)) (lit ".ttl"))
               (is_ttl_file fs) (iterdir fs' (examples_dir args))).
    - apply sort_by_name_perm; [now apply filter_perm |].
      now apply NoDup_map_filter.
    - intros path Hin. unfold is_ttl_file.
      rewrite (Hfile path); [reflexivity |].
      now apply (Permutation_in _ (Permutation_sym P)). }
  assert (Hrows : main_rows fs args = main_rows fs' args).
  { unfold main_rows. rewrite <- Hd, <- Hfind.
    destruct (negb (is_dir fs (examples_dir args))); [reflexivity |].
    destruct (find_ttl_files fs (examples_dir args)) as [files |] eqn:Hf;
      cbn [bind]; [| reflexivity].
    destruct files as [| f rest]; [reflexivity |].
    rewrite !extend_rows_concat.
    rewrite (mapM_ext
               (fun f => iter_examples fs f (arg_backend_id args))
               (fun f => iter_examples fs' f (arg_backend_id args)));
      [reflexivity |].
    intros path Hin.
    destruct (find_ttl_files_In fs _ _ path Hf Hin) as [Hdir Httl].
    unfold iter_examples. now rewrite (Hparse path Hdir Httl). }
  unfold main. now rewrite Hrows.
Qed.
End Dependence.

Lemma main_depends_on_ttl_files_witness :
  @main latin1 utf8_host (sample_fs sample_graph) (sample_args false)
  = @main latin1 utf8_host (relisted_fs sample_graph) (sample_args false).
Proof.
  apply (@main_depends_on_ttl_files latin1).
  - reflexivity.
  - apply perm_swap.
  - repeat constructor; simpl; intuition discriminate.
  - reflexivity.
  - intros path [<- | [<- | []]]; [discriminate | reflexivity].
Defined.

(** ** When a run succeeds *)





Section Success.
Context {U : UnicodeData} {host : Host}.



End Success.

(** ** The first failure *)

Lemma mapM_app_raise {A B} (f : A -> result B) (pre post : list A) (x : A)
    (e : PyExc) :
  Forall (fun y => exists r, f y = Ok r) pre -> f x = Raise e ->
  mapM f (pre ++ x :: post) = Raise e.
Proof.
  intros H Hx. induction H as [| y pre [r Hy] _ IH]; cbn [app mapM].
  - now rewrite Hx.
  - now rewrite Hy, IH.
Qed.

Lemma StronglySorted_app_inv {A} (R : A -> A -> Prop) (pre post : list A)
    (x y : A) :
  StronglySorted R (pre ++ y :: post) -> In x pre -> R x y.
Proof.
  induction pre as [| a pre IH]; cbn [app]; [contradiction |].
  intros H Hin. inversion H as [| ? ? Hs Hall]; subst.
  destruct Hin as [<- | Hin]; [| now apply IH].
  rewrite Forall_forall in Hall. apply Hall. apply in_or_app. right.
  now left.
Qed.

Section FirstFailure.
Context {U : UnicodeData} {host : Host}.

(** X11: when files of the directory fail, the run ends with the error of
    the failing [.ttl] file whose name comes first, and opens and writes
    nothing. *)
Theorem main_first_failure (fs : FileSystem) (args : Args) (ttl_file : Path)
    (e : PyExc) :
  is_dir fs (examples_dir args) = true ->
  NoDup (List.map path_name (iterdir fs (examples_dir args))) ->
  In ttl_file (iterdir fs (examples_dir args)) ->
  is_ttl_file fs ttl_file = true ->
  iter_examples fs ttl_file (arg_backend_id args) = Raise e ->
  (forall path,
      In path (iterdir fs (examples_dir args)) ->
      is_ttl_file fs path = true ->
      str_ltb (path_name path) (path_name ttl_file) = true ->
      exists rows, iter_examples fs path (arg_backend_id args) = Ok rows) ->
  main fs args = {| events := []; outcome := Raise e |}.
Proof.
  intros Hd N Hin Httl He Hbefore.
  destruct (find_ttl_files_sorted fs (examples_dir args))
    as (files & Hf & P & S).
  assert (Hfin : In ttl_file files).
  { apply (Permutation_in _ P). apply filter_In. now split. }
  apply in_split in Hfin. destruct Hfin as (pre & post & ->).
  assert (Nf : NoDup (List.map path_name (pre ++ ttl_file :: post))).
  { apply (Permutation_NoDup (Permutation_map path_name P)).
    now apply NoDup_map_filter. }
  assert (Hpre : Forall
                   (fun path =>
                      exists rows,
                        iter_examples fs path (arg_backend_id args) = Ok rows)
                   pre).
  { apply Forall_forall. intros path Hp.
    assert (Hfilter : In path (filter (is_ttl_file fs)
                                 (iterdir fs (examples_dir args)))).
    { apply (Permutation_in _ (Permutation_sym P)). apply in_or_app.
      now left. }
    apply filter_In in Hfilter. destruct Hfilter as [Hdir Hpt].
    apply Hbefore; try assumption.
    pose proof (StronglySorted_app_inv _ pre post path ttl_file S Hp) as Hle.
    cbn beta in Hle.
    destruct (str_ltb (path_name path) (path_name ttl_file)) eqn:E;
      [reflexivity | exfalso].
    pose proof (str_ltb_antisym _ _ E Hle) as Hname.
    rewrite map_app in Nf. cbn [List.map] in Nf.
    apply NoDup_remove_2 in Nf. apply Nf. apply in_or_app. left.
    rewrite <- Hname. now apply in_map. }
  apply main_raise. unfold main_rows. rewrite Hd, Hf. cbn [negb bind].
  destruct (pre ++ ttl_file :: post) as [| f rest] eqn:Efiles.
  { now destruct pre. }
  rewrite extend_rows_concat, <- Efiles.
  now rewrite (mapM_app_raise _ pre post ttl_file e Hpre He).
Qed.
End FirstFailure.

Lemma main_first_failure_witness :
  @main latin1 utf8_host (sample_fs queryless_graph) (sample_args false)
  = {| events := [];
       outcome := Raise (ValueError (no_query_message q7_file
                                       sample_subject)) |}.
Proof.
  apply (@main_first_failure latin1 utf8_host (sample_fs queryless_graph)
           (sample_args false) q7_file).
  - reflexivity.
  - repeat constructor; simpl; intuition discriminate.
  - right. now left.
  - reflexivity.
  - reflexivity.
  - intros path [<- | [<- | []]] Httl Hlt; discriminate.
Defined.

(** ** A collection without examples *)

Section NoExamples.
Context {U : UnicodeData} {host : Host}.

End NoExamples.


(** ** The output as a whole *)

Lemma read_records_quoted (field cur : str) (fields : list str)
    (records : list (list str)) (rest : str) :
  read_records InField cur fields records
    (flat_map (fun c => if N.eqb c dquote then [dquote; dquote] else [c])
       field ++ dquote :: rest)
  = read_records AfterQuote (rev field ++ cur) fields records rest.
Proof.
  revert cur. induction field as [| c field IH]; intros cur.
  - cbn [flat_map app rev read_records]. now rewrite N.eqb_refl.
  - cbn [flat_map rev]. rewrite <- !app_assoc.
    destruct (N.eqb c dquote) eqn:E.
    + apply N.eqb_eq in E. subst c. cbn [app read_records].
      rewrite N.eqb_refl. apply IH.
    + cbn [app read_records]. rewrite E. apply IH.
Qed.

Lemma read_records_field (field cur : str) (fields : list str)
    (records : list (list str)) (rest : str) :
  read_records FieldStart cur fields records (quote_field field ++ rest)
  = read_records AfterQuote (rev field) fields records rest.
Proof.
  unfold quote_field. cbn [app]. rewrite <- app_assoc.
  cbn [app read_records]. rewrite N.eqb_refl, read_records_quoted.
  now rewrite app_nil_r.
Qed.

Lemma read_records_row (field : str) (more fields : list str)
    (records : list (list str)) (rest : str) :
  read_records FieldStart [] fields records
    (join [comma] (List.map quote_field (field :: more))
       ++ newline :: rest)
  = read_records FieldStart [] []
      ((rev fields ++ field :: more) :: records) rest.
Proof.
  revert field fields.
  induction more as [| next more IH]; intros field fields.
  - cbn [List.map join]. rewrite read_records_field.
    cbn [read_records N.eqb]. cbn [rev]. now rewrite rev_involutive.
  - change (join [comma] (List.map quote_field (field :: next :: more)))
      with (quote_field field ++ [comma]
              ++ join [comma] (List.map quote_field (next :: more))).
    rewrite <- !app_assoc. rewrite read_records_field.
    cbn [app]. change (read_records AfterQuote (rev field) fields records
                         (comma :: ?t))
      with (read_records FieldStart [] (rev (rev field) :: fields) records t).
    rewrite rev_involutive, IH. cbn [rev]. now rewrite <- app_assoc.
Qed.

(** Records written one after the other read back as the records they
    were made of, whatever characters their fields hold. *)
Lemma read_records_table (table records : list (list str)) :
  Forall (fun fields => fields <> []) table ->
  read_records FieldStart [] [] records (flat_map writerow table)
  = Some (rev records ++ table).
Proof.
  intros H. revert records.
  induction H as [| fields table Hf _ IH]; intros records.
  - cbn [flat_map read_records]. now rewrite app_nil_r.
  - destruct fields as [| field more]; [congruence |].
    cbn [flat_map]. unfold writerow at 1. rewrite <- app_assoc.
    cbn [app]. rewrite read_records_row, IH. cbn [rev app].
    now rewrite <- app_assoc.
Qed.

Lemma written_app (es1 es2 : list Event) :
  written (es1 ++ es2) = written es1 ++ written es2.
Proof. apply flat_map_app. Qed.

Lemma written_writes (d : Stream) (texts : list str) :
  written (List.map (Write d) texts) = List.concat texts.
Proof.
  induction texts as [| t texts IH]; [reflexivity |].
  cbn [List.map List.concat]. unfold written in *. cbn [flat_map].
  now rewrite IH.
Qed.

Lemma firstn_prefix {A} (made rest : list A) :
  firstn (List.length made) (made ++ rest) = made.
Proof. induction made as [| x made IH]; simpl; [reflexivity | now rewrite IH]. Qed.

(** The text written by an initial part of the operations of a run is the
    text of an initial part of its records. *)
Lemma written_prefix (opened closed made rest : list Event) (d : Stream)
    (table : list (list str)) :
  written opened = [] -> written closed = [] ->
  (forall a b, opened = a ++ b -> written a = []) ->
  (forall a b, closed = a ++ b -> written a = []) ->
  opened ++ List.map (fun fields => Write d (writerow fields)) table ++ closed
  = made ++ rest ->
  exists n, written made = flat_map writerow (firstn n table).
Proof.
  intros Ho Hc Hpo Hpc E.
  assert (W : forall l : list (list str),
             written (List.map (fun fields => Write d (writerow fields)) l)
             = flat_map writerow l).
  { induction l as [| fields l IH]; [reflexivity |].
    cbn [List.map flat_map]. rewrite <- IH. reflexivity. }
  apply app_eq_app in E. destruct E as (l & [[E1 E2] | [E1 E2]]).
  - exists 0. cbn [firstn flat_map]. symmetry in E1.
    apply (Hpo made l). now rewrite E1.
  - rewrite E1, written_app, Ho. cbn [app].
    apply app_eq_app in E2. destruct E2 as (l' & [[E3 E4] | [E3 E4]]).
    + assert (P : exists n, l = List.map (fun fields => Write d (writerow fields))
                                  (firstn n table)).
      { exists (List.length l). rewrite <- firstn_map. rewrite E3.
        now rewrite firstn_prefix. }
      destruct P as [n ->]. exists n. apply W.
    + exists (List.length table). rewrite firstn_all, E3, written_app, W.
      rewrite (Hpc l' rest E4). now rewrite app_nil_r.
Qed.

Section WholeOutput.
Context {U : UnicodeData} {host : Host}.

(** X13: the text of a run that succeeds, read as CSV, is the header
    record followed by one record of six fields for each row, in the order
    of the rows, whatever quotes, commas and line feeds the names and
    queries hold; the text of a run that a step of the output ended reads
    as an initial part of these records. *)
Theorem main_output_reads_back (fs : FileSystem) (args : Args)
    (rows : list ExampleRow) :
  main_rows fs args = Ok rows ->
  (outcome (main fs args) = Ok 0%Z ->
   csv_read (written (events (main fs args)))
   = Some (HEADER
             :: List.map
                  (fun row =>
                     row_fields row (negb (prefix_id_in_title args)))
                  rows))
  /\ exists n,
      csv_read (written (events (main fs args)))
      = Some (firstn n
                (HEADER
                   :: List.map
                        (fun row =>
                           row_fields row (negb (prefix_id_in_title args)))
                        rows)).
Proof.
  intros H.
  assert (M : main fs args = perform [] (write_csv args rows))
    by (unfold main; now rewrite H).
  assert (T : Forall (fun fields : list str => fields <> [])
                (HEADER
                   :: List.map
                        (fun row =>
                           row_fields row (negb (prefix_id_in_title args)))
                        rows)).
  { constructor; [discriminate |].
    apply Forall_forall. intros fields Hin. apply in_map_iff in Hin.
    destruct Hin as (row & <- & _). discriminate. }
  assert (O : forall a b, opening args = a ++ b -> written a = []).
  { unfold opening. destruct (output args) as [path |]; intros a b E.
    - destruct a as [| x a]; [reflexivity |]. cbn [app] in E.
      injection E as <- E. symmetry in E. apply app_eq_nil in E.
      destruct E as [-> _]. reflexivity.
    - symmetry in E. apply app_eq_nil in E. destruct E as [-> _].
      reflexivity. }
  assert (C : forall a b, closing args = a ++ b -> written a = []).
  { unfold closing. destruct (output args) as [path |]; intros a b E.
    - destruct a as [| x a]; [reflexivity |]. cbn [app] in E.
      injection E as <- E. symmetry in E. apply app_eq_nil in E.
      destruct E as [-> _]. reflexivity.
    - symmetry in E. apply app_eq_nil in E. destruct E as [-> _].
      reflexivity. }
  assert (P : forall made rest,
             csv_operations args
               (List.map
                  (fun row => row_fields row (negb (prefix_id_in_title args)))
                  rows)
             = made ++ rest ->
             exists n,
               csv_read (written made)
               = Some (firstn n
                         (HEADER
                            :: List.map
                                 (fun row =>
                                    row_fields row
                                      (negb (prefix_id_in_title args)))
                                 rows))).
  { intros made rest E.
    destruct (written_prefix (opening args) (closing args) made rest
                (destination args)
                (HEADER
                   :: List.map
                        (fun row =>
                           row_fields row (negb (prefix_id_in_title args)))
                        rows)
                (O (opening args) [] (eq_sym (app_nil_r _)))
                (C (closing args) [] (eq_sym (app_nil_r _))) O C E)
      as [n W].
    exists n. rewrite W. unfold csv_read.
    rewrite read_records_table; [reflexivity |].
    apply Forall_forall. intros fields Hin.
    rewrite Forall_forall in T. apply T.
    rewrite <- (firstn_skipn n). apply in_or_app. now left. }
  split.
  - intros S. rewrite M in S |- *. apply perform_ok_inv in S.
    destruct S as (_ & ops & E & _ & ->). cbn [app].
    apply write_csv_all_ok in E. destruct E as [_ ->].
    unfold csv_operations. rewrite !written_app.
    rewrite (O (opening args) [] (eq_sym (app_nil_r _))). cbn [app].
    change (Write (destination args) (writerow HEADER) :: ?l)
      with ([Write (destination args) (writerow HEADER)] ++ l).
    rewrite !written_app.
    rewrite (C (closing args) [] (eq_sym (app_nil_r _))).
    rewrite app_nil_r.
    assert (W : forall l : list (list str),
               written (List.map
                          (fun fields =>
                             Write (destination args) (writerow fields)) l)
               = flat_map writerow l).
    { induction l as [| fields l IH]; [reflexivity |].
      cbn [List.map flat_map]. rewrite <- IH. reflexivity. }
    rewrite W. unfold csv_read.
    change (written [Write (destination args) (writerow HEADER)]
            ++ flat_map writerow ?l)
      with (flat_map writerow (HEADER :: l)).
    now rewrite read_records_table.
  - rewrite M.
    destruct (perform_prefix [] (write_csv args rows))
      as (made & rest & E & _ & -> & _). cbn [app].
    destruct (made_prefix _ _ made rest (write_csv_ideal args rows) E)
      as [rest' Ei].
    exact (P made rest' Ei).
Qed.
End WholeOutput.

Lemma main_output_reads_back_witness :
  @main_rows latin1 (sample_fs sample_graph) (sample_args true)
  = Ok [prefix_name sample7]
  /\ outcome
       (@main latin1 utf8_host (sample_fs sample_graph) (sample_args true))
     = Ok 0%Z
  /\ csv_read
       (written
          (events
             (@main latin1 utf8_host (sample_fs sample_graph)
                (sample_args true))))
     = Some [HEADER;
             [lit ""; lit "69"; lit "ex:7 List of taxa"; query sample7;
              lit ""; lit "~"]].
Proof.
  assert (H : @main_rows latin1 (sample_fs sample_graph) (sample_args true)
              = Ok [prefix_name sample7]) by (vm_compute; reflexivity).
  assert (S : outcome
                (@main latin1 utf8_host (sample_fs sample_graph)
                   (sample_args true))
              = Ok 0%Z) by (vm_compute; reflexivity).
  split; [exact H | split; [exact S |]].
  exact (proj1 (@main_output_reads_back latin1 utf8_host
                  (sample_fs sample_graph) (sample_args true)
                  [prefix_name sample7] H) S).
Defined.

(** ** The sort key *)

Section KeyDomain.
Context {U : UnicodeData} {host : Host}.

Lemma ascii_isdigit_isdecimal (value : str) :
  is_ascii value = true -> isdigit value = true -> isdecimal value = true.
Proof.
  unfold isdigit, isdecimal, is_ascii.
  destruct value as [| c rest]; [discriminate |].
  rewrite !forallb_forall. intros Ha Hd x Hx.
  specialize (Ha x Hx). specialize (Hd x Hx). apply N.ltb_lt in Ha.
  rewrite (ascii_cp_decimal x Ha).
  rewrite (ascii_isdigit x Ha) in Hd. now rewrite Hd.
Qed.

(** X14: [natural_sort_key] returns a key for every string but those
    made of digits that [int] does not convert: for digits that are not all
    decimal digits it raises the error of an invalid literal, and for more
    than 4300 decimal digits at the start the error of the limit on such
    conversions; every string that is not all digits has a key, and so has
    every ASCII string that is not a run of more than 4300 digits. *)
Theorem natural_sort_key_domain (value : str) :
  ((exists k, natural_sort_key value = Ok k)
   <-> (isdigit value = true ->
        isdecimal value = true /\ (len value <= int_max_str_digits)%Z))
  /\ (forall e, natural_sort_key value = Raise e ->
                isdigit value = true
                /\ ((e = IntDigitLimit int_max_str_digits
                           (leading_decimals value)
                     /\ (int_max_str_digits < leading_decimals value)%Z)
                    \/ (e = InvalidIntLiteral value
                        /\ isdecimal value = false
                        /\ (leading_decimals value
                            <= int_max_str_digits)%Z)))
  /\ (isdigit value = false ->
      natural_sort_key value = Ok (1%Z, VStr value))
  /\ (is_ascii value = true ->
      (isdigit value = true -> (len value <= int_max_str_digits)%Z) ->
      exists k, natural_sort_key value = Ok k).
Proof.
  split; [| split; [| split]].
  - rewrite natural_sort_key_defined. unfold reads_as_int.
    split; intros H D; specialize (H D).
    + apply andb_prop in H. destruct H as [H1 H2].
      apply Z.leb_le in H2. now split.
    + destruct H as [H1 H2]. rewrite H1. cbn [andb]. now apply Z.leb_le.
  - intros e He.
    assert (Hd : isdigit value = true).
    { unfold natural_sort_key in He. destruct (isdigit value);
        [reflexivity | discriminate]. }
    split; [exact Hd |].
    unfold natural_sort_key, int_of_str in He. rewrite Hd in He.
    destruct value as [| c rest]; [discriminate |].
    destruct (int_max_str_digits <? leading_decimals (c :: rest))%Z eqn:L;
      cbn [bind] in He.
    + left. apply Z.ltb_lt in L. split; [congruence | exact L].
    + right. apply Z.ltb_ge in L.
      destruct (decimal_value 0 (c :: rest)) as [n |] eqn:V; cbn [bind] in He;
        [discriminate |].
      split; [congruence | split; [| exact L]].
      destruct (isdecimal (c :: rest)) eqn:D; [| reflexivity].
      destruct (decimal_value_some _ 0 D) as [n Hn]. congruence.
  - apply natural_sort_key_text.
  - intros Ha Hl. apply natural_sort_key_defined. intros D.
    unfold reads_as_int. rewrite (ascii_isdigit_isdecimal value Ha D).
    cbn [andb]. apply Z.leb_le. now apply Hl.
Qed.

(** X15: how the global sort compares identifiers: two numbers written
    in decimal, with no more digits than [int] converts, compare as
    numbers; an identifier of such digits is below every identifier that is
    not all digits; and two identifiers that are not all digits compare as
    strings, code point by code point. *)
Theorem identifier_lt_meaning :
  (forall m n : Z,
      (0 <= m)%Z -> (0 <= n)%Z ->
      (len (str_of_int m) <= int_max_str_digits)%Z ->
      (len (str_of_int n) <= int_max_str_digits)%Z ->
      identifier_lt (str_of_int m) (str_of_int n) = Ok (m <? n)%Z)
  /\ (forall a b,
         reads_as_int a = true -> isdigit b = false ->
         identifier_lt a b = Ok true /\ identifier_lt b a = Ok false)
  /\ (forall a b,
         isdigit a = false -> isdigit b = false ->
         identifier_lt a b = Ok (str_ltb a b)).
Proof.
  split; [| split].
  - intros m n Hm Hn Lm Ln. unfold identifier_lt.
    destruct (str_of_int_decimal m Hm) as [Dm Vm].
    destruct (str_of_int_decimal n Hn) as [Dn Vn].
    assert (Rm : reads_as_int (str_of_int m) = true).
    { unfold reads_as_int. rewrite Dm. now apply Z.leb_le. }
    assert (Rn : reads_as_int (str_of_int n) = true).
    { unfold reads_as_int. rewrite Dn. now apply Z.leb_le. }
    destruct (natural_sort_key_decimal _ Rm) as (m' & Vm' & ->).
    destruct (natural_sort_key_decimal _ Rn) as (n' & Vn' & ->).
    cbn [bind]. rewrite Vm in Vm'. rewrite Vn in Vn'.
    injection Vm' as <-. injection Vn' as <-.
    now rewrite tuple_lt_wf.
  - intros a b Da Db. unfold identifier_lt.
    destruct (natural_sort_key_decimal _ Da) as (n & _ & ->).
    rewrite (natural_sort_key_text _ Db). now split.
  - intros a b Da Db. unfold identifier_lt.
    rewrite (natural_sort_key_text _ Da), (natural_sort_key_text _ Db).
    cbn [bind]. now rewrite tuple_lt_wf.
Qed.

(** X16: on rows whose identifiers are made of decimal digits, no more
    than [int] converts, or are not all digits, the global sort returns the
    rows in the order of their keys, those of equal keys in their former
    order, the all-digit rows first, and no other list is so. *)
Theorem sort_rows_ordering (rows : list ExampleRow) :
  (forall row, In row rows ->
     (isdecimal (identifier row) = true
      /\ (len (identifier row) <= int_max_str_digits)%Z)
     \/ isdigit (identifier row) = false) ->
  exists sorted,
    sort_rows rows = Ok sorted
    /\ Permutation rows sorted
    /\ StronglySorted row_le sorted
    /\ (forall k, filter (has_key row_key key_eqb k) sorted
                  = filter (has_key row_key key_eqb k) rows)
    /\ sorted = filter numeric sorted
                  ++ filter (fun r => negb (numeric r)) sorted
    /\ (forall other,
           Permutation rows other ->
           StronglySorted row_le other ->
           (forall k, filter (has_key row_key key_eqb k) other
                      = filter (has_key row_key key_eqb k) rows) ->
           other = sorted).
Proof.
  intros H.
  destruct (sort_rows_natural_order rows) as (_ & _ & _ & Hsort & _).
  apply Hsort. intros row Hrow.
  destruct (H row Hrow) as [[Hd Hl] | Hd]; [left | now right].
  unfold reads_as_int. rewrite Hd. now apply Z.leb_le.
Qed.
End KeyDomain.

Lemma sort_rows_ordering_witness :
  exists sorted,
    @sort_rows latin1 (List.map sample_row ["10"; "2"; "a"; "1"]%string)
    = Ok sorted
    /\ Permutation (List.map sample_row ["10"; "2"; "a"; "1"]%string) sorted
    /\ StronglySorted (@row_le latin1) sorted.
Proof.
  destruct (@sort_rows_ordering latin1
              (List.map sample_row ["10"; "2"; "a"; "1"]%string))
    as (sorted & E & P & S & _).
  - intros row [<- | [<- | [<- | [<- | []]]]];
      (left; split; [reflexivity | vm_compute; discriminate])
      || (right; reflexivity).
  - exists sorted. now repeat split.
Defined.

(** ** The files that are read *)

Lemma rfind_from_none (c : char) (s : str) (i acc : Z) :
  contains c s = false -> rfind_from c s i acc = acc.
Proof.
  revert i acc. induction s as [| x s IH]; intros i acc; [reflexivity |].
  unfold contains. cbn [existsb rfind_from]. intros H.
  apply orb_false_elim in H. destruct H as [Hx Hs].
  rewrite N.eqb_sym in Hx. rewrite Hx. now apply IH.
Qed.

Lemma rfind_from_last (c : char) (pre post : str) (i acc : Z) :
  contains c post = false ->
  rfind_from c (pre ++ c :: post) i acc = (i + len pre)%Z.
Proof.
  intros H. revert i acc.
  induction pre as [| x pre IH]; intros i acc; cbn [app rfind_from].
  - rewrite N.eqb_refl, (rfind_from_none c post _ _ H). unfold len.
    simpl. lia.
  - rewrite IH. unfold len. cbn [List.length]. lia.
Qed.

Lemma skipn_len_app {A} (pre post : list A) :
  skipn (Z.to_nat (Z.of_nat (List.length pre))) (pre ++ post) = post.
Proof.
  rewrite Nat2Z.id. induction pre; [reflexivity | assumption].
Qed.

Section TtlFiles.
Context {U : UnicodeData} {host : Host}.

(** X17: the entries [main] reads are the regular files whose name is a
    non-empty base followed by a last dot and an extension that reads
    [".ttl"] once in lower case: a file named [.ttl] alone, or whose name
    ends in a dot, is not read. *)
Theorem is_ttl_file_iff (fs : FileSystem) (path : Path) :
  is_ttl_file fs path = true
  <-> is_file fs path = true
      /\ exists base ext,
           path_name path = base ++ dot :: ext
           /\ base <> [] /\ ext <> []
           /\ contains dot ext = false
           /\ lower (dot :: ext) = lit ".ttl".
Proof.
  unfold is_ttl_file, suffix, rfind. split.
  - intros H. apply andb_prop in H. destruct H as [Hf Hs].
    split; [exact Hf |]. apply str_eqb_eq in Hs.
    pose proof (lower_nil_inv _ Hs) as Hne.
    destruct (contains dot (path_name path)) eqn:C.
    + destruct (rsplit_last_spec dot (path_name path) C) as (pre & E & Hno).
      remember (rsplit_last dot (path_name path)) as post eqn:Ep.
      clear Ep. rewrite E in Hs, Hne.
      rewrite (rfind_from_last dot pre post 0 (-1) Hno) in Hs, Hne.
      cbn [Z.add] in Hs, Hne.
      destruct ((0 <? len pre) && (len pre <? len (pre ++ dot :: post) - 1))%Z
        eqn:B; [| congruence].
      apply andb_prop in B. destruct B as [B1 B2].
      apply Z.ltb_lt in B1, B2. unfold len in *.
      rewrite skipn_len_app in Hs.
      rewrite length_app in B2. cbn [List.length] in B2.
      exists pre, post. split; [exact E |].
      split; [intros ->; simpl in B1; lia |].
      split; [intros ->; simpl in B2; lia |].
      now split.
    + rewrite (rfind_from_none dot _ 0 (-1) C) in Hne. now cbn in Hne.
  - intros (Hf & base & ext & E & Hb & He & Hno & Hl).
    rewrite Hf, E. cbn [andb].
    rewrite (rfind_from_last dot base ext 0 (-1) Hno). cbn [Z.add].
    assert (B : ((0 <? len base)
                 && (len base <? len (base ++ dot :: ext) - 1))%Z = true).
    { unfold len. rewrite length_app. cbn [List.length].
      destruct base; [congruence |]. destruct ext; [congruence |].
      cbn [List.length]. apply andb_true_intro.
      split; [apply Z.ltb_lt | apply Z.ltb_lt]; lia. }
    rewrite B. unfold len. rewrite skipn_len_app.
    now apply str_eqb_eq.
Qed.
End TtlFiles.

(** ** The ways a run fails *)


Section Failures.
Context {U : UnicodeData} {host : Host}.



End Failures.


(** ** Records that UTF-8 does not encode *)

Lemma forallb_quote_field (field : str) :
  forallb utf8_encodable (quote_field field) = forallb utf8_encodable field.
Proof.
  unfold quote_field. cbn [forallb].
  change (utf8_encodable dquote) with true. cbn [andb].
  rewrite forallb_app. cbn [forallb].
  change (utf8_encodable dquote) with true. cbn [andb].
  rewrite andb_true_r.
  induction field as [| c field IH]; [reflexivity |].
  cbn [flat_map forallb]. rewrite forallb_app, IH.
  destruct (N.eqb c dquote) eqn:E; cbn [forallb]; [| now rewrite andb_true_r].
  apply N.eqb_eq in E. subst c. reflexivity.
Qed.

Lemma forallb_join (parts : list str) :
  forallb utf8_encodable (join [comma] parts)
  = forallb (forallb utf8_encodable) parts.
Proof.
  induction parts as [| part parts IH]; [reflexivity |].
  destruct parts as [| next parts].
  - change (join [comma] [part]) with part. cbn [forallb].
    now rewrite andb_true_r.
  - change (join [comma] (part :: next :: parts))
      with (part ++ [comma] ++ join [comma] (next :: parts)).
    rewrite !forallb_app, IH.
    change (forallb utf8_encodable [comma]) with true.
    reflexivity.
Qed.

Lemma forallb_writerow (fields : list str) :
  forallb utf8_encodable (writerow fields)
  = forallb (forallb utf8_encodable) fields.
Proof.
  unfold writerow. rewrite forallb_app, forallb_join.
  change (forallb utf8_encodable [newline]) with true.
  rewrite andb_true_r.
  induction fields as [| field fields IH]; [reflexivity |].
  cbn [List.map forallb]. now rewrite IH, forallb_quote_field.
Qed.

Section FileOutput.
Context {U : UnicodeData} {host : Host}.

(** Operations on a file of which the operating system refuses none are
    accepted exactly when UTF-8 encodes the text of each write. *)
Lemma accepted_file (path : Path) (ops done : list Event) :
  (forall done op, os_error done op = None) ->
  Forall (fun op => match op with
                    | Write stream _ => stream = FileStream path
                    | _ => True
                    end) ops ->
  accepted done ops
  <-> Forall (fun op => match op with
                        | Write _ text =>
                            forallb utf8_encodable text = true
                        | _ => True
                        end) ops.
Proof.
  intros Hos F. revert done.
  induction F as [| op ops Hop _ IH]; intros done.
  - split; [constructor | intros _; apply accepted_nil].
  - rewrite accepted_cons, IH.
    assert (E : failure done op = None
                <-> match op with
                    | Write _ text => forallb utf8_encodable text = true
                    | _ => True
                    end).
    { unfold failure. destruct op as [p m n e | stream text | p];
        try (rewrite Hos; tauto).
      subst stream. unfold encode.
      destruct (utf8_encode text) as [encoded | e] eqn:En.
      - apply utf8_from_ok_inv in En. destruct En as [En _].
        rewrite Hos. tauto.
      - split; [discriminate |]. intros Ht.
        unfold utf8_encode in En. rewrite (utf8_from_ok _ _ _ Ht) in En.
        discriminate. }
    rewrite E. split.
    + intros [H1 H2]. now constructor.
    + intros H. inversion H; subst. now split.
Qed.

(** X19: on a host whose operating system refuses nothing, a run to a
    file that has collected its rows, the backend id one that [str]
    converts, returns 0 exactly when no field of any record holds a
    character that UTF-8 does not encode, a lone surrogate. *)
Theorem main_file_output_iff (fs : FileSystem) (args : Args) (path : Path)
    (rows : list ExampleRow) :
  (forall done op, os_error done op = None) ->
  output args = Some path ->
  main_rows fs args = Ok rows ->
  (int_digits (arg_backend_id args) <= int_max_str_digits)%Z ->
  outcome (main fs args) = Ok 0%Z
  <-> Forall
        (fun row =>
           forallb (forallb utf8_encodable)
             (row_fields row (negb (prefix_id_in_title args))) = true)
        rows.
Proof.
  intros Hos Hp H L.
  pose proof (main_rows_backend fs args rows H) as B.
  assert (W : write_csv args rows
              = List.map Ok
                  (csv_operations args
                     (List.map
                        (fun row =>
                           row_fields row (negb (prefix_id_in_title args)))
                        rows))).
  { apply write_csv_operations. revert B. apply Forall_impl.
    intros row ->. exact L. }
  assert (F : Forall (fun op => match op with
                                | Write stream _ => stream = FileStream path
                                | _ => True
                                end)
                (csv_operations args
                   (List.map
                      (fun row =>
                         row_fields row (negb (prefix_id_in_title args)))
                      rows))).
  { unfold csv_operations, opening, closing, destination. rewrite Hp.
    cbn [app]. constructor; [exact I |].
    constructor; [reflexivity |]. apply Forall_app. split.
    - apply Forall_forall. intros op Hop. apply in_map_iff in Hop.
      now destruct Hop as (fields & <- & _).
    - now repeat constructor. }
  assert (S : outcome (main fs args) = Ok 0%Z
              <-> accepted []
                    (csv_operations args
                       (List.map
                          (fun row =>
                             row_fields row (negb (prefix_id_in_title args)))
                          rows))).
  { rewrite (main_ok fs args rows H), W. split.
    - intros O. apply perform_ok_inv in O.
      destruct O as (_ & ops & E & A & _).
      apply map_Ok_inj in E. now rewrite E.
    - intros A. now rewrite (perform_accepted _ _ A). }
  rewrite S, (accepted_file path _ [] Hos F).
  unfold csv_operations, opening, closing. rewrite Hp. cbn [app].
  split.
  - intros A. inversion A as [| ? ? _ A1]; subst.
    inversion A1 as [| ? ? _ A2]; subst.
    apply Forall_app in A2. destruct A2 as [A2 _].
    rewrite Forall_map, Forall_map in A2. revert A2. apply Forall_impl.
    intros row Hrow. now rewrite <- forallb_writerow.
  - intros A. constructor; [exact I |].
    constructor; [vm_compute; reflexivity |].
    apply Forall_app. split; [| now repeat constructor].
    rewrite Forall_map, Forall_map. revert A. apply Forall_impl.
    intros row Hrow. now rewrite forallb_writerow.
Qed.
End FileOutput.

Lemma main_file_output_iff_witness :
  outcome (@main latin1 utf8_host (sample_fs surrogate_graph)
             (sample_args false))
  <> Ok 0%Z
  /\ outcome (@main latin1 utf8_host (sample_fs accent_graph)
                (sample_args false))
     = Ok 0%Z.
Proof.
  split.
  - intros O.
    apply (@main_file_output_iff latin1 utf8_host (sample_fs surrogate_graph)
             (sample_args false) sample_output
             [ {| identifier := lit "7"; backend_id := 69;
                  name := lit "List of " ++ [55296%N];
                  query := lit "SELECT * WHERE { ?s ?p ?o }" |} ]) in O.
    + inversion O as [| ? ? Hrow _]; subst. vm_compute in Hrow.
      discriminate.
    + reflexivity.
    + reflexivity.
    + vm_compute. reflexivity.
    + vm_compute. discriminate.
  - apply (@main_file_output_iff latin1 utf8_host (sample_fs accent_graph)
             (sample_args false) sample_output
             [ {| identifier := lit "7"; backend_id := 69;
                  name := lit "Liste des esp" ++ [232%N] ++ lit "ces";
                  query := lit "SELECT * WHERE { ?s ?p ?o }" |} ]).
    + reflexivity.
    + reflexivity.
    + vm_compute. reflexivity.
    + vm_compute. discriminate.
    + repeat constructor.
Defined.
